(** * IntrinsicImageDiffusion: the screen-space incident-light integrator

    A shallow embedding of [iid/lighting_optimization/render.py]:
    the constructor and the [forward] method of [IIR_SSRT_RenderLayer] and
    the frame builder [create_frame], over a small model of the tensor
    operations they use.

    Numbers.  Tensor entries are real numbers ([R]): the development
    verifies the arithmetic the code writes down, not its float32 rounding.
    Sizes and indices are [nat]; Python integers that may be negative
    (slice bounds, constructor arguments, pixel coordinates) are [Z].

    Tensors.  A tensor is a shape together with an entry for every
    multi-index.  Operations follow the PyTorch/NumPy semantics the code
    relies on: right-aligned broadcasting, Python slicing with clamped
    bounds, row-major [reshape].  An operation that raises in Python
    returns [Raise] here. *)

From Stdlib Require Import String Ascii.
From Stdlib Require Import Reals Lra Lia List ZArith Bool Arith Psatz.
From Stdlib Require Import RNsatz.
Import ListNotations.

Open Scope R_scope.

(** ** Exceptions *)

Inductive exception : Type :=
| AssertionError
| ZeroDivisionError
| ValueError
| RuntimeError
| IndexError
| OtherError (name : string).

Inductive result (A : Type) : Type :=
| Ok (a : A)
| Raise (e : exception).

Arguments Ok {A} a.
Arguments Raise {A} e.

Definition bind {A B : Type} (m : result A) (k : A -> result B) : result B :=
  match m with
  | Ok a => k a
  | Raise e => Raise e
  end.

Definition assert (b : bool) : result unit :=
  if b then Ok tt else Raise AssertionError.

Declare Scope py_scope.
Delimit Scope py_scope with py.
Notation "x <- m ;; k" := (bind m (fun x => k))
  (at level 61, m at next level, right associativity) : py_scope.
Notation "' p <- m ;; k" := (bind m (fun x => match x with p => k end))
  (at level 61, p pattern, m at next level, right associativity) : py_scope.
Notation "m ;;; k" := (bind m (fun _ => k))
  (at level 61, right associativity) : py_scope.
Open Scope py_scope.

Definition raises {A : Type} (m : result A) : Prop :=
  exists e, m = Raise e.

Definition returns {A : Type} (m : result A) : Prop :=
  exists a, m = Ok a.

(** ** Tensors *)

Record tensor (A : Type) : Type := mkT {
  shape : list nat;
  elem : list nat -> A
}.

Arguments mkT {A} shape elem.
Arguments shape {A} t.
Arguments elem {A} t idx.

Definition rank {A : Type} (t : tensor A) : nat := length (shape t).

Definition numel (s : list nat) : nat := fold_right Nat.mul 1%nat s.

Definition dim (s : list nat) (d : nat) : nat := nth d s 0%nat.

(** A multi-index is inside a shape when it has the shape's length and each
    entry is below the corresponding size. *)
Fixpoint in_range (s idx : list nat) : Prop :=
  match s, idx with
  | [], [] => True
  | n :: s', i :: idx' => (i < n)%nat /\ in_range s' idx'
  | _, _ => False
  end.

(** *** Multi-index plumbing *)

Fixpoint insert_at (d k : nat) (idx : list nat) : list nat :=
  match d with
  | O => k :: idx
  | S d' => match idx with
            | [] => [k]
            | i :: r => i :: insert_at d' k r
            end
  end.

Fixpoint remove_at {A : Type} (d : nat) (l : list A) : list A :=
  match d, l with
  | _, [] => []
  | O, _ :: r => r
  | S d', i :: r => i :: remove_at d' r
  end.

Fixpoint update_at {A : Type} (d : nat) (f : A -> A) (l : list A) : list A :=
  match d, l with
  | _, [] => []
  | O, i :: r => f i :: r
  | S d', i :: r => i :: update_at d' f r
  end.

Definition set_at {A : Type} (d : nat) (v : A) (l : list A) : list A :=
  update_at d (fun _ => v) l.

Fixpoint map2 {A B C : Type} (f : A -> B -> C) (l : list A) (m : list B)
  : list C :=
  match l, m with
  | a :: l', b :: m' => f a b :: map2 f l' m'
  | _, _ => []
  end.

(** Row-major linearisation of a multi-index, and back. *)
Fixpoint ravel (s idx : list nat) : nat :=
  match s, idx with
  | _ :: s', i :: idx' => (i * numel s' + ravel s' idx')%nat
  | _, _ => 0%nat
  end.

Fixpoint unravel (s : list nat) (k : nat) : list nat :=
  match s with
  | [] => []
  | _ :: s' => (k / numel s')%nat :: unravel s' (k mod numel s')
  end.

(** Finite sums and folds over [0 .. n-1]. *)
Fixpoint sum_n (f : nat -> R) (n : nat) : R :=
  match n with
  | O => 0
  | S n' => sum_n f n' + f n'
  end.

Fixpoint fold_n {A : Type} (op : A -> A -> A) (f : nat -> A) (n : nat) (a : A)
  : A :=
  match n with
  | O => a
  | S n' => op (fold_n op f n' a) (f n')
  end.

(** *** Python indexing and slicing *)

(** [x[k]] on an axis of size [n]: negative [k] counts from the end, an
    index outside [-n, n) raises IndexError. *)
Definition pyindex (n : nat) (k : Z) : result nat :=
  if (0 <=? k)%Z && (k <? Z.of_nat n)%Z then Ok (Z.to_nat k)
  else if (k <? 0)%Z && (- Z.of_nat n <=? k)%Z then Ok (Z.to_nat (k + Z.of_nat n))
  else Raise IndexError.

(** A slice bound on an axis of size [n]: negative bounds count from the
    end, and every bound is clamped into [0, n]. *)
Definition slice_bound (n : nat) (b : Z) : nat :=
  if (b <? 0)%Z then Z.to_nat (Z.max (b + Z.of_nat n) 0)
  else Nat.min (Z.to_nat b) n.

(** [x[lo:hi]] on an axis of size [n]: the first index taken and how many. *)
Definition pyslice (n : nat) (lo hi : option Z) : nat * nat :=
  let start := match lo with Some b => slice_bound n b | None => 0%nat end in
  let stop := match hi with Some b => slice_bound n b | None => n end in
  (start, (stop - start)%nat).

(** *** Broadcasting *)

Definition bdim (a b : nat) : option nat :=
  if (a =? b)%nat then Some a
  else if (a =? 1)%nat then Some b
  else if (b =? 1)%nat then Some a
  else None.

Fixpoint bshape_rev (a b : list nat) : option (list nat) :=
  match a, b with
  | [], _ => Some b
  | _, [] => Some a
  | x :: a', y :: b' =>
      match bdim x y, bshape_rev a' b' with
      | Some d, Some r => Some (d :: r)
      | _, _ => None
      end
  end.

Definition broadcast_shapes (a b : list nat) : option (list nat) :=
  option_map (@rev nat) (bshape_rev (rev a) (rev b)).

Fixpoint shape_eqb (a b : list nat) : bool :=
  match a, b with
  | [], [] => true
  | x :: a', y :: b' => (x =? y)%nat && shape_eqb a' b'
  | _, _ => false
  end.

(** The index of an operand of shape [s] read for the result index [idx]:
    the trailing [length s] entries, with 0 on the axes of size 1. *)
Definition bidx (s idx : list nat) : list nat :=
  map2 (fun d i => if (d =? 1)%nat then 0%nat else i) s
       (skipn (length idx - length s) idx).

Module torch.

Definition map {A B : Type} (f : A -> B) (t : tensor A) : tensor B :=
  mkT (shape t) (fun idx => f (elem t idx)).

(** Elementwise binary operation with broadcasting. *)
Definition binop {A B C : Type} (f : A -> B -> C) (a : tensor A)
  (b : tensor B) : result (tensor C) :=
  match broadcast_shapes (shape a) (shape b) with
  | Some s =>
      Ok (mkT s (fun idx => f (elem a (bidx (shape a) idx))
                             (elem b (bidx (shape b) idx))))
  | None => Raise RuntimeError
  end.

Definition add := binop Rplus.
Definition sub := binop Rminus.
Definition mul := binop Rmult.
Definition div := binop Rdiv.

(** [t[..., lo:hi, ...]] on axis [d]. *)
Definition slice {A : Type} (d : nat) (lo hi : option Z) (t : tensor A)
  : result (tensor A) :=
  if (d <? rank t)%nat then
    let '(start, len) := pyslice (dim (shape t) d) lo hi in
    Ok (mkT (set_at d len (shape t))
            (fun idx => elem t (update_at d (fun i => (start + i)%nat) idx)))
  else Raise IndexError.

(** [t[..., k, ...]] on axis [d]: the axis disappears. *)
Definition select {A : Type} (d : nat) (k : Z) (t : tensor A)
  : result (tensor A) :=
  if (d <? rank t)%nat then
    i <- pyindex (dim (shape t) d) k ;;
    Ok (mkT (remove_at d (shape t)) (fun idx => elem t (insert_at d i idx)))
  else Raise IndexError.

(** [t[..., k, ...] = u] on axis [d], as a new tensor; [u] is broadcast
    to the selected slice. *)
Definition select_set {A : Type} (d : nat) (k : Z) (t u : tensor A)
  : result (tensor A) :=
  if (d <? rank t)%nat then
    i <- pyindex (dim (shape t) d) k ;;
    match broadcast_shapes (remove_at d (shape t)) (shape u) with
    | Some s =>
        if shape_eqb s (remove_at d (shape t)) then
          Ok (mkT (shape t)
                  (fun idx => if (nth d idx 0 =? i)%nat
                              then elem u (bidx (shape u) (remove_at d idx))
                              else elem t idx))
        else Raise RuntimeError
    | None => Raise RuntimeError
    end
  else Raise IndexError.

Definition unsqueeze {A : Type} (d : nat) (t : tensor A)
  : result (tensor A) :=
  if (d <=? rank t)%nat then
    Ok (mkT (insert_at d 1 (shape t)) (fun idx => elem t (remove_at d idx)))
  else Raise IndexError.

(** [t.permute(p)]: axis [k] of the result is axis [p[k]] of [t]. *)
Definition is_perm (p : list nat) : bool :=
  forallb (fun k => existsb (Nat.eqb k) p) (seq 0 (length p)).

Fixpoint index_of (k : nat) (p : list nat) : nat :=
  match p with
  | [] => 0
  | x :: p' => if (x =? k)%nat then 0 else S (index_of k p')
  end.

Definition permute {A : Type} (p : list nat) (t : tensor A)
  : result (tensor A) :=
  if (length p =? rank t)%nat && is_perm p then
    Ok (mkT (List.map (dim (shape t)) p)
            (fun idx => elem t (List.map (fun m => nth (index_of m p) idx 0%nat)
                                         (seq 0 (length p)))))
  else Raise RuntimeError.

(** [t.expand(s)]: every axis of [t] (right-aligned) has the target size
    or size 1. *)
Definition expand {A : Type} (s : list nat) (t : tensor A)
  : result (tensor A) :=
  if (rank t <=? length s)%nat then
    match broadcast_shapes (shape t) s with
    | Some s' =>
        if shape_eqb s' s then
          Ok (mkT s (fun idx => elem t (bidx (shape t) idx)))
        else Raise RuntimeError
    | None => Raise RuntimeError
    end
  else Raise RuntimeError.

(** [t.reshape(s)] / [t.view(s)] with all sizes given. *)
Definition reshape {A : Type} (s : list nat) (t : tensor A)
  : result (tensor A) :=
  if (numel s =? numel (shape t))%nat then
    Ok (mkT s (fun idx => elem t (unravel (shape t) (ravel s idx))))
  else Raise RuntimeError.

(** [t.reshape(a, -1, b)]: the size of axis [d] is inferred. *)
Definition reshape_infer {A : Type} (s : list nat) (d : nat) (t : tensor A)
  : result (tensor A) :=
  let known := numel (remove_at d s) in
  if (known =? 0)%nat then Raise RuntimeError
  else if (numel (shape t) mod known =? 0)%nat then
    reshape (set_at d (numel (shape t) / known)%nat s) t
  else Raise RuntimeError.

Definition flatten {A : Type} (t : tensor A) : result (tensor A) :=
  reshape [numel (shape t)] t.

(** [torch.cat([a, b, c], dim=d)] for three tensors. *)
Definition cat3 {A : Type} (d : nat) (a b c : tensor A)
  : result (tensor A) :=
  if (d <? rank a)%nat
     && shape_eqb (remove_at d (shape a)) (remove_at d (shape b))
     && shape_eqb (remove_at d (shape a)) (remove_at d (shape c))
     && (rank b =? rank a)%nat && (rank c =? rank a)%nat
  then
    let na := dim (shape a) d in
    let nb := dim (shape b) d in
    let nc := dim (shape c) d in
    Ok (mkT (set_at d (na + nb + nc)%nat (shape a))
            (fun idx =>
               let i := nth d idx 0%nat in
               if (i <? na)%nat then elem a idx
               else if (i <? na + nb)%nat
                    then elem b (update_at d (fun i => (i - na)%nat) idx)
                    else elem c (update_at d (fun i => (i - na - nb)%nat) idx)))
  else Raise RuntimeError.

(** [torch.cat([a, b], dim=d)]. *)
Definition cat2 {A : Type} (d : nat) (a b : tensor A)
  : result (tensor A) :=
  if (d <? rank a)%nat
     && shape_eqb (remove_at d (shape a)) (remove_at d (shape b))
     && (rank b =? rank a)%nat
  then
    let na := dim (shape a) d in
    let nb := dim (shape b) d in
    Ok (mkT (set_at d (na + nb)%nat (shape a))
            (fun idx =>
               if (nth d idx 0 <? na)%nat then elem a idx
               else elem b (update_at d (fun i => (i - na)%nat) idx)))
  else Raise RuntimeError.

(** [torch.stack([a, b, c], dim=d)]: equal shapes, a new axis of size 3. *)
Definition stack3 {A : Type} (d : nat) (a b c : tensor A)
  : result (tensor A) :=
  if (d <=? rank a)%nat
     && shape_eqb (shape a) (shape b)
     && shape_eqb (shape a) (shape c)
  then
    Ok (mkT (insert_at d 3%nat (shape a))
            (fun idx =>
               match nth d idx 0%nat with
               | 0%nat => elem a (remove_at d idx)
               | 1%nat => elem b (remove_at d idx)
               | _ => elem c (remove_at d idx)
               end))
  else Raise RuntimeError.

(** [a, b, c = torch.split(t, 1, dim=d)]: chunks of size 1 along [d],
    unpacked into exactly three names (ValueError otherwise). *)
Definition split3 {A : Type} (d : nat) (t : tensor A)
  : result (tensor A * tensor A * tensor A) :=
  if (d <? rank t)%nat then
    if (dim (shape t) d =? 3)%nat then
      let chunk k :=
        mkT (set_at d 1%nat (shape t))
            (fun idx => elem t (update_at d (fun i => (k + i)%nat) idx)) in
      Ok (chunk 0%nat, chunk 1%nat, chunk 2%nat)
    else Raise ValueError
  else Raise IndexError.

Definition abs := map Rabs.
Definition neg := map Ropp.

(** [torch.clamp(t, min=m)]. *)
Definition clamp_min (m : R) := map (fun x => Rmax x m).

Definition ones_like {A : Type} (t : tensor A) : tensor R :=
  mkT (shape t) (fun _ => 1).

Definition zeros_like {A : Type} (t : tensor A) : tensor R :=
  mkT (shape t) (fun _ => 0).

(** [torch.mean(t, dim=d)]. *)
Definition mean (d : nat) (t : tensor R) : result (tensor R) :=
  if (d <? rank t)%nat then
    let n := dim (shape t) d in
    Ok (mkT (remove_at d (shape t))
            (fun idx => sum_n (fun k => elem t (insert_at d k idx)) n / INR n))
  else Raise IndexError.

(** [t.flip(d)]. *)
Definition flip {A : Type} (d : nat) (t : tensor A) : result (tensor A) :=
  if (d <? rank t)%nat then
    let n := dim (shape t) d in
    Ok (mkT (shape t)
            (fun idx => elem t (update_at d (fun i => (n - 1 - i)%nat) idx)))
  else Raise IndexError.

(** [torch.min(t)] and [torch.max(t)] over all entries; an empty tensor
    raises. *)
Definition reduce_all (op : R -> R -> R) (t : tensor R) : result R :=
  match numel (shape t) with
  | O => Raise RuntimeError
  | S n =>
      Ok (fold_n op (fun k => elem t (unravel (shape t) (S k))) n
                 (elem t (unravel (shape t) 0%nat)))
  end.

Definition min := reduce_all Rmin.
Definition max := reduce_all Rmax.

Definition size {A : Type} (t : tensor A) (d : nat) : result nat :=
  if (d <? rank t)%nat then Ok (dim (shape t) d) else Raise IndexError.

(** [np.sum(t, axis=d)] / [torch.sum(t, dim=d)]. *)
Definition sum (d : nat) (t : tensor R) : result (tensor R) :=
  if (d <? rank t)%nat then
    let n := dim (shape t) d in
    Ok (mkT (remove_at d (shape t))
            (fun idx => sum_n (fun k => elem t (insert_at d k idx)) n))
  else Raise IndexError.

(** Comparison with a Python scalar: [t < c] and [t >= c]. *)
Definition lt_scalar (t : tensor R) (c : R) : tensor bool :=
  map (fun x => if Rlt_dec x c then true else false) t.

Definition ge_scalar (t : tensor R) (c : R) : tensor bool :=
  map (fun x => if Rle_dec c x then true else false) t.

Definition logical_not (t : tensor bool) : tensor bool := map negb t.

(** [torch.where(c, a, b)], the three operands broadcast together. *)
Definition where_ {A : Type} (c : tensor bool) (a b : tensor A)
  : result (tensor A) :=
  ab <- binop (@pair A A) a b ;;
  binop (fun (k : bool) (xy : A * A) => if k then fst xy else snd xy) c ab.

(** [t.expand(sizes)] with Python sizes: -1 keeps the size of an existing
    axis, any other negative size raises. *)
Definition expand_py {A : Type} (sizes : list Z) (t : tensor A)
  : result (tensor A) :=
  if (rank t <=? length sizes)%nat then
    let lead := (length sizes - rank t)%nat in
    let old := repeat 0%nat lead ++ shape t in
    if forallb (fun kz => (0 <=? snd kz)%Z
                          || ((snd kz =? -1)%Z && (lead <=? fst kz)%nat))
               (combine (seq 0 (length sizes)) sizes)
    then expand (map2 (fun z o => if (z =? -1)%Z then o else Z.to_nat z)
                      sizes old) t
    else Raise RuntimeError
  else Raise RuntimeError.

(** [a @ b] for a of shape (Ba, n, m) and b of shape (Bb, m, p); the
    batch axis broadcasts. *)
Definition matmul3 (a b : tensor R) : result (tensor R) :=
  match shape a, shape b with
  | [ba; n; m], [bb; m'; p] =>
      if (m =? m')%nat then
        match bdim ba bb with
        | Some bt =>
            Ok (mkT [bt; n; p]
                    (fun idx =>
                       let k := nth 0 idx 0%nat in
                       let i := nth 1 idx 0%nat in
                       let j := nth 2 idx 0%nat in
                       sum_n (fun l =>
                                elem a [if (ba =? 1)%nat then 0%nat else k; i; l]
                                * elem b [if (bb =? 1)%nat then 0%nat else k; l; j])
                             m))
        | None => Raise RuntimeError
        end
      else Raise RuntimeError
  | _, _ => Raise RuntimeError
  end.

Definition ones (s : list nat) : tensor R := mkT s (fun _ => 1).

(** [torch.zeros(n, dtype=torch.long)]. *)
Definition zeros_long (s : list nat) : tensor Z := mkT s (fun _ => 0%Z).

(** [torch.arange(0, n)]. *)
Definition arange (n : nat) : tensor Z :=
  mkT [n] (fun idx => Z.of_nat (nth 0 idx 0%nat)).

(** [torch.meshgrid(a, b)] with the default 'ij' indexing. *)
Definition meshgrid {A : Type} (a b : tensor A)
  : result (tensor A * tensor A) :=
  match shape a, shape b with
  | [n], [m] =>
      Ok (mkT [n; m] (fun idx => elem a [nth 0 idx 0%nat]),
          mkT [n; m] (fun idx => elem b [nth 1 idx 0%nat]))
  | _, _ => Raise RuntimeError
  end.

Definition tanh := map Rtrigo_def.tanh.

(** [t[~mask, ...] = c]: the mask has the shape of the leading axes of
    [t]; every entry of [t] whose mask entry is false becomes [c]. *)
Definition fill_unmasked {A : Type} (t : tensor A) (mask : tensor bool)
  (c : A) : result (tensor A) :=
  if shape_eqb (firstn (rank mask) (shape t)) (shape mask) then
    Ok (mkT (shape t)
            (fun idx => if elem mask (firstn (rank mask) idx)
                        then elem t idx else c))
  else Raise IndexError.

(** [t[..., lo:hi, ...] = c] on axis [d], as a new tensor. *)
Definition slice_fill {A : Type} (d : nat) (lo hi : option Z)
  (t : tensor A) (c : A) : result (tensor A) :=
  if (d <? rank t)%nat then
    let '(start, len) := pyslice (dim (shape t) d) lo hi in
    Ok (mkT (shape t)
            (fun idx =>
               let i := nth d idx 0%nat in
               if (start <=? i)%nat && (i <? start + len)%nat
               then c else elem t idx))
  else Raise IndexError.

(** [t[ib, :, iu, iv]] for a 4-d [t] and one-dimensional integer index
    tensors broadcast to a common length N: the (N, C) tensor of
    [t[ib[n], c, iu[n], iv[n]]]. *)
Definition gather4 {A : Type} (t : tensor A) (ib iu iv : tensor Z)
  : result (tensor A) :=
  match shape t, shape ib, shape iu, shape iv with
  | [B; C; H; W], [nb], [nu], [nv] =>
      match bdim nb nu with
      | Some nbu =>
          match bdim nbu nv with
          | Some N =>
              let at_ (i : tensor Z) (len n : nat) :=
                elem i [if (len =? 1)%nat then 0%nat else n] in
              let ok (size : nat) (k : Z) :=
                match pyindex size k with Ok _ => true | Raise _ => false end in
              let wrap (size : nat) (k : Z) :=
                match pyindex size k with Ok i => i | Raise _ => 0%nat end in
              if forallb (fun n => ok B (at_ ib nb n) && ok H (at_ iu nu n)
                                   && ok W (at_ iv nv n)) (seq 0 N)
              then Ok (mkT [N; C]
                           (fun idx =>
                              let n := nth 0 idx 0%nat in
                              elem t [wrap B (at_ ib nb n); nth 1 idx 0%nat;
                                      wrap H (at_ iu nu n);
                                      wrap W (at_ iv nv n)]))
              else Raise IndexError
          | None => Raise IndexError
          end
      | None => Raise IndexError
      end
  | _, _, _, _ => Raise IndexError
  end.

(** [torch.lerp(start, end, weight)] = start + weight * (end - start). *)
Definition lerp (start end_ weight : tensor R) : result (tensor R) :=
  d <- sub end_ start ;;
  wd <- mul weight d ;;
  add start wd.

(** [torch.empty_like(t).fill_(c)]. *)
Definition full_like {A : Type} (t : tensor A) (c : R) : tensor R :=
  mkT (shape t) (fun _ => c).

(** [torch.zeros(s)]. *)
Definition zeros (s : list nat) : tensor R := mkT s (fun _ => 0).

End torch.

Module functional.

(** [functional.normalize(t, dim=d, eps=eps)]: every entry divided by the
    Euclidean norm along axis [d], the norm floored at [eps]. *)
Definition normalize (t : tensor R) (d : nat) (eps : R)
  : result (tensor R) :=
  if (d <? rank t)%nat then
    let n := dim (shape t) d in
    Ok (mkT (shape t)
            (fun idx =>
               elem t idx /
               Rmax (sqrt (sum_n (fun k => elem t (set_at d k idx) *
                                           elem t (set_at d k idx)) n))
                    eps))
  else Raise IndexError.

End functional.

(** ** The frame builder *)

(** [create_frame(n, eps)]: the orthonormal basis of Duff et al. around the
    normalised normal; [n] has shape (bn, 3, ...). *)
Definition create_frame (n : tensor R) (eps : R)
  : result (tensor R * tensor R * tensor R) :=
  z <- functional.normalize n 1 eps ;;
  z0 <- torch.select 1 0 z ;;
  z1 <- torch.select 1 1 z ;;
  z2 <- torch.select 1 2 z ;;
  let sgn := torch.map (fun v => if Rle_dec 0 v then 1 else -1) z2 in
  den <- torch.add sgn z2 ;;
  let a := torch.map (fun v => -1 / v) den in
  z01 <- torch.mul z0 z1 ;;
  b <- torch.mul z01 a ;;
  sz0 <- torch.mul sgn z0 ;;
  sz00 <- torch.mul sz0 z0 ;;
  sz00a <- torch.mul sz00 a ;;
  let x0 := torch.map (fun v => 1 + v) sz00a in
  x1 <- torch.mul sgn b ;;
  x2 <- torch.mul (torch.neg sgn) z0 ;;
  x <- torch.stack3 1 x0 x1 x2 ;;
  z11 <- torch.mul z1 z1 ;;
  z11a <- torch.mul z11 a ;;
  y1 <- torch.add sgn z11a ;;
  y <- torch.stack3 1 b y1 (torch.neg z1) ;;
  Ok (x, y, z).

(** ** NumPy operations of the constructor *)

Module np.

(** [np.linspace(a, b, num)]: a negative [num] raises ValueError; the
    last of more than one samples is [b]. *)
Definition linspace (a b : R) (num : Z) : result (tensor R) :=
  if (num <? 0)%Z then Raise ValueError
  else
    let n := Z.to_nat num in
    Ok (mkT [n]
            (fun idx =>
               let i := nth 0 idx 0%nat in
               if (1 <? n)%nat && (i =? n - 1)%nat then b
               else a + INR i * ((b - a) / INR (n - 1)))).

(** [np.meshgrid(xs, ys)] with the default 'xy' indexing: both results
    have shape (len ys, len xs). *)
Definition meshgrid (xs ys : tensor R) : result (tensor R * tensor R) :=
  match shape xs, shape ys with
  | [nx], [ny] =>
      Ok (mkT [ny; nx] (fun idx => elem xs [nth 1 idx 0%nat]),
          mkT [ny; nx] (fun idx => elem ys [nth 0 idx 0%nat]))
  | _, _ => Raise ValueError
  end.

(** [np.ones(shape)]; a negative size raises ValueError. *)
Definition ones (dims : list Z) : result (tensor R) :=
  if forallb (fun z => (0 <=? z)%Z) dims
  then Ok (torch.ones (List.map Z.to_nat dims))
  else Raise ValueError.

(** [np.array(l).reshape([1, 3, 1, 1])]. *)
Definition array_1311 (l : list R) : result (tensor R) :=
  if (length l =? 3)%nat
  then Ok (mkT [1; 3; 1; 1]%nat (fun idx => nth (nth 1 idx 0%nat) l 0))
  else Raise ValueError.

Definition with_error {A : Type} (e : exception) (m : result A)
  : result A :=
  match m with
  | Ok a => Ok a
  | Raise _ => Raise e
  end.

Definition flip (axis : nat) (t : tensor R) : result (tensor R) :=
  with_error ValueError (torch.flip axis t).

Definition stack3 (a b c : tensor R) : result (tensor R) :=
  with_error ValueError (torch.stack3 0 a b c).

Definition newaxis (d : nat) (t : tensor R) : result (tensor R) :=
  with_error IndexError (torch.unsqueeze d t).

Definition sum (axis : nat) (t : tensor R) : result (tensor R) :=
  with_error ValueError (torch.sum axis t).

Definition binop (f : R -> R -> R) (a b : tensor R) : result (tensor R) :=
  with_error ValueError (torch.binop f a b).

Definition maximum (t : tensor R) (c : R) : tensor R :=
  torch.map (fun x => Rmax x c) t.

Definition sqrt (t : tensor R) : tensor R := torch.map R_sqrt.sqrt t.

End np.

(** ** External collaborators

    The lighting model is an argument of [forward]; the BRDF kernels
    ([iid.lighting_optimization.brdf]), the screen-space tracer
    ([iid.lighting_optimization.ssrt]) and [glm.perspective] are imported
    by render.py.  None of them is defined in render.py: they are
    parameters of the model, each a function that returns or raises. *)

Record lighting_model : Type := {
  lm_spp : nat;
  (** [sample_direction(vpos=, normal=)] *)
  sample_direction : tensor R -> tensor R -> result (tensor R);
  (** [pdf_direction(vpos=, direction=)] *)
  pdf_direction : tensor R -> tensor R -> result (tensor R);
  (** [lighting_model(direction=)] *)
  lm_call : tensor R -> result (tensor R)
}.

Record brdf_module : Type := {
  (** [pdf_ggx(albedo, rough, metal, wi, wo)] *)
  pdf_ggx : tensor R -> tensor R -> tensor R -> tensor R -> tensor R
            -> result (tensor R);
  (** [eval_ggx(albedo, rough, metal, wi, wo)] *)
  eval_ggx : tensor R -> tensor R -> tensor R -> tensor R -> tensor R
             -> result (tensor R * tensor R * tensor bool);
  (** [pdf_diffuse(wi, wo)] *)
  pdf_diffuse : tensor R -> tensor R -> result (tensor R);
  (** [eval_diffuse(albedo, wi, wo)] *)
  eval_diffuse : tensor R -> tensor R -> tensor R
                 -> result (tensor R * tensor R * tensor bool);
  (** [pdf_disney(rough, metal, wi, wo)] *)
  pdf_disney : tensor R -> tensor R -> tensor R -> tensor R
               -> result (tensor R);
  (** [eval_disney(albedo, rough, metal, wi, wo)] *)
  eval_disney : tensor R -> tensor R -> tensor R -> tensor R -> tensor R
                -> result (tensor R * tensor R * tensor bool)
}.

Record tracer_module : Type := {
  (** [ssrt(depth, normal, indices, proj, X, Y, direction, depth_start)]
      returns the hit coordinates (x, y), the hit mask and the depth
      discrepancy of every ray. *)
  ssrt : tensor R -> tensor R -> tensor Z -> tensor R -> tensor Z -> tensor Z
         -> tensor R -> tensor R
         -> result (tensor Z * tensor bool * tensor R);
  (** [np.array(glm.perspective(fovy, aspect, near, far))], a (4, 4)
      tensor. *)
  perspective : R -> R -> R -> R -> result (tensor R)
}.

(** ** The render layer *)

Module IIR_SSRT_RenderLayer.

Record t : Type := {
  imHeight : Z;
  imWidth : Z;
  use_ssrt : bool;
  use_specular : bool;
  double_sided : bool;
  fov : R;
  cameraPos : tensor R;
  xRange : R;
  yRange : R;
  brdf_type : string;
  spp : Z;
  v : tensor R;
  pCoord : tensor R;
  up : tensor R
}.

(** [a / b] on Python floats. *)
Definition py_div (a b : R) : result R :=
  if Req_EM_T b 0 then Raise ZeroDivisionError else Ok (a / b).

(** [__init__], with Python's argument order and no defaults. *)
Definition __init__ (imWidth imHeight : Z) (fov : R) (cameraPos : list R)
  (brdf_type : string) (spp : Z)
  (double_sided use_ssrt use_specular : bool) : result t :=
  let fov_rad := fov / 180 * PI in
  camPos <- np.array_1311 cameraPos ;;
  let xRange := 1 * tan (fov_rad / 2) in
  ratio <- py_div (IZR imHeight) (IZR imWidth) ;;
  let yRange := ratio * xRange in
  xs <- np.linspace (- xRange) xRange imWidth ;;
  ys <- np.linspace (- yRange) yRange imHeight ;;
  '(x, y) <- np.meshgrid xs ys ;;
  y <- np.flip 0 y ;;
  ones <- np.ones [imHeight; imWidth] ;;
  let z := torch.neg ones in
  pCoord <- np.stack3 x y z ;;
  pCoord <- np.newaxis 0 pCoord ;;
  v <- np.binop Rminus camPos pCoord ;;
  vv <- np.binop Rmult v v ;;
  ss <- np.sum 1 vv ;;
  nrm <- np.newaxis 1 (np.maximum ss 1e-12) ;;
  v <- np.binop Rdiv v (np.sqrt nrm) ;;
  let up := mkT [3%nat] (fun idx => match nth 0 idx 0%nat with
                                    | 1%nat => 1
                                    | _ => 0
                                    end) in
  Ok {| imHeight := imHeight; imWidth := imWidth;
        use_ssrt := use_ssrt; use_specular := use_specular;
        double_sided := double_sided;
        fov := fov_rad; cameraPos := camPos;
        xRange := xRange; yRange := yRange;
        brdf_type := brdf_type; spp := spp;
        v := v; pCoord := pCoord; up := up |}.

(** *** forward, lines 83-85 and 110-113: the clipping window *)

Record window : Type := {
  top : Z;
  bottom : Z;
  left : Z;
  right : Z
}.

Definition clip_window (row col : nat) : window :=
  let center_x := (col / 2)%nat in
  let center_y := (row / 2)%nat in
  let radius := Nat.max center_x center_y in
  {| left := Z.max (Z.of_nat center_x - Z.of_nat radius) 0;
     right := Z.of_nat center_x + Z.of_nat radius;
     top := Z.max (Z.of_nat center_y - Z.of_nat radius) 0;
     bottom := Z.of_nat center_y + Z.of_nat radius |}.

(** [t[..., top:bottom, left:right]] with the rows on axis [dr] and the
    columns on axis [dc]. *)
Definition clip {A : Type} (w : window) (dr dc : nat) (t : tensor A)
  : result (tensor A) :=
  t' <- torch.slice dr (Some (top w)) (Some (bottom w)) t ;;
  torch.slice dc (Some (left w)) (Some (right w)) t'.

(** *** forward, lines 91-92: the local frames *)

Record frames : Type := {
  cx : tensor R; cy : tensor R; cz : tensor R;
  fx : tensor R; fy : tensor R; fz : tensor R
}.

Definition local_frames (normal : tensor R) : result frames :=
  '(cx, cy, cz) <- create_frame normal 1e-6 ;;
  c <- torch.cat3 0 cx cy cz ;;
  c <- torch.permute [1; 0; 2; 3]%nat c ;;
  '(fx, fy, fz) <- torch.split3 0 c ;;
  Ok {| cx := cx; cy := cy; cz := cz; fx := fx; fy := fy; fz := fz |}.

(** The expression of lines 96-98 and 128-130,
    [w[.., 0:1, ...] * fx + w[.., 1:2, ...] * fy + w[.., 2:3, ...] * fz],
    with the channel axis of [w] at [d]. *)
Definition frame_project (d : nat) (w fx fy fz : tensor R)
  : result (tensor R) :=
  w0 <- torch.slice d (Some 0%Z) (Some 1%Z) w ;;
  t0 <- torch.mul w0 fx ;;
  w1 <- torch.slice d (Some 1%Z) (Some 2%Z) w ;;
  t1 <- torch.mul w1 fy ;;
  s01 <- torch.add t0 t1 ;;
  w2 <- torch.slice d (Some 2%Z) (Some 3%Z) w ;;
  t2 <- torch.mul w2 fz ;;
  torch.add s01 t2.

(** *** forward, lines 94-107: the direction to the camera *)

(** Lines 99-106 on a local direction tensor whose channel axis is [d]
    (the code has [d = 1]): the double-sided fold, the grazing mask, the
    clamp of the local z and the renormalisation. *)
Record grazing : Type := {
  g_local : tensor R;    (** after the fold of line 100 *)
  g_mask : tensor R;     (** line 102 *)
  g_clamped : tensor R;  (** after the clamp of line 105 *)
  g_unit : tensor R      (** after the normalisation of line 106 *)
}.

Definition fold_mask_clamp (double_sided : bool) (d : nat) (wi : tensor R)
  : result grazing :=
  wi <- (if double_sided then
           z <- torch.select d 2 wi ;;
           torch.select_set d 2 wi (torch.abs z)
         else Ok wi) ;;
  let wi_local := wi in
  z <- torch.slice d (Some 2%Z) (Some 3%Z) wi ;;
  wi_mask <- torch.where_ (torch.lt_scalar z 1e-6)
                          (torch.zeros_like z) (torch.ones_like z) ;;
  z <- torch.select d 2 wi ;;
  wi <- torch.select_set d 2 wi (torch.clamp_min 1e-3 z) ;;
  let wi_clamped := wi in
  wi <- functional.normalize wi d 1e-6 ;;
  Ok {| g_local := wi_local; g_mask := wi_mask;
        g_clamped := wi_clamped; g_unit := wi |}.

Record view_direction : Type := {
  wi_graze : grazing;
  wi_mask : tensor R;     (** line 102 *)
  wi : tensor R           (** after line 107 *)
}.

Definition to_camera (self : t) (f : frames) : result view_direction :=
  let wi_world := v self in
  wi <- frame_project 1 wi_world (fx f) (fy f) (fz f) ;;
  g <- fold_mask_clamp (double_sided self) 1 wi ;;
  wi <- torch.unsqueeze 1 (g_unit g) ;;
  Ok {| wi_graze := g; wi_mask := g_mask g; wi := wi |}.

(** *** forward, lines 126-138: the directions to the light *)

Record light_direction : Type := {
  wo_emitter : tensor R;
  wo : tensor R;
  direction : tensor R
}.

Definition to_light (self : t) (lm : lighting_model) (f : frames)
  (normal vpos : tensor R) : result light_direction :=
  vpos1 <- torch.unsqueeze 1 vpos ;;
  normal1 <- torch.unsqueeze 1 normal ;;
  wo_emitter <- sample_direction lm vpos1 normal1 ;;
  fx1 <- torch.unsqueeze 1 (fx f) ;;
  fy1 <- torch.unsqueeze 1 (fy f) ;;
  fz1 <- torch.unsqueeze 1 (fz f) ;;
  wo <- frame_project 2 wo_emitter fx1 fy1 fz1 ;;
  wo <- (if double_sided self then
           z <- torch.select 2 2 wo ;;
           torch.select_set 2 2 wo (torch.abs z)
         else Ok wo) ;;
  direction <- torch.permute [0; 1; 3; 4; 2]%nat wo_emitter ;;
  direction <- torch.permute [1; 0; 2; 3; 4]%nat direction ;;
  direction <- torch.reshape_infer [lm_spp lm; 0; 3]%nat 1 direction ;;
  Ok {| wo_emitter := wo_emitter; wo := wo; direction := direction |}.

(** *** forward, lines 140-156: BRDF evaluation *)

Record brdf_terms : Type := {
  pdfs : tensor R;
  eval_diff : tensor R;
  eval_spec : tensor R;
  pdfs_brdf : tensor R;
  brdfDiffuse : tensor R;
  brdfSpec : tensor R
}.

Definition evaluate_brdf (brdf : brdf_module) (self : t)
  (lm : lighting_model) (albedo_clip rough_clip metal_clip wi wo : tensor R)
  (irow icol : nat) : result brdf_terms :=
  '(pdfs, eval_diff, eval_spec, mask) <-
    (if String.eqb (brdf_type self) "ggx" then
       p <- pdf_ggx brdf albedo_clip rough_clip metal_clip wi wo ;;
       pdfs <- torch.unsqueeze 2 p ;;
       '(d, s, m) <- eval_ggx brdf albedo_clip rough_clip metal_clip wi wo ;;
       Ok (pdfs, d, s, m)
     else if String.eqb (brdf_type self) "diffuse" then
       pdfs <- pdf_diffuse brdf wi wo ;;
       '(d, s, m) <- eval_diffuse brdf albedo_clip wi wo ;;
       Ok (pdfs, d, s, m)
     else
       p <- pdf_disney brdf rough_clip metal_clip wi wo ;;
       pdfs <- torch.unsqueeze 2 p ;;
       '(d, s, m) <- eval_disney brdf albedo_clip rough_clip metal_clip wi wo ;;
       Ok (pdfs, d, s, m)) ;;
  let pdfs_brdf := torch.ones_like pdfs in
  let pdfs_brdf := torch.clamp_min 0.001 pdfs_brdf in
  ed <- torch.expand [1; lm_spp lm; 3; irow; icol]%nat eval_diff ;;
  brdfDiffuse <- torch.div ed pdfs_brdf ;;
  es <- torch.expand [1; lm_spp lm; 3; irow; icol]%nat eval_spec ;;
  brdfSpec <- torch.div es pdfs_brdf ;;
  Ok {| pdfs := pdfs; eval_diff := eval_diff; eval_spec := eval_spec;
        pdfs_brdf := pdfs_brdf;
        brdfDiffuse := brdfDiffuse; brdfSpec := brdfSpec |}.

(** *** forward, lines 165-230: screen-space ray tracing *)

Record model_kwargs : Type := {
  kw_uv : tensor Z;
  kw_directions : tensor R;
  kw_positions : tensor R;
  kw_index : tensor Z;
  kw_uncertainty : tensor R;
  kw_normal : tensor R;
  kw_Kd : tensor R;
  kw_Ks : tensor R;
  kw_rough : tensor R
}.

(** Lines 203-207: the tracer's result after the miss handling. *)
Definition trace_result (ssrt_uv : tensor Z) (mask : tensor bool)
  (dz : tensor R) : result (tensor Z * tensor R) :=
  ssrt_uv <- torch.fill_unmasked ssrt_uv mask (-1)%Z ;;
  let uncertainty := torch.tanh (torch.map (fun x => 10 * x) dz) in
  ssrt_uv <- torch.flip 1 ssrt_uv ;;
  uncertainty <- torch.fill_unmasked uncertainty mask 1 ;;
  Ok (ssrt_uv, uncertainty).

Record ssrt_locals : Type := {
  ssrt_depth : tensor R;
  ssrt_proj : tensor R;
  ssrt_X : tensor Z;
  ssrt_Y : tensor Z;
  ssrt_direction : tensor R;  (** [ssrt_direction], line 168 *)
  ssrt_depth_start : tensor R;
  ssrt_uv : tensor Z;         (** the tracer's hit coordinates *)
  ssrt_mask : tensor bool;    (** the tracer's hit mask *)
  ssrt_dz : tensor R;         (** the tracer's depth discrepancy *)
  ssrt_direction_out : tensor R;  (** [direction] after line 166 *)
  ssrt_vpos : tensor R;       (** [vpos] after line 215 *)
  kwargs : model_kwargs
}.

Definition ssrt_block (tr : tracer_module) (self : t) (w : window)
  (row col irow icol : nat)
  (direction albedo rough metal normal vpos : tensor R)
  : result ssrt_locals :=
  direction <- torch.slice 0 (Some (-1)%Z) None direction ;;
  let ssrt_spp := 1%nat in
  ssrt_direction <- torch.reshape_infer [0; 3]%nat 0 direction ;;
  aspect <- py_div (IZR (imWidth self)) (IZR (imHeight self)) ;;
  q <- py_div (tan (fov self / 2)) aspect ;;
  let fovy := 2 * atan q in
  vpos0 <- torch.select 0 0 vpos ;;
  vpos0 <- torch.permute [1; 2; 0]%nat vpos0 ;;
  let depth := torch.neg vpos0 in
  depth <- torch.slice_fill 2 None (Some (-1)%Z) depth 0 ;;
  last <- torch.select 2 (-1) depth ;;
  dmin <- torch.min last ;;
  last <- torch.select 2 (-1) depth ;;
  dmax <- torch.max last ;;
  let depth := torch.map (fun x => x / dmax) depth in
  aspect <- py_div (IZR (imWidth self)) (IZR (imHeight self)) ;;
  near <- py_div dmin dmax ;;
  proj <- perspective tr fovy aspect near 1 ;;
  let depth := torch.neg depth in
  depth <- torch.reshape_infer [0; 3; 1]%nat 0 depth ;;
  pos4 <- torch.cat2 1 depth (torch.ones [(col * row)%nat; 1; 1]%nat) ;;
  proj0 <- torch.unsqueeze 0 proj ;;
  pos4 <- torch.matmul3 proj0 pos4 ;;
  pos4 <- torch.select 2 0 pos4 ;;
  xyz <- torch.slice 1 None (Some (-1)%Z) pos4 ;;
  xyz <- torch.reshape [row; col; 3%nat] xyz ;;
  let depth := torch.map (fun x => (x + 1) * 0.5) xyz in
  depth <- torch.select 2 (-1) depth ;;
  depth <- torch.unsqueeze 0 depth ;;
  depth <- torch.unsqueeze 0 depth ;;
  (* depth[torch.where(torch.isinf(depth))] = 1: no real is infinite *)
  depth_start <- torch.expand [1%nat; ssrt_spp; row; col] depth ;;
  depth_start <- clip w 2 3 depth_start ;;
  depth_start <- torch.flatten depth_start ;;
  '(Y, X) <- torch.meshgrid (torch.arange row) (torch.arange col) ;;
  Y <- clip w 0 1 Y ;;
  X <- clip w 0 1 X ;;
  Y <- torch.unsqueeze 0 Y ;;
  Y <- torch.expand [ssrt_spp; irow; icol] Y ;;
  Y <- torch.flatten Y ;;
  X <- torch.unsqueeze 0 X ;;
  X <- torch.expand [ssrt_spp; irow; icol] X ;;
  X <- torch.flatten X ;;
  N <- torch.size ssrt_direction 0 ;;
  let indices := torch.zeros_long [N] in
  '(uv0, mask, dz) <-
    ssrt tr depth normal indices proj X Y ssrt_direction depth_start ;;
  '(ssrt_uv, uncertainty) <- trace_result uv0 mask dz ;;
  vpos <- clip w 2 3 vpos ;;
  positions <- torch.unsqueeze 1 vpos ;;
  positions <- torch.expand_py [1%Z; spp self; 3%Z; Z.of_nat irow;
                                Z.of_nat icol] positions ;;
  positions <- torch.permute [0; 1; 3; 4; 2]%nat positions ;;
  positions <- torch.reshape_infer [0; 3]%nat 0 positions ;;
  u <- torch.select 1 0 ssrt_uv ;;
  v <- torch.select 1 1 ssrt_uv ;;
  normals <- torch.gather4 normal indices u v ;;
  roughs <- torch.gather4 rough indices u v ;;
  Kd <- torch.mul albedo (torch.map (fun m => 1 - m) metal) ;;
  Ks <- torch.lerp (torch.full_like albedo 0.04) albedo metal ;;
  Kd <- torch.gather4 Kd indices u v ;;
  Ks <- torch.gather4 Ks indices u v ;;
  Ok {| ssrt_depth := depth; ssrt_proj := proj;
        ssrt_X := X; ssrt_Y := Y;
        ssrt_direction := ssrt_direction;
        ssrt_depth_start := depth_start;
        ssrt_uv := uv0;
        ssrt_mask := mask;
        ssrt_dz := dz;
        ssrt_direction_out := direction;
        ssrt_vpos := vpos;
        kwargs := {| kw_uv := ssrt_uv; kw_directions := direction;
                     kw_positions := positions; kw_index := indices;
                     kw_uncertainty := uncertainty; kw_normal := normals;
                     kw_Kd := Kd; kw_Ks := Ks; kw_rough := roughs |} |}.

(** *** forward, lines 232-251: the integrator *)

Record integrals : Type := {
  light_raw : tensor R;    (** the lighting model's radiance, line 232 *)
  pdf_raw : tensor R;      (** the lighting model's density, line 234 *)
  pdf_emitter : tensor R;  (** after the clamp of line 235 *)
  ndl : tensor R;          (** line 236 *)
  light : tensor R;        (** after line 242 *)
  colorDiffuse : tensor R;
  colorSpec : tensor R;
  shading : tensor R
}.

Definition integrate (self : t) (lm : lighting_model) (irow icol : nat)
  (direction vpos wo_emitter wo brdfDiffuse brdfSpec : tensor R)
  : result integrals :=
  light_raw <- lm_call lm direction ;;
  vpos1 <- torch.unsqueeze 1 vpos ;;
  pdf_raw <- pdf_direction lm vpos1 wo_emitter ;;
  let pdf_emitter := torch.clamp_min 0.001 pdf_raw in
  z <- torch.slice 2 (Some 2%Z) None wo ;;
  let ndl := torch.clamp_min 0 z in
  light <- torch.reshape [1; lm_spp lm; irow; icol; 3]%nat light_raw ;;
  light <- torch.permute [0; 1; 4; 2; 3]%nat light ;;
  ln <- torch.mul light ndl ;;
  light <- torch.div ln pdf_emitter ;;
  bd <- torch.mul brdfDiffuse light ;;
  colorDiffuse <- torch.mean 1 bd ;;
  colorSpec <- (if use_specular self then
                  bs <- torch.mul brdfSpec light ;;
                  torch.mean 1 bs
                else Ok (torch.zeros_like colorDiffuse)) ;;
  shading <- torch.mean 1 light ;;
  Ok {| light_raw := light_raw; pdf_raw := pdf_raw;
        pdf_emitter := pdf_emitter; ndl := ndl;
        light := light; colorDiffuse := colorDiffuse;
        colorSpec := colorSpec; shading := shading |}.

(** *** forward *)

Record locals : Type := {
  l_row : nat; l_col : nat;
  l_window : window;
  l_frames : frames;
  l_view : view_direction;
  l_wi : tensor R;          (** [wi] after line 114 *)
  l_wi_mask : tensor R;     (** [wi_mask] after line 115 *)
  l_albedo_clip : tensor R;
  l_metal_clip : tensor R;
  l_rough_clip : tensor R;
  l_irow : nat; l_icol : nat;
  l_light_dir : light_direction;
  l_brdf : brdf_terms;
  l_ssrt : option ssrt_locals;
  l_integrals : integrals
}.

(** The body of [forward], keeping its local variables. *)
Definition forward_locals (brdf : brdf_module) (tr : tracer_module)
  (self : t) (lm : lighting_model)
  (albedo rough metal normal vpos : tensor R) : result locals :=
  match shape albedo with
  | [bn; _; row; col] =>
      assert (bn =? 1)%nat ;;;
      assert ((Z.of_nat row =? imHeight self)%Z
              && (Z.of_nat col =? imWidth self)%Z) ;;;
      let w := clip_window row col in
      f <- local_frames normal ;;
      vd <- to_camera self f ;;
      wi <- clip w 3 4 (wi vd) ;;
      wi_mask <- clip w 2 3 (wi_mask vd) ;;
      cx' <- clip w 2 3 (cx f) ;;
      cy' <- clip w 2 3 (cy f) ;;
      cz' <- clip w 2 3 (cz f) ;;
      albedo_clip <- clip w 2 3 albedo ;;
      metal_clip <- clip w 2 3 metal ;;
      rough_clip <- clip w 2 3 rough ;;
      irow <- torch.size wi 3 ;;
      icol <- torch.size wi 4 ;;
      ld <- to_light self lm f normal vpos ;;
      bt <- evaluate_brdf brdf self lm albedo_clip rough_clip metal_clip
                          wi (wo ld) irow icol ;;
      '(traced, direction, vpos) <-
        (if use_ssrt self then
           sl <- ssrt_block tr self w row col irow icol (direction ld)
                            albedo rough metal normal vpos ;;
           Ok (Some sl, ssrt_direction_out sl, ssrt_vpos sl)
         else Ok (None, direction ld, vpos)) ;;
      ig <- integrate self lm irow icol direction vpos (wo_emitter ld)
                      (wo ld) (brdfDiffuse bt) (brdfSpec bt) ;;
      Ok {| l_row := row; l_col := col; l_window := w;
            l_frames := {| cx := cx'; cy := cy'; cz := cz';
                           fx := fx f; fy := fy f; fz := fz f |};
            l_view := vd; l_wi := wi; l_wi_mask := wi_mask;
            l_albedo_clip := albedo_clip; l_metal_clip := metal_clip;
            l_rough_clip := rough_clip;
            l_irow := irow; l_icol := icol;
            l_light_dir := ld; l_brdf := bt; l_ssrt := traced;
            l_integrals := ig |}
  | _ => Raise ValueError
  end.

(** [forward] returns (colorDiffuse, colorSpec, wi_mask, shading). *)
Definition forward (brdf : brdf_module) (tr : tracer_module)
  (self : t) (lm : lighting_model)
  (albedo rough metal normal vpos : tensor R)
  : result (tensor R * tensor R * tensor R * tensor R) :=
  l <- forward_locals brdf tr self lm albedo rough metal normal vpos ;;
  Ok (colorDiffuse (l_integrals l), colorSpec (l_integrals l),
      l_wi_mask l, shading (l_integrals l)).

End IIR_SSRT_RenderLayer.

Import IIR_SSRT_RenderLayer.

(** ** A small scene

    A Lambertian BRDF module, a lighting model of constant radiance and
    flat geometry facing the camera: concrete collaborators on which the
    stages of [forward] are run.  The properties of [forward] below are
    proved for every lighting model, BRDF module and tracer; the instances
    here only serve to run calls. *)

(** Modelled from the spec: the BRDF kernels of
    [iid.lighting_optimization.brdf] are not among the sources, and the
    specification gives their interface only (section 4.3: a density, and
    a diffuse term, a specular term and a validity mask).  This instance
    answers the "diffuse" kind as a Lambertian surface: density
    max(wo.z, 0) / pi, diffuse term albedo / pi with a sample axis of
    size 1, no specular term; the other kinds raise. *)
Definition lambert : brdf_module :=
  let diffuse_pdf (wi wo : tensor R) : result (tensor R) :=
    z <- torch.slice 2 (Some 2%Z) (Some 3%Z) wo ;;
    Ok (torch.map (fun c => Rmax c 0 / PI) z) in
  let diffuse_eval (albedo wi wo : tensor R)
    : result (tensor R * tensor R * tensor bool) :=
    a1 <- torch.unsqueeze 1 albedo ;;
    Ok (torch.map (fun a => a / PI) a1, torch.zeros_like a1,
        torch.map (fun _ => true) a1) in
  {| pdf_ggx := fun _ _ _ _ _ => Raise (OtherError "no microfacet lobe");
     eval_ggx := fun _ _ _ _ _ => Raise (OtherError "no microfacet lobe");
     pdf_diffuse := diffuse_pdf;
     eval_diffuse := diffuse_eval;
     pdf_disney := fun _ _ _ _ => Raise (OtherError "no principled lobe");
     eval_disney := fun _ _ _ _ _ => Raise (OtherError "no principled lobe") |}.

(** The lighting model of the specification's end-to-end scenario 1:
    [S] samples per pixel of an H x W image, all in the world direction
    [d], with density 1; the radiance of every direction asked for is
    (1, 1, 1). *)
Definition constant_light (S H W : nat) (d : R * R * R) : lighting_model :=
  {| lm_spp := S;
     sample_direction := fun _ _ =>
       Ok (mkT [1; S; 3; H; W]%nat
               (fun idx => match nth 2 idx 0%nat with
                           | 0%nat => fst (fst d)
                           | 1%nat => snd (fst d)
                           | _ => snd d
                           end));
     pdf_direction := fun _ _ => Ok (mkT [1; S; 1; H; W]%nat (fun _ => 1));
     lm_call := fun direction =>
       Ok (mkT [(dim (shape direction) 0 * dim (shape direction) 1)%nat; 3%nat]
               (fun _ => 1)) |}.

(** As [constant_light], but the radiance call returns the model's own
    S * H * W cached radiances whatever directions are asked for. *)
Definition cached_light (S H W : nat) (d : R * R * R) : lighting_model :=
  {| lm_spp := S;
     sample_direction := sample_direction (constant_light S H W d);
     pdf_direction := pdf_direction (constant_light S H W d);
     lm_call := fun _ => Ok (mkT [(S * (H * W))%nat; 3%nat] (fun _ => 1)) |}.

(** Normals (0, 0, 1), positions (0, 0, -1), albedo 0.5, roughness 0.5,
    metalness 0 on an H x W image. *)
Definition normal_up (H W : nat) : tensor R :=
  mkT [1; 3; H; W]%nat
      (fun idx => match nth 1 idx 0%nat with 2%nat => 1 | _ => 0 end).

Definition vpos_flat (H W : nat) : tensor R :=
  mkT [1; 3; H; W]%nat
      (fun idx => match nth 1 idx 0%nat with 2%nat => -1 | _ => 0 end).

Definition grey (H W : nat) : tensor R := mkT [1; 3; H; W]%nat (fun _ => 0.5).

Definition rough_half (H W : nat) : tensor R :=
  mkT [1; 1; H; W]%nat (fun _ => 0.5).

Definition metal_zero (H W : nat) : tensor R :=
  mkT [1; 1; H; W]%nat (fun _ => 0).

(** Modelled from the spec: [iid.lighting_optimization.ssrt.ssrt] and
    [glm.perspective] are not among the sources; section 4.4 gives the
    tracer's interface (a hit pixel, a hit mask and a depth discrepancy
    per ray).  This instance reports a hit at pixel (0, 0) with
    discrepancy 0 for every ray, and an identity projection. *)
Definition flat_tracer : tracer_module :=
  {| ssrt := fun depth normal indices proj X Y direction depth_start =>
       let N := dim (shape direction) 0 in
       Ok (mkT [N; 2%nat] (fun _ => 0%Z), mkT [N] (fun _ => true),
           mkT [N] (fun _ => 0));
     perspective := fun fovy aspect near far =>
       Ok (mkT [4; 4]%nat
               (fun idx => if (nth 0 idx 0 =? nth 1 idx 0)%nat then 1 else 0)) |}.

(** An albedo with batch size 2. *)
Definition albedo_batch2 : tensor R := mkT [2; 3; 2; 2]%nat (fun _ => 0.5).

(** ** Vocabulary of the statements

    Vectors, frames, windows and estimates in which the properties of the
    code are stated. *)

Definition vec3 : Type := (R * R * R)%type.

Definition dot (a b : vec3) : R :=
  let '(ax, ay, az) := a in
  let '(bx, by_, bz) := b in
  ax * bx + ay * by_ + az * bz.

Definition cross (a b : vec3) : vec3 :=
  let '(ax, ay, az) := a in
  let '(bx, by_, bz) := b in
  (ay * bz - az * by_, az * bx - ax * bz, ax * by_ - ay * bx).

(** The three channels of a (bn, 3, ...) tensor at batch [b], pixel [pix]. *)
Definition vec_at (t : tensor R) (b : nat) (pix : list nat) : vec3 :=
  (elem t (b :: 0%nat :: pix), elem t (b :: 1%nat :: pix),
   elem t (b :: 2%nat :: pix)).

Definition right_handed_orthonormal (x y z : vec3) : Prop :=
  dot x x = 1 /\ dot y y = 1 /\ dot z z = 1 /\
  dot x y = 0 /\ dot x z = 0 /\ dot y z = 0 /\
  cross x y = z.

(** Componentwise distance at most [tol]. *)
Definition within (tol : R) (a b : vec3) : Prop :=
  let '(ax, ay, az) := a in
  let '(bx, by_, bz) := b in
  Rabs (ax - bx) <= tol /\ Rabs (ay - by_) <= tol /\ Rabs (az - bz) <= tol.

Definition zero_normal : tensor R := mkT [1; 3; 1; 1]%nat (fun _ => 0).

Definition pole_normal : tensor R :=
  mkT [1; 3; 1; 1]%nat
      (fun idx => match nth 1 idx 0%nat with 2%nat => -1 | _ => 0 end).

(** How many rows and columns of a [row] x [col] image the window keeps. *)
Definition kept_rows (row col : nat) : nat :=
  Nat.min (row / 2 + Nat.max (col / 2) (row / 2)) row.

Definition kept_cols (row col : nat) : nat :=
  Nat.min (col / 2 + Nat.max (col / 2) (row / 2)) col.

(** The window the specification describes: the largest axis-aligned square
    centred on the image that fits inside it. *)
Definition in_central_square (row col i j : nat) : bool :=
  let side := Nat.min row col in
  let r0 := ((row - side) / 2)%nat in
  let c0 := ((col - side) / 2)%nat in
  (r0 <=? i)%nat && (i <? r0 + side)%nat
  && (c0 <=? j)%nat && (j <? c0 + side)%nat.

Definition wide_image : tensor R :=
  mkT [1; 3; 2; 4]%nat
      (fun idx => INR (nth 2 idx 0%nat) * 4 + INR (nth 3 idx 0%nat)).

(** The parameters the specification calls invalid. *)
Definition recognized_kinds : list string := ["ggx"; "diffuse"; "disney"]%string.

Definition invalid_parameters (W H : Z) (kind : string) (n : Z) : bool :=
  (W <=? 0)%Z || (H <=? 0)%Z || (n =? 0)%Z
  || negb (existsb (String.eqb kind) recognized_kinds).

(** The uncertainty the specification describes: tanh(10 dz) clamped to
    [0, 1]. *)
Definition clamped_uncertainty (dz : R) : R :=
  Rmin (Rmax (tanh (10 * dz)) 0) 1.

(** Modelled from the spec: the tracer [iid.lighting_optimization.ssrt]
    is not among the sources.  Section 4.4 gives what it answers for N
    rays: a hit pixel (N, 2), a hit mask (N) and a depth discrepancy (N);
    a hit is reported when the marched ray falls behind the stored depth
    by more than a small tolerance, and the discrepancy is that
    difference, so it is not negative on a ray that hit. *)
Definition tracer_answer (N : nat) (uv : tensor Z) (mask : tensor bool)
  (dz : tensor R) : Prop :=
  shape uv = [N; 2%nat] /\ shape mask = [N] /\ shape dz = [N] /\
  forall n, (n < N)%nat -> elem mask [n] = true -> 0 <= elem dz [n].

(** Two rays: the first hits with discrepancy 0.1 at pixel (x, y) = (1, 0),
    the second misses. *)
Definition two_rays_uv : tensor Z :=
  mkT [2; 2]%nat (fun idx => match idx with
                             | [0%nat; 0%nat] => 1%Z
                             | _ => 0%Z
                             end).

Definition two_rays_mask : tensor bool :=
  mkT [2%nat] (fun idx => match idx with [0%nat] => true | _ => false end).

Definition two_rays_dz : tensor R :=
  mkT [2%nat] (fun idx => match idx with [0%nat] => 0.1 | _ => 0 end).

(** The frame axis whose dot product gives channel [c] of a local
    direction: tangent_x, tangent_y, normal_z. *)
Definition axis (f : frames) (c : nat) : tensor R :=
  match c with
  | 0%nat => cx f
  | 1%nat => cy f
  | _ => cz f
  end.

(** The double-sided fold of lines 100 and 132: the absolute value on the
    local z channel. *)
Definition fold_z (ds : bool) (c : nat) (x : R) : R :=
  if ds && (c =? 2)%nat then Rabs x else x.

Definition rough_batch2 : tensor R := mkT [2; 1; 5; 7]%nat (fun _ => 0.5).

(** The treatment the specification describes for the sampled directions:
    the projection of lines 128-130 followed by the fold, mask, clamp and
    renormalisation that lines 99-106 apply to the view direction. *)
Definition to_light_as_claimed (self : t) (lm : lighting_model) (f : frames)
  (normal vpos : tensor R) : result (tensor R) :=
  vpos1 <- torch.unsqueeze 1 vpos ;;
  normal1 <- torch.unsqueeze 1 normal ;;
  wo_emitter <- sample_direction lm vpos1 normal1 ;;
  fx1 <- torch.unsqueeze 1 (fx f) ;;
  fy1 <- torch.unsqueeze 1 (fy f) ;;
  fz1 <- torch.unsqueeze 1 (fz f) ;;
  wo <- frame_project 2 wo_emitter fx1 fy1 fz1 ;;
  g <- fold_mask_clamp (double_sided self) 2 wo ;;
  Ok (g_unit g).

(** The world direction of sample [s] at pixel (i, j). *)
Definition sample_at (wo_emitter : tensor R) (s i j : nat) : vec3 :=
  (elem wo_emitter [0; s; 0; i; j]%nat, elem wo_emitter [0; s; 1; i; j]%nat,
   elem wo_emitter [0; s; 2; i; j]%nat).

(** Radiance of sample [s], channel [c], pixel (i, j): the entry of the
    lighting model's output that line 239 views as (1, spp, irow, icol, 3). *)
Definition radiance (light_raw : tensor R) (S irow icol : nat)
  (s c i j : nat) : R :=
  elem light_raw
       (unravel (shape light_raw)
                (ravel [1; S; irow; icol; 3]%nat [0; s; i; j; c]%nat)).

(** The Monte-Carlo estimate the specification describes, for one output
    entry: the mean over the samples of
    brdf * (light * max(wo.z, 0) / max(pdf, 0.001)) / brdf_density. *)
Definition estimate (brdf_term density light_raw wo pdf_raw : tensor R)
  (S irow icol : nat) (c i j : nat) : R :=
  sum_n (fun s =>
           elem brdf_term (bidx (shape brdf_term) [0; s; c; i; j]%nat)
           * (radiance light_raw S irow icol s c i j
              * Rmax (elem wo [0; s; 2; i; j]%nat) 0
              / Rmax (elem pdf_raw [0; s; 0; i; j]%nat) 0.001)
           / elem density (bidx (shape density) [0; s; c; i; j]%nat))
        S
  / INR S.

(** ** The collaborators' side of a call

    What [forward] asks of the lighting model and of the BRDF kernels, and
    what they answer.  The properties of [forward] are stated on these
    calls and on the tensors [forward] is given and returns. *)

(** Line 127: [lighting_model.sample_direction(vpos=vpos.unsqueeze(1),
    normal=normal.unsqueeze(1))]. *)
Definition sample_call (lm : lighting_model) (vpos normal : tensor R)
  : result (tensor R) :=
  vpos1 <- torch.unsqueeze 1 vpos ;;
  normal1 <- torch.unsqueeze 1 normal ;;
  sample_direction lm vpos1 normal1.

(** Line 234: [lighting_model.pdf_direction(vpos=vpos.unsqueeze(1),
    direction=wo_emitter)]. *)
Definition density_call (lm : lighting_model) (vpos wo_emitter : tensor R)
  : result (tensor R) :=
  vpos1 <- torch.unsqueeze 1 vpos ;;
  pdf_direction lm vpos1 wo_emitter.

(** Lines 141-149: the evaluation kernel the BRDF kind selects. *)
Definition kernel_eval (brdf : brdf_module) (kind : string)
  (albedo rough metal wi wo : tensor R)
  : result (tensor R * tensor R * tensor bool) :=
  if String.eqb kind "ggx" then eval_ggx brdf albedo rough metal wi wo
  else if String.eqb kind "diffuse" then eval_diffuse brdf albedo wi wo
  else eval_disney brdf albedo rough metal wi wo.

(** Lines 141-149: the density kernel the BRDF kind selects, in the
    layout [forward] brings it to. *)
Definition kernel_pdf (brdf : brdf_module) (kind : string)
  (albedo rough metal wi wo : tensor R) : result (tensor R) :=
  if String.eqb kind "ggx" then
    p <- pdf_ggx brdf albedo rough metal wi wo ;; torch.unsqueeze 2 p
  else if String.eqb kind "diffuse" then pdf_diffuse brdf wi wo
  else p <- pdf_disney brdf rough metal wi wo ;; torch.unsqueeze 2 p.

(** The tensors of one call: the frame of the normals, the arguments
    the collaborators are called with and their answers. *)
Record answers : Type := {
  a_x : tensor R; a_y : tensor R; a_z : tensor R;  (** [create_frame(normal)] *)
  a_woe : tensor R;      (** the sampled world directions *)
  a_albedo : tensor R;   (** the arguments of the BRDF kernels *)
  a_rough : tensor R;
  a_metal : tensor R;
  a_wi : tensor R;
  a_wo : tensor R;
  a_diff : tensor R;     (** the kernels' answers *)
  a_spec : tensor R;
  a_valid : tensor bool;
  a_pdf : tensor R;
  a_irow : nat;          (** [wi.size(3)], [wi.size(4)] *)
  a_icol : nat;
  a_dir : tensor R;      (** the directions whose radiance is asked *)
  a_vpos : tensor R;     (** the positions whose density is asked *)
  a_light : tensor R;    (** the radiance answered *)
  a_density : tensor R   (** the density answered *)
}.

(** The calls a [forward] call makes, in the order it makes them.  The
    positions of the density call are the clipped ones when tracing is
    enabled (line 215 rebinds [vpos]). *)
Definition answered (brdf : brdf_module) (self : t) (lm : lighting_model)
  (albedo rough metal normal vpos : tensor R) (A : answers) : Prop :=
  create_frame normal 1e-6 = Ok (a_x A, a_y A, a_z A) /\
  sample_call lm vpos normal = Ok (a_woe A) /\
  torch.size (a_wi A) 3 = Ok (a_irow A) /\
  torch.size (a_wi A) 4 = Ok (a_icol A) /\
  kernel_pdf brdf (brdf_type self) (a_albedo A) (a_rough A) (a_metal A)
             (a_wi A) (a_wo A) = Ok (a_pdf A) /\
  kernel_eval brdf (brdf_type self) (a_albedo A) (a_rough A) (a_metal A)
              (a_wi A) (a_wo A) = Ok (a_diff A, a_spec A, a_valid A) /\
  (if use_ssrt self
   then clip (clip_window (dim (shape albedo) 2) (dim (shape albedo) 3)) 2 3
             vpos
   else Ok vpos) = Ok (a_vpos A) /\
  lm_call lm (a_dir A) = Ok (a_light A) /\
  density_call lm (a_vpos A) (a_woe A) = Ok (a_density A).

(** Two tensors of the same shape and entries. *)
Definition same_grid {A : Type} (t u : tensor A) : Prop :=
  shape t = shape u /\ forall idx, elem t idx = elem u idx.

(** Component [c] at pixel (i, j) of the world direction [d] in the frame
    (x, y, z) of that pixel: the dot product with tangent_x, tangent_y or
    normal_z, and on the z component its absolute value when the layer is
    double-sided. *)
Definition local_component (ds : bool) (d : vec3) (x y z : tensor R)
  (c i j : nat) : R :=
  fold_z ds c (dot d (vec_at (match c with
                              | 0%nat => x
                              | 1%nat => y
                              | _ => z
                              end) 0 [i; j]%nat)).

(** The view direction of pixel (i, j) after lines 96-105: projected on
    the frame, folded, and with its z raised to the floor 1e-3. *)
Definition clamped_view (self : t) (x y z : tensor R) (c i j : nat) : R :=
  let local := local_component (double_sided self)
                 (vec_at (v self) 0 [i; j]%nat) x y z in
  if (c =? 2)%nat then Rmax (local 2%nat i j) 1e-3 else local c i j.

(** The local directions to the light handed to the BRDF kernels: each
    sampled world direction projected on the frame of its pixel, folded
    on z when the layer is double-sided, and nothing more. *)
Definition sampled_locally (self : t) (A : answers) (S H W : nat) : Prop :=
  shape (a_wo A) = [1; S; 3; H; W]%nat /\
  forall s c i j, (s < S)%nat -> (c < 3)%nat -> (i < H)%nat -> (j < W)%nat ->
    elem (a_wo A) [0; s; c; i; j]%nat
    = local_component (double_sided self) (sample_at (a_woe A) s i j)
                      (a_x A) (a_y A) (a_z A) c i j.

(** The directions whose radiance is asked: every sampled direction of
    every pixel, sample by sample and in row-major pixel order, or, with
    tracing enabled, only the last sample of every pixel. *)
Definition asked_directions (self : t) (A : answers) (S H W : nat) : Prop :=
  let first := if use_ssrt self then (S - 1)%nat else 0%nat in
  let count := if use_ssrt self then 1%nat else S in
  shape (a_dir A) = [count; (H * W)%nat; 3%nat] /\
  forall s n c, (s < count)%nat -> (n < H * W)%nat -> (c < 3)%nat ->
    elem (a_dir A) [s; n; c]
    = elem (a_woe A) [0%nat; (first + s)%nat; c; (n / W)%nat; n mod W].

(** The kernels read the materials of the image: the clipped grids hold
    the entries of the inputs at the same indices. *)
Definition materials_read (albedo rough metal : tensor R) (A : answers)
  : Prop :=
  (forall idx, elem (a_albedo A) idx = elem albedo idx) /\
  (forall idx, elem (a_rough A) idx = elem rough idx) /\
  (forall idx, elem (a_metal A) idx = elem metal idx).

(** ** Positions from a depth map *)

Module math.

(** [math.radians(x)]. *)
Definition radians (x : R) : R := x * (PI / 180).

End math.

(** [depth_to_vpos(depth, fov, permute, normalize)], lines 274-291: the
    camera-space position of every pixel of a (row, col) depth map, for a
    horizontal field of view of [fov] degrees. *)
Definition depth_to_vpos (depth : tensor R) (fov : R)
  (permute normalize : bool) : result (tensor R) :=
  match shape depth with
  | [row; col] =>
      let fovx := math.radians fov in
      ratio <- py_div (INR col) (INR row) ;;
      q <- py_div (tan (fovx / 2)) ratio ;;
      let fovy := 2 * atan q in
      let vpos := torch.zeros [row; col; 3%nat] in
      depth <- (if normalize then
                  dmax <- torch.max depth ;;
                  Ok (torch.map (fun x => x / dmax) depth)
                else Ok depth) ;;
      let Y := torch.map (fun k => 1 - (IZR k + 0.5) / INR row)
                         (torch.arange row) in
      let Y := torch.map (fun y => y * 2 - 1) Y in
      let X := torch.map (fun k => (IZR k + 0.5) / INR col)
                         (torch.arange col) in
      let X := torch.map (fun x => x * 2 - 1) X in
      '(Y, X) <- torch.meshgrid Y X ;;
      dX <- torch.mul depth X ;;
      vpos <- torch.select_set 2 0 vpos
                (torch.map (fun x => x * tan (fovx / 2)) dX) ;;
      dY <- torch.mul depth Y ;;
      vpos <- torch.select_set 2 1 vpos
                (torch.map (fun x => x * tan (fovy / 2)) dY) ;;
      vpos <- torch.select_set 2 2 vpos (torch.neg depth) ;;
      if permute then torch.permute [2; 0; 1]%nat vpos else Ok vpos
  | _ => Raise ValueError
  end.

(** A 2 x 3 depth map with depths 1 + i + j. *)
Definition depth_ramp : tensor R :=
  mkT [2; 3]%nat
      (fun idx => 1 + INR (nth 0 idx 0%nat) + INR (nth 1 idx 0%nat)).

(** The contribution of sample [s] to channel [c] of pixel (i, j), line
    242: light * max(wo.z, 0) / max(pdf, 0.001). *)
Definition contribution (light_raw wo pdf_raw : tensor R)
  (S irow icol : nat) (s c i j : nat) : R :=
  radiance light_raw S irow icol s c i j
  * Rmax (elem wo [0; s; 2; i; j]%nat) 0
  / Rmax (elem pdf_raw [0; s; 0; i; j]%nat) 0.001.

(** The layer with another sample count [self.spp]. *)
Definition with_spp (n : Z) (self : t) : t :=
  {| imHeight := imHeight self; imWidth := imWidth self;
     use_ssrt := use_ssrt self; use_specular := use_specular self;
     double_sided := double_sided self;
     fov := fov self; cameraPos := cameraPos self;
     xRange := xRange self; yRange := yRange self;
     brdf_type := brdf_type self; spp := n;
     v := v self; pCoord := pCoord self; up := up self |}.

(** A tracer for which every ray misses (the coordinates it reports are
    overwritten by the post-processing), with an identity projection. *)
Definition miss_tracer : tracer_module :=
  {| ssrt := fun depth normal indices proj X Y direction depth_start =>
       let N := dim (shape direction) 0 in
       Ok (mkT [N; 2%nat] (fun _ => 5%Z), mkT [N] (fun _ => false),
           mkT [N] (fun _ => 0.5));
     perspective := perspective flat_tracer |}.

(** ** The dataset module, [iid/material_diffusion/data.py] *)

(** Running a fallible function over a list, stopping at the first
    exception. *)
Fixpoint mapM {A B : Type} (f : A -> result B) (l : list A)
  : result (list B) :=
  match l with
  | [] => Ok []
  | a :: l' => b <- f a ;; bs <- mapM f l' ;; Ok (b :: bs)
  end.

(** [l[i]] on a Python list, for a non-negative [i]. *)
Definition getitem {A : Type} (l : list A) (i : nat) : result A :=
  match nth_error l i with
  | Some x => Ok x
  | None => Raise IndexError
  end.

Module SubsetSequentialSampler.

Record t (A : Type) : Type := { indices : list A }.

Arguments indices {A} _.

Definition __init__ {A : Type} (indices : list A) : t A :=
  {| indices := indices |}.

(** [__iter__], consumed to the end: the values the generator
    [(self.indices[i] for i in range(len(self.indices)))] yields. *)
Definition __iter__ {A : Type} (self : t A) : result (list A) :=
  mapM (getitem (indices self)) (seq 0 (length (indices self))).

Definition __len__ {A : Type} (self : t A) : nat :=
  length (indices self).

End SubsetSequentialSampler.

(** *** Python strings

    A string is a sequence of characters with code points below 256;
    the operations are those [load_dataset] uses. *)

Module str.

(** [c.isspace()] on the code points below 256: tab to carriage return,
    the four separators 28-31, the space, NEL (133) and the no-break space
    (160). *)
Definition isspace (c : ascii) : bool :=
  let n := nat_of_ascii c in
  ((9 <=? n) && (n <=? 13) || (28 <=? n) && (n <=? 32)
   || (n =? 133) || (n =? 160))%nat.

Fixpoint lstrip (s : string) : string :=
  match s with
  | EmptyString => EmptyString
  | String c s' => if isspace c then lstrip s' else s
  end.

Fixpoint rstrip (s : string) : string :=
  match s with
  | EmptyString => EmptyString
  | String c s' =>
      match rstrip s' with
      | EmptyString => if isspace c then EmptyString else String c EmptyString
      | r => String c r
      end
  end.

(** [s.strip()]. *)
Definition strip (s : string) : string := rstrip (lstrip s).

(** [s.split()]: the maximal runs of characters that are not spaces. *)
Fixpoint split (s : string) : list string :=
  match s with
  | EmptyString => []
  | String c s' =>
      if isspace c then split s'
      else match s' with
           | EmptyString => [String c EmptyString]
           | String c' _ =>
               if isspace c' then String c EmptyString :: split s'
               else match split s' with
                    | t :: r => String c t :: r
                    | [] => [String c EmptyString]
                    end
           end
  end.

(** [s.split(sep)] for a separator of one character: never empty. *)
Fixpoint split_sep (sep : ascii) (s : string) : list string :=
  match s with
  | EmptyString => [EmptyString]
  | String c s' =>
      if Ascii.eqb c sep then EmptyString :: split_sep sep s'
      else match split_sep sep s' with
           | t :: r => String c t :: r
           | [] => [String c EmptyString]
           end
  end.

(** [sep.join(parts)]. *)
Definition join (sep : string) (parts : list string) : string :=
  String.concat sep parts.

Definition startswith (c : ascii) (s : string) : bool :=
  match s with
  | String c' _ => Ascii.eqb c' c
  | EmptyString => false
  end.

Fixpoint endswith (c : ascii) (s : string) : bool :=
  match s with
  | EmptyString => false
  | String c' EmptyString => Ascii.eqb c' c
  | String _ s' => endswith c s'
  end.

End str.

Module os_path.

(** [os.path.join(a, b)] on POSIX. *)
Definition join (a b : string) : string :=
  if str.startswith "/" b then b
  else if (String.eqb a "" || str.endswith "/" a)%bool then String.append a b
  else String.append a (String "/" b).

End os_path.

Module InteriorVerseDataset.

(** What lines 28-42 of [load_dataset] compute from a line of the split
    file. *)
Record sample_key : Type := {
  scene_folder : string;
  view_id : string;
  sample_id : string
}.

Definition is_test (stage_name : string) : bool :=
  (String.eqb stage_name "Test" || String.eqb stage_name "Validation")%bool.

(** Lines 23-42: the sample a line names; [None] when the line is
    skipped (line 26, [continue]).  [paths[0]] and [parts[-1]] cannot
    raise: a stripped line that is not empty has a first token, and
    [split('/')] never returns the empty list; the defaults of [hd] and
    [last] are never used. *)
Definition sample_of_line (stage_name : string) (line : string)
  : option sample_key :=
  let line := str.strip line in
  if String.eqb line "" then None
  else
    let paths := str.split line in
    let first_path := hd EmptyString paths in
    let parts := str.split_sep "/" first_path in
    let filename := last parts EmptyString in
    let view_id :=
      hd EmptyString
         (str.split_sep (if is_test stage_name then "." else "_")%char
                        filename) in
    let scene_folder := str.join "/" (removelast parts) in
    Some {| scene_folder := scene_folder; view_id := view_id;
            sample_id := os_path.join scene_folder view_id |}.

(** Lines 47-65, the loop over [features_to_include] for one new sample:
    the assignments [data['samples'][sample_id][feature] = feature_path]
    in the order they are made.  [bound] is the value of the local variable
    [feature_filename] on entry, [None] while it is unbound; the second
    result is its value on exit. *)
Fixpoint feature_paths (stage_name : string) (scene_folder view_id : string)
  (features : list string) (bound : option string)
  : result (list (string * string) * option string) :=
  match features with
  | [] => Ok ([], bound)
  | feature :: rest =>
      if is_test stage_name then
        if String.eqb feature "mask" then
          feature_paths stage_name scene_folder view_id rest bound
        else
          let bound :=
            if String.eqb feature "im"
            then Some (String.append view_id ".png")
            else if String.eqb feature "albedo"
                 then Some (String.append view_id ".exr")
                 else bound in
          match bound with
          | None => Raise (OtherError "UnboundLocalError")
          | Some feature_filename =>
              let feature_path := os_path.join scene_folder feature_filename in
              '(more, final) <- feature_paths stage_name scene_folder view_id
                                              rest bound ;;
              Ok ((feature, feature_path) :: more, final)
          end
      else
        let feature_filename :=
          if String.eqb feature "mask"
          then String.append view_id
                 (String.append "_" (String.append feature ".png"))
          else String.append view_id
                 (String.append "_" (String.append feature ".exr")) in
        let feature_path := os_path.join scene_folder feature_filename in
        '(more, final) <- feature_paths stage_name scene_folder view_id
                                        rest (Some feature_filename) ;;
        Ok ((feature, feature_path) :: more, final)
  end.

End InteriorVerseDataset.

(** Every character of [s] satisfies [p]. *)
Fixpoint string_forall (p : ascii -> bool) (s : string) : bool :=
  match s with
  | EmptyString => true
  | String c s' => p c && string_forall p s'
  end.

(** [s] has no space, and [s] has no character [c]. *)
Definition no_space (s : string) : bool :=
  string_forall (fun c => negb (str.isspace c)) s.

Definition free_of (c : ascii) (s : string) : bool :=
  string_forall (fun c' => negb (Ascii.eqb c' c)) s.

(** [s] is empty or starts with a space: what may follow the first path
    of a line. *)
Definition ends_token (s : string) : bool :=
  match s with
  | EmptyString => true
  | String c _ => str.isspace c
  end.

(** * Properties *)

(** ** Shapes, indices and broadcasting *)

Lemma bdim_refl n : bdim n n = Some n.
Proof. unfold bdim. now rewrite Nat.eqb_refl. Qed.

Lemma bdim_1_l n : bdim 1 n = Some n.
Proof.
  unfold bdim. destruct (Nat.eqb_spec 1 n) as [<-|]; reflexivity.
Qed.

Lemma bdim_1_r n : bdim n 1 = Some n.
Proof.
  unfold bdim. destruct (Nat.eqb_spec n 1) as [->|]; [reflexivity|].
  destruct (Nat.eqb_spec n 1); [contradiction | reflexivity].
Qed.

Lemma bshape_rev_refl s : bshape_rev s s = Some s.
Proof.
  induction s as [|n s IH]; cbn; [reflexivity|].
  now rewrite bdim_refl, IH.
Qed.

Lemma broadcast_shapes_refl s : broadcast_shapes s s = Some s.
Proof.
  unfold broadcast_shapes. rewrite bshape_rev_refl. cbn.
  now rewrite rev_involutive.
Qed.

Lemma shape_eqb_eq a : forall b, shape_eqb a b = true <-> a = b.
Proof.
  induction a as [|x a IH]; intros [|y b]; cbn; split; try easy.
  - intros H. apply andb_true_iff in H as [H1 H2].
    apply Nat.eqb_eq in H1. apply IH in H2. congruence.
  - intros [= -> ->]. rewrite Nat.eqb_refl. now apply IH.
Qed.

Lemma shape_eqb_refl a : shape_eqb a a = true.
Proof. now apply shape_eqb_eq. Qed.

Lemma in_range_length s : forall idx, in_range s idx -> length idx = length s.
Proof.
  induction s as [|n s IH]; intros [|i idx] H; cbn in *; try tauto.
  f_equal. apply IH. tauto.
Qed.

Lemma bsel_lt n i : (i < n)%nat -> (if (n =? 1)%nat then 0%nat else i) = i.
Proof. intros H. destruct (Nat.eqb_spec n 1); lia. Qed.

Lemma bidx_in_range s : forall idx, in_range s idx -> bidx s idx = idx.
Proof.
  intros idx H. unfold bidx.
  rewrite (in_range_length _ _ H), Nat.sub_diag. cbn.
  revert idx H.
  induction s as [|n s IH]; intros [|i idx] H; cbn in *; try tauto.
  destruct H as [Hi H]. now rewrite (IH _ H), bsel_lt.
Qed.

(** ** What an operation that returned has computed *)

Lemma binop_ok {A B C : Type} (f : A -> B -> C) a b t :
  torch.binop f a b = Ok t ->
  broadcast_shapes (shape a) (shape b) = Some (shape t) /\
  forall idx, elem t idx = f (elem a (bidx (shape a) idx))
                             (elem b (bidx (shape b) idx)).
Proof.
  unfold torch.binop. destruct (broadcast_shapes _ _); [|discriminate].
  intros [= <-]. split; reflexivity.
Qed.

Lemma pyindex_ok n k i :
  pyindex n k = Ok i ->
  (i < n)%nat /\
  ((0 <= k)%Z /\ i = Z.to_nat k \/ (k < 0)%Z /\ i = Z.to_nat (k + Z.of_nat n)).
Proof.
  unfold pyindex.
  destruct (Z.leb_spec 0 k), (Z.ltb_spec k (Z.of_nat n)); cbn;
    try discriminate.
  - intros [= <-]. split; [lia | left; lia].
  - destruct (Z.ltb_spec k 0); cbn; [lia | discriminate].
  - destruct (Z.ltb_spec k 0), (Z.leb_spec (- Z.of_nat n) k); cbn;
      try discriminate.
    intros [= <-]. split; [lia | right; lia].
  - destruct (Z.ltb_spec k 0), (Z.leb_spec (- Z.of_nat n) k); cbn;
      try discriminate.
    intros [= <-]. split; [lia | right; lia].
Qed.

Lemma select_ok {A : Type} d k (t u : tensor A) :
  torch.select d k t = Ok u ->
  exists i, pyindex (dim (shape t) d) k = Ok i /\
            shape u = remove_at d (shape t) /\
            forall idx, elem u idx = elem t (insert_at d i idx).
Proof.
  unfold torch.select. destruct (d <? rank t)%nat; [|discriminate].
  destruct (pyindex _ _) as [i|] eqn:E; cbn; [|discriminate].
  intros [= <-]. exists i. auto.
Qed.

Lemma select_set_ok {A : Type} d k (t u r : tensor A) :
  torch.select_set d k t u = Ok r ->
  exists i, pyindex (dim (shape t) d) k = Ok i /\
            shape r = shape t /\
            forall idx, elem r idx =
                        if (nth d idx 0 =? i)%nat
                        then elem u (bidx (shape u) (remove_at d idx))
                        else elem t idx.
Proof.
  unfold torch.select_set. destruct (d <? rank t)%nat; [|discriminate].
  destruct (pyindex _ _) as [i|] eqn:E; cbn; [|discriminate].
  destruct (broadcast_shapes _ _); [|discriminate].
  destruct (shape_eqb _ _); [|discriminate].
  intros [= <-]. exists i. auto.
Qed.

Lemma slice_ok {A : Type} d lo hi (t u : tensor A) :
  torch.slice d lo hi t = Ok u ->
  (d < rank t)%nat /\
  shape u = set_at d (snd (pyslice (dim (shape t) d) lo hi)) (shape t) /\
  forall idx,
    elem u idx =
    elem t (update_at d (fun i => (fst (pyslice (dim (shape t) d) lo hi) + i)%nat)
                      idx).
Proof.
  unfold torch.slice. destruct (Nat.ltb_spec d (rank t)); [|discriminate].
  destruct (pyslice _ _ _) as [start len]. intros [= <-]. auto.
Qed.

Lemma fill_unmasked_ok {A : Type} (t : tensor A) mask c r :
  torch.fill_unmasked t mask c = Ok r ->
  firstn (rank mask) (shape t) = shape mask /\
  shape r = shape t /\
  forall idx, elem r idx = if elem mask (firstn (rank mask) idx)
                           then elem t idx else c.
Proof.
  unfold torch.fill_unmasked.
  destruct (shape_eqb _ _) eqn:E; [|discriminate].
  apply shape_eqb_eq in E. intros [= <-]. auto.
Qed.

Lemma flip_ok {A : Type} d (t r : tensor A) :
  torch.flip d t = Ok r ->
  (d < rank t)%nat /\ shape r = shape t /\
  forall idx, elem r idx =
              elem t (update_at d (fun i => (dim (shape t) d - 1 - i)%nat) idx).
Proof.
  unfold torch.flip. destruct (Nat.ltb_spec d (rank t)); [|discriminate].
  intros [= <-]. auto.
Qed.

Lemma normalize_ok t d eps u :
  functional.normalize t d eps = Ok u ->
  (d < rank t)%nat /\ shape u = shape t /\
  forall idx,
    elem u idx =
    elem t idx /
    Rmax (sqrt (sum_n (fun k => elem t (set_at d k idx) * elem t (set_at d k idx))
                      (dim (shape t) d)))
         eps.
Proof.
  unfold functional.normalize.
  destruct (Nat.ltb_spec d (rank t)); [|discriminate].
  intros [= <-]. auto.
Qed.

Lemma bind_ok {A B : Type} (m : result A) (k : A -> result B) r :
  bind m k = Ok r -> exists x, m = Ok x /\ k x = Ok r.
Proof. destruct m as [x|]; cbn; [eauto | discriminate]. Qed.

(** Peel one [bind] off a hypothesis [m >>= k = Ok r]. *)
Tactic Notation "step" hyp(H) ident(x) ident(E) :=
  apply bind_ok in H as (x & E & H); cbn beta in H.

(** ** Hyperbolic tangent *)

Lemma cosh_pos x : 0 < cosh x.
Proof.
  unfold cosh. pose proof (exp_pos x). pose proof (exp_pos (- x)). lra.
Qed.

Lemma tanh_lt_0 x : x < 0 -> tanh x < 0.
Proof.
  intros H. unfold tanh, Rdiv.
  assert (Hs : sinh x < 0).
  { unfold sinh. assert (exp x < exp (- x)) by (apply exp_increasing; lra). lra. }
  pose proof (Rinv_0_lt_compat _ (cosh_pos x)). nra.
Qed.

Lemma tanh_ge_0 x : 0 <= x -> 0 <= tanh x.
Proof.
  intros H. unfold tanh, Rdiv.
  assert (Hs : 0 <= sinh x).
  { unfold sinh. destruct H as [H| <-].
    - assert (exp (- x) < exp x) by (apply exp_increasing; lra). lra.
    - rewrite Ropp_0. lra. }
  pose proof (Rinv_0_lt_compat _ (cosh_pos x)). nra.
Qed.

Lemma tanh_bounds x : -1 < tanh x < 1.
Proof.
  unfold tanh.
  pose proof (cosh_pos x) as Hc.
  assert (Hs : - cosh x < sinh x < cosh x).
  { unfold sinh, cosh. pose proof (exp_pos x). pose proof (exp_pos (- x)).
    lra. }
  assert (E : sinh x / cosh x * cosh x = sinh x) by (field; lra).
  split; apply Rmult_lt_reg_r with (cosh x); lra.
Qed.

Lemma expand_ok {A : Type} s (t u : tensor A) :
  torch.expand s t = Ok u ->
  broadcast_shapes (shape t) s = Some s /\ shape u = s /\
  forall idx, elem u idx = elem t (bidx (shape t) idx).
Proof.
  unfold torch.expand. destruct (rank t <=? length s)%nat; [|discriminate].
  destruct (broadcast_shapes _ _) as [s'|] eqn:E; [|discriminate].
  destruct (shape_eqb s' s) eqn:E'; [|discriminate].
  apply shape_eqb_eq in E'. subst s'. intros [= <-]. auto.
Qed.

Lemma reshape_ok {A : Type} s (t u : tensor A) :
  torch.reshape s t = Ok u ->
  numel s = numel (shape t) /\ shape u = s /\
  forall idx, elem u idx = elem t (unravel (shape t) (ravel s idx)).
Proof.
  unfold torch.reshape. destruct (Nat.eqb_spec (numel s) (numel (shape t)));
    [|discriminate].
  intros [= <-]. auto.
Qed.

Lemma permute_ok {A : Type} p (t u : tensor A) :
  torch.permute p t = Ok u ->
  length p = rank t /\ shape u = List.map (dim (shape t)) p /\
  forall idx,
    elem u idx =
    elem t (List.map (fun m => nth (torch.index_of m p) idx 0%nat)
                     (seq 0 (length p))).
Proof.
  unfold torch.permute. destruct (Nat.eqb_spec (length p) (rank t));
    [|discriminate].
  destruct (torch.is_perm p); [|discriminate].
  intros [= <-]. auto.
Qed.

Lemma unsqueeze_ok {A : Type} d (t u : tensor A) :
  torch.unsqueeze d t = Ok u ->
  (d <= rank t)%nat /\ shape u = insert_at d 1%nat (shape t) /\
  forall idx, elem u idx = elem t (remove_at d idx).
Proof.
  unfold torch.unsqueeze. destruct (Nat.leb_spec d (rank t)); [|discriminate].
  intros [= <-]. auto.
Qed.

Lemma mean_ok d (t u : tensor R) :
  torch.mean d t = Ok u ->
  (d < rank t)%nat /\ shape u = remove_at d (shape t) /\
  forall idx,
    elem u idx =
    sum_n (fun k => elem t (insert_at d k idx)) (dim (shape t) d)
    / INR (dim (shape t) d).
Proof.
  unfold torch.mean. destruct (Nat.ltb_spec d (rank t)); [|discriminate].
  intros [= <-]. auto.
Qed.

Lemma sum_n_ext f g n :
  (forall k, (k < n)%nat -> f k = g k) -> sum_n f n = sum_n g n.
Proof.
  induction n as [|n IH]; intros H; cbn; [reflexivity|].
  rewrite IH by (intros; apply H; lia). now rewrite H by lia.
Qed.

Lemma Rmax_1_milli : Rmax 1 0.001 = 1.
Proof. unfold Rmax. destruct (Rle_dec 1 0.001); lra. Qed.

(** Evaluate [broadcast_shapes] in a hypothesis. *)
Ltac bcast_in H :=
  unfold broadcast_shapes in H; cbn [rev app] in H; unfold bshape_rev in H;
  rewrite ?bdim_refl, ?bdim_1_l, ?bdim_1_r in H;
  cbn [rev app option_map] in H.

(** Evaluate [broadcast_shapes] in the goal. *)
Ltac bcast :=
  unfold broadcast_shapes; cbn [rev app]; unfold bshape_rev;
  rewrite ?bdim_refl, ?bdim_1_l, ?bdim_1_r;
  cbn [rev app option_map].

(** ** Slices stay inside the tensor *)

Lemma slice_bound_le n b : (slice_bound n b <= n)%nat.
Proof. unfold slice_bound. destruct (Z.ltb_spec b 0); lia. Qed.

Lemma pyslice_inside n lo hi :
  snd (pyslice n lo hi) = 0%nat \/
  (fst (pyslice n lo hi) + snd (pyslice n lo hi) <= n)%nat.
Proof.
  unfold pyslice. cbn [fst snd].
  assert (Hhi : (match hi with Some b => slice_bound n b | None => n end <= n)%nat).
  { destruct hi; [apply slice_bound_le | lia]. }
  lia.
Qed.

Lemma in_range_update s :
  forall d idx len st,
    in_range (set_at d len s) idx ->
    len = 0%nat \/ (st + len <= dim s d)%nat ->
    in_range s (update_at d (fun i => (st + i)%nat) idx).
Proof.
  unfold set_at, dim.
  induction s as [|n s IH]; intros d idx len st H Hb.
  - destruct d, idx; cbn in *; tauto.
  - destruct d as [|d], idx as [|i idx]; cbn in *; try tauto.
    + destruct H as [Hi H]. split; [lia | assumption].
    + destruct H as [Hi H]. split; [assumption|]. now apply IH with len.
Qed.

Lemma slice_in_range {A : Type} d lo hi (t u : tensor A) idx :
  torch.slice d lo hi t = Ok u ->
  in_range (shape u) idx ->
  in_range (shape t)
    (update_at d (fun i => (fst (pyslice (dim (shape t) d) lo hi) + i)%nat) idx).
Proof.
  intros H Hr. apply slice_ok in H as (_ & Hs & _). rewrite Hs in Hr.
  eapply in_range_update; [exact Hr | apply pyslice_inside].
Qed.

Lemma update_at_id {A : Type} (f : A -> A) :
  (forall a, f a = a) -> forall d (l : list A), update_at d f l = l.
Proof.
  intros Hf d. induction d as [|d IH]; intros [|a l]; cbn; try reflexivity.
  - now rewrite Hf.
  - now rewrite IH.
Qed.

Lemma pyindex_small n k :
  (k < n)%nat -> pyindex n (Z.of_nat k) = Ok k.
Proof.
  intros H. unfold pyindex.
  destruct (Z.leb_spec 0 (Z.of_nat k)); [|lia].
  destruct (Z.ltb_spec (Z.of_nat k) (Z.of_nat n)); [|lia].
  cbn. now rewrite Nat2Z.id.
Qed.

Lemma pyslice_unit n k :
  (k < n)%nat ->
  pyslice n (Some (Z.of_nat k)) (Some (Z.of_nat (S k))) = (k, 1%nat).
Proof.
  intros H. unfold pyslice, slice_bound.
  destruct (Z.ltb_spec (Z.of_nat k) 0); [lia|].
  destruct (Z.ltb_spec (Z.of_nat (S k)) 0); [lia|].
  rewrite !Nat2Z.id. f_equal; lia.
Qed.

(** ** Row-major linearisation *)

Lemma numel_cons n s : numel (n :: s) = (n * numel s)%nat.
Proof. reflexivity. Qed.

Lemma ravel_lt s : forall idx, in_range s idx -> (ravel s idx < numel s)%nat.
Proof.
  induction s as [|n s IH]; intros [|i idx] H; cbn [ravel in_range] in *;
    try tauto; [cbn; lia|].
  destruct H as [Hi H]. specialize (IH _ H). rewrite numel_cons.
  assert ((i + 1) * numel s <= n * numel s)%nat
    by (apply Nat.mul_le_mono_r; lia).
  lia.
Qed.

Lemma unravel_ravel s :
  forall idx, in_range s idx -> unravel s (ravel s idx) = idx.
Proof.
  induction s as [|n s IH]; intros [|i idx] H;
    cbn [ravel unravel in_range] in *; try tauto.
  destruct H as [Hi H]. pose proof (ravel_lt _ _ H) as Hlt.
  assert (Hn : numel s <> 0%nat) by lia.
  f_equal.
  - rewrite Nat.div_add_l by exact Hn. rewrite Nat.div_small by exact Hlt. lia.
  - rewrite Nat.add_comm, Nat.Div0.mod_add, Nat.mod_small by exact Hlt.
    now apply IH.
Qed.

(** [t.reshape(a, -1, b)] on a tensor of [a * m * b] entries. *)
Lemma reshape_infer_mid {A : Type} (t : tensor A) a m b :
  a <> 0%nat -> b <> 0%nat -> numel (shape t) = (a * m * b)%nat ->
  torch.reshape_infer [a; 0; b]%nat 1 t
  = Ok (mkT [a; m; b]
            (fun idx => elem t (unravel (shape t) (ravel [a; m; b] idx)))).
Proof.
  intros Ha Hb Hn. unfold torch.reshape_infer.
  cbn [remove_at numel fold_right set_at update_at].
  destruct (Nat.eqb_spec (a * (b * 1)) 0); [nia|].
  rewrite Hn.
  replace (a * m * b)%nat with (m * (a * (b * 1)))%nat by ring.
  rewrite Nat.Div0.mod_mul, Nat.div_mul by assumption.
  cbn [Nat.eqb]. unfold torch.reshape. cbn [numel fold_right].
  rewrite Hn.
  destruct (Nat.eqb_spec (a * (m * (b * 1))) (a * m * b)); [reflexivity|].
  exfalso. apply n0. ring.
Qed.

(** [t.reshape(-1, b)] on a tensor of [m * b] entries. *)
Lemma reshape_infer_front {A : Type} (t : tensor A) m b :
  b <> 0%nat -> numel (shape t) = (m * b)%nat ->
  torch.reshape_infer [0; b]%nat 0 t
  = Ok (mkT [m; b]
            (fun idx => elem t (unravel (shape t) (ravel [m; b] idx)))).
Proof.
  intros Hb Hn. unfold torch.reshape_infer.
  cbn [remove_at numel fold_right set_at update_at].
  destruct (Nat.eqb_spec (b * 1) 0); [nia|].
  rewrite Hn.
  replace (m * b)%nat with (m * (b * 1))%nat by ring.
  rewrite Nat.Div0.mod_mul, Nat.div_mul by assumption.
  cbn [Nat.eqb]. unfold torch.reshape. cbn [numel fold_right].
  rewrite Hn.
  destruct (Nat.eqb_spec (m * (b * 1)) (m * b)); [reflexivity|].
  exfalso. apply n0. ring.
Qed.

(** A pixel number [n < H * W] is row [n / W], column [n mod W]. *)
Lemma pixel_of_index H W n :
  (n < H * W)%nat -> (n / W < H)%nat /\ (n mod W < W)%nat.
Proof.
  intros Hn. assert (W <> 0)%nat by nia.
  split; [apply Nat.Div0.div_lt_upper_bound; nia | now apply Nat.mod_upper_bound].
Qed.

Lemma unravel_samples S H W s n c :
  (s < S)%nat -> (n < H * W)%nat -> (c < 3)%nat ->
  unravel [S; 1; H; W; 3]%nat (ravel [S; (H * W)%nat; 3%nat] [s; n; c])
  = [s; 0; n / W; n mod W; c]%nat.
Proof.
  intros Hs Hn Hc. destruct (pixel_of_index H W n Hn) as [Hi Hj].
  replace (ravel [S; (H * W)%nat; 3%nat] [s; n; c])
    with (ravel [S; 1; H; W; 3]%nat [s; 0; n / W; n mod W; c]%nat).
  - apply unravel_ravel. cbn. lia.
  - cbn [ravel numel fold_right].
    pose proof (Nat.div_mod_eq n W). nia.
Qed.

(** ** The clipping window (C2) *)

Lemma slice_bound_nonneg n b :
  (0 <= b)%Z -> slice_bound n b = Nat.min (Z.to_nat b) n.
Proof.
  intros H. unfold slice_bound. destruct (Z.ltb_spec b 0); [lia | reflexivity].
Qed.

(** The window always starts at the first row and the first column. *)
Lemma clip_window_origin row col :
  top (clip_window row col) = 0%Z /\ left (clip_window row col) = 0%Z.
Proof. unfold clip_window; cbn [top left]. lia. Qed.

Lemma pyslice_rows row col :
  pyslice row (Some (top (clip_window row col)))
              (Some (bottom (clip_window row col)))
  = (0%nat, kept_rows row col).
Proof.
  unfold pyslice. rewrite (proj1 (clip_window_origin row col)).
  rewrite !slice_bound_nonneg by (unfold clip_window; cbn [bottom]; lia).
  unfold clip_window, kept_rows; cbn [bottom].
  f_equal; lia.
Qed.

Lemma pyslice_cols row col :
  pyslice col (Some (left (clip_window row col)))
              (Some (right (clip_window row col)))
  = (0%nat, kept_cols row col).
Proof.
  unfold pyslice. rewrite (proj2 (clip_window_origin row col)).
  rewrite !slice_bound_nonneg by (unfold clip_window; cbn [right]; lia).
  unfold clip_window, kept_cols; cbn [right].
  f_equal; lia.
Qed.

Lemma kept_even h w :
  kept_rows (2 * h) (2 * w) = (2 * h)%nat /\
  kept_cols (2 * h) (2 * w) = (2 * w)%nat.
Proof.
  unfold kept_rows, kept_cols.
  replace (2 * h / 2)%nat with h by (rewrite Nat.mul_comm, Nat.div_mul; lia).
  replace (2 * w / 2)%nat with w by (rewrite Nat.mul_comm, Nat.div_mul; lia).
  lia.
Qed.

(** C2, counterexample: on a 2 x 4 image the clipped grid is the whole
    2 x 4 image, and its pixel (0, 0) is the image's pixel (0, 0), which
    lies outside the central 2 x 2 square. *)
Lemma clip_keeps_wide_image :
  exists t',
    clip (clip_window 2 4) 2 3 wide_image = Ok t' /\
    shape t' = [1; 3; 2; 4]%nat /\
    (forall c, elem t' [0; c; 0; 0]%nat = elem wide_image [0; c; 0; 0]%nat) /\
    in_central_square 2 4 0 0 = false.
Proof.
  eexists. split; [reflexivity|].
  split; [reflexivity|]. split; [reflexivity|]. reflexivity.
Qed.

(** ** The constructor (C4) *)

Lemma py_div_ok a b : b <> 0 -> py_div a b = Ok (a / b).
Proof. intros H. unfold py_div. destruct (Req_EM_T b 0); [contradiction | reflexivity]. Qed.

Lemma py_div_zero a : py_div a 0 = Raise ZeroDivisionError.
Proof. unfold py_div. destruct (Req_EM_T 0 0); [reflexivity | contradiction]. Qed.

(** With a positive width, a non-negative height and a three-component
    camera position the constructor returns, whatever the other arguments
    are, and stores them unchanged. *)
Lemma init_returns (W H : Z) (fov_deg : R) (cam : list R) (kind : string)
  (n : Z) (ds us usp : bool) :
  (0 < W)%Z -> (0 <= H)%Z -> length cam = 3%nat ->
  exists self,
    __init__ W H fov_deg cam kind n ds us usp = Ok self /\
    imWidth self = W /\ imHeight self = H /\
    brdf_type self = kind /\ spp self = n /\
    double_sided self = ds /\ use_ssrt self = us /\ use_specular self = usp /\
    shape (v self) = [1; 3; Z.to_nat H; Z.to_nat W]%nat.
Proof.
  intros HW HH Hcam. unfold __init__, np.array_1311.
  rewrite Hcam. cbn [Nat.eqb bind].
  rewrite py_div_ok by (apply not_0_IZR; lia). cbn [bind].
  unfold np.linspace.
  destruct (Z.ltb_spec W 0); [lia|]. destruct (Z.ltb_spec H 0); [lia|].
  cbn [bind np.meshgrid shape].
  unfold np.flip, torch.flip. cbn [rank shape length Nat.ltb Nat.leb np.with_error bind].
  unfold np.ones. cbn [forallb].
  destruct (Z.leb_spec 0 H); [|lia]. destruct (Z.leb_spec 0 W); [|lia].
  cbn [andb bind List.map].
  unfold np.stack3, torch.stack3.
  cbn [rank shape length Nat.leb torch.neg torch.map torch.ones].
  rewrite !shape_eqb_refl. cbn [andb np.with_error bind insert_at].
  unfold np.newaxis, torch.unsqueeze.
  cbn [rank shape length Nat.leb np.with_error bind insert_at].
  unfold np.binop, torch.binop. cbn [shape]. bcast.
  cbn [np.with_error bind shape]. bcast. cbn [np.with_error bind shape].
  unfold np.sum, torch.sum.
  cbn [rank shape length Nat.ltb Nat.leb np.with_error bind remove_at np.maximum torch.map insert_at np.sqrt].
  bcast. cbn [np.with_error bind].
  eexists. split; [reflexivity|]. cbn. repeat split; reflexivity.
Qed.

(** C4, counterexample: zero samples per pixel is accepted; the
    constructor returns a layer with [spp = 0]. *)
Lemma init_accepts_zero_spp :
  invalid_parameters 320 240 "ggx" 0 = true /\
  exists self,
    __init__ 320 240 85 [0; 0; 0] "ggx" 0 true false false = Ok self /\
    spp self = 0%Z.
Proof.
  split; [reflexivity|].
  destruct (init_returns 320 240 85 [0; 0; 0] "ggx" 0 true false false)
    as (self & H & _ & _ & _ & Hn & _); [lia | lia | reflexivity |].
  exists self. auto.
Qed.

(** C4, amended: the constructor validates none of its parameters.  With a
    positive width and a non-negative height it returns and stores the
    BRDF kind and the sample count it was given, whatever they are; a zero
    width raises ZeroDivisionError in the aspect-ratio division and a
    negative width or height raises ValueError in [np.linspace]. *)
Theorem init_validates_nothing (W H : Z) (fov_deg : R) (cam : list R)
  (kind : string) (n : Z) (ds us usp : bool) :
  length cam = 3%nat ->
  ((0 < W)%Z -> (0 <= H)%Z ->
   exists self,
     __init__ W H fov_deg cam kind n ds us usp = Ok self /\
     brdf_type self = kind /\ spp self = n /\
     imWidth self = W /\ imHeight self = H) /\
  (W = 0%Z ->
   __init__ W H fov_deg cam kind n ds us usp = Raise ZeroDivisionError) /\
  ((W < 0)%Z \/ (0 < W)%Z /\ (H < 0)%Z ->
   __init__ W H fov_deg cam kind n ds us usp = Raise ValueError).
Proof.
  intros Hcam. split; [|split].
  - intros HW HH.
    destruct (init_returns W H fov_deg cam kind n ds us usp HW HH Hcam)
      as (self & E & E1 & E2 & E3 & E4 & _).
    exists self. auto.
  - intros ->. unfold __init__, np.array_1311. rewrite Hcam.
    cbn [Nat.eqb bind]. now rewrite py_div_zero.
  - intros HWH. unfold __init__, np.array_1311. rewrite Hcam.
    cbn [Nat.eqb bind].
    rewrite py_div_ok by (apply not_0_IZR; lia). cbn [bind].
    unfold np.linspace. destruct HWH as [HW | [HW HH]].
    + destruct (Z.ltb_spec W 0); [reflexivity | lia].
    + destruct (Z.ltb_spec W 0); [lia|]. cbn [bind].
      destruct (Z.ltb_spec H 0); [reflexivity | lia].
Qed.

(** C4 at width 4, height 2, kind phong and zero samples: the
    constructor returns and stores the kind and the count. *)
Lemma init_validates_nothing_witness :
  exists self,
    __init__ 4 2 85 [0; 0; 0] "phong" 0 true false false = Ok self /\
    brdf_type self = "phong"%string /\ spp self = 0%Z.
Proof.
  destruct (init_validates_nothing 4 2 85 [0; 0; 0] "phong" 0 true false false
              eq_refl) as [H _].
  destruct H as (self & E & E1 & E2 & _); [lia | lia |].
  exists self. auto.
Defined.

(** ** Tracer post-processing (C8) *)

Lemma tanh_lt_1 x : tanh x < 1.
Proof. apply (tanh_bounds x). Qed.

(** C8: on what the tracer answers for N rays (coordinates (N, 2), hit
    mask (N), discrepancy (N), not negative on the rays that hit) the
    post-processing of lines 203-207 returns, no ray raises.  A ray that
    hit gets the uncertainty tanh(10 dz) clamped to [0, 1] and keeps its
    coordinates, swapped to (i, j) order; a ray that missed gets the
    coordinates (-1, -1) and the uncertainty 1. *)
Theorem trace_result_spec (uv : tensor Z) (mask : tensor bool) (dz : tensor R)
  (N : nat) :
  tracer_answer N uv mask dz ->
  exists uv' unc,
    IIR_SSRT_RenderLayer.trace_result uv mask dz = Ok (uv', unc) /\
    shape uv' = [N; 2%nat] /\ shape unc = [N] /\
    forall n, (n < N)%nat ->
      (elem mask [n] = true ->
         elem unc [n] = clamped_uncertainty (elem dz [n]) /\
         elem uv' [n; 0%nat] = elem uv [n; 1%nat] /\
         elem uv' [n; 1%nat] = elem uv [n; 0%nat]) /\
      (elem mask [n] = false ->
         elem unc [n] = 1 /\
         elem uv' [n; 0%nat] = (-1)%Z /\ elem uv' [n; 1%nat] = (-1)%Z) /\
      0 <= elem unc [n] <= 1.
Proof.
  intros (Huv & Hm & Hdz & Hpos).
  unfold IIR_SSRT_RenderLayer.trace_result, torch.fill_unmasked, torch.flip.
  unfold rank. cbn [shape torch.tanh torch.map]. rewrite Huv, Hm, Hdz.
  cbn [length firstn]. rewrite !shape_eqb_refl.
  cbn [bind shape length Nat.ltb Nat.leb dim nth].
  do 2 eexists. split; [reflexivity|].
  split; [reflexivity|]. split; [reflexivity|].
  intros n Hn. cbn [elem firstn update_at Nat.sub].
  specialize (Hpos n Hn).
  destruct (elem mask [n]); cbn [elem torch.tanh torch.map].
  - assert (H0 : 0 <= tanh (10 * elem dz [n]))
      by (apply tanh_ge_0; specialize (Hpos eq_refl); lra).
    pose proof (tanh_lt_1 (10 * elem dz [n])) as H1.
    split; [intros _|split; [discriminate | lra]].
    split; [|auto]. unfold clamped_uncertainty.
    rewrite Rmax_left, Rmin_left by lra. reflexivity.
  - split; [discriminate|]. split; [intros _; auto | lra].
Qed.

(** C8 on two rays, one that hit with discrepancy 0.1 and one that
    missed. *)
Lemma trace_result_spec_witness :
  exists uv' unc,
    IIR_SSRT_RenderLayer.trace_result two_rays_uv two_rays_mask two_rays_dz
      = Ok (uv', unc) /\
    elem unc [0%nat] = clamped_uncertainty 0.1 /\
    elem uv' [0%nat; 1%nat] = 1%Z /\
    elem unc [1%nat] = 1 /\
    elem uv' [1%nat; 0%nat] = (-1)%Z /\ elem uv' [1%nat; 1%nat] = (-1)%Z.
Proof.
  assert (Ht : tracer_answer 2 two_rays_uv two_rays_mask two_rays_dz).
  { repeat split.
    intros n Hn. destruct n as [|[|n]]; cbn; [lra | discriminate | lia]. }
  destruct (trace_result_spec _ _ _ 2 Ht) as (uv' & unc & E & _ & _ & H).
  exists uv', unc. split; [exact E|].
  destruct (H 0%nat) as ((H0 & _ & H0') & _); [lia | reflexivity |].
  destruct (H 1%nat) as (_ & (H1 & H1' & H1'') & _); [lia | reflexivity |].
  auto 6.
Defined.

(** ** The grazing mask and the clamp *)

Lemma pyindex_nonneg_ok n k i :
  (0 <= k)%Z -> pyindex n k = Ok i -> i = Z.to_nat k /\ (Z.to_nat k < n)%nat.
Proof.
  intros Hk H. apply pyindex_ok in H as [Hi [[_ ->]|[? _]]]; [auto | lia].
Qed.

Lemma where_same_ok {A : Type} (c : tensor bool) (a b r : tensor A) :
  torch.where_ c a b = Ok r ->
  shape a = shape c -> shape b = shape c ->
  shape r = shape c /\
  forall idx, in_range (shape c) idx ->
              elem r idx = if elem c idx then elem a idx else elem b idx.
Proof.
  unfold torch.where_. intros H Ha Hb.
  step H ab Eab. apply binop_ok in Eab as [Sab Eab].
  rewrite Ha, Hb, broadcast_shapes_refl in Sab. injection Sab as Sab.
  apply binop_ok in H as [Sr Er].
  rewrite <- Sab, broadcast_shapes_refl in Sr. injection Sr as Sr.
  split; [auto|]. intros idx Hr.
  rewrite Er, Eab, <- Sab, Ha, Hb, !bidx_in_range by assumption.
  reflexivity.
Qed.

Lemma fold_mask_clamp_ok ds d w g :
  fold_mask_clamp ds d w = Ok g ->
  (forall idx, in_range (shape (g_mask g)) idx ->
     elem (g_mask g) idx =
     if Rlt_dec (elem (g_local g) (update_at d (fun i => (2 + i)%nat) idx)) 1e-6
     then 0 else 1) /\
  (forall idx, nth d idx 0%nat = 2%nat -> 1e-3 <= elem (g_clamped g) idx) /\
  (forall idx, nth d idx 0%nat <> 2%nat ->
     elem (g_clamped g) idx = elem (g_local g) idx) /\
  (forall idx,
     elem (g_unit g) idx =
     elem (g_clamped g) idx /
     Rmax (sqrt (sum_n (fun k => elem (g_clamped g) (set_at d k idx)
                                 * elem (g_clamped g) (set_at d k idx))
                       (dim (shape (g_clamped g)) d)))
          1e-6).
Proof.
  unfold fold_mask_clamp. intros H.
  step H wl Ewl. step H z Ez. step H m Em. step H z2 Ez2. step H wc Ewc.
  step H wu Ewu. injection H as <-. cbn [g_mask g_local g_clamped g_unit].
  apply normalize_ok in Ewu as (_ & _ & Hwu).
  apply select_ok in Ez2 as (i2 & Hi2 & _ & Hz2).
  apply pyindex_nonneg_ok in Hi2 as [-> Hn]; [|lia].
  change (Z.to_nat 2) with 2%nat in *.
  apply slice_ok in Ez as (_ & Sz & Hz).
  assert (Hp : pyslice (dim (shape wl) d) (Some 2%Z) (Some 3%Z) = (2%nat, 1%nat)).
  { unfold pyslice, slice_bound. cbn.
    change (Pos.to_nat 2) with 2%nat. change (Pos.to_nat 3) with 3%nat.
    f_equal; lia. }
  rewrite Hp in Sz, Hz. cbn [fst snd] in Sz, Hz.
  apply where_same_ok in Em as [Sm Hm]; [|reflexivity|reflexivity].
  cbn [torch.lt_scalar torch.map shape elem torch.zeros_like torch.ones_like]
    in Sm, Hm.
  apply select_set_ok in Ewc as (i & Hi & _ & Hwc).
  apply pyindex_nonneg_ok in Hi as [-> _]; [|lia].
  change (Z.to_nat 2) with 2%nat in *.
  repeat split.
  - intros idx Hr. rewrite Sm in Hr. rewrite (Hm idx Hr), Hz.
    destruct (Rlt_dec _ _); reflexivity.
  - intros idx Hd. rewrite Hwc, Hd. cbn [Nat.eqb torch.clamp_min torch.map elem].
    apply Rmax_r.
  - intros idx Hd. rewrite Hwc.
    destruct (Nat.eqb_spec (nth d idx 0%nat) 2); [contradiction | reflexivity].
  - exact Hwu.
Qed.

(** On a tensor with at least three channels on axis [d], lines 99-106
    return. *)
Lemma fold_mask_clamp_returns ds d w :
  (d < rank w)%nat -> (3 <= dim (shape w) d)%nat ->
  exists g, fold_mask_clamp ds d w = Ok g /\ shape (g_unit g) = shape w
            /\ shape (g_mask g) = set_at d 1%nat (shape w).
Proof.
  intros Hd Hn. unfold fold_mask_clamp.
  assert (Hf : exists wl,
             (if ds then z <- torch.select d 2 w ;;
                        torch.select_set d 2 w (torch.abs z)
              else Ok w) = Ok wl /\ shape wl = shape w).
  { destruct ds; [|eauto].
    unfold torch.select, torch.select_set.
    destruct (Nat.ltb_spec d (rank w)); [|lia].
    change 2%Z with (Z.of_nat 2). rewrite pyindex_small by lia.
    cbn [bind shape torch.abs torch.map].
    rewrite broadcast_shapes_refl, shape_eqb_refl. eauto. }
  destruct Hf as (wl & -> & Swl). cbn [bind].
  unfold torch.slice, torch.select, torch.select_set, rank. rewrite Swl.
  fold (rank w). destruct (Nat.ltb_spec d (rank w)); [|lia].
  change 2%Z with (Z.of_nat 2). change 3%Z with (Z.of_nat 3).
  rewrite pyslice_unit, pyindex_small by lia.
  unfold torch.where_, torch.binop.
  cbn [bind shape torch.lt_scalar torch.zeros_like torch.ones_like torch.map].
  rewrite !broadcast_shapes_refl. cbn [bind shape torch.clamp_min torch.map].
  rewrite !broadcast_shapes_refl. cbn [bind shape].
  rewrite ?Swl, ?broadcast_shapes_refl, ?shape_eqb_refl. cbn [bind].
  unfold functional.normalize, rank. cbn [shape]. rewrite ?Swl. fold (rank w).
  destruct (Nat.ltb_spec d (rank w)); [|lia].
  cbn [bind]. eexists. split; [reflexivity|]. cbn. auto.
Qed.

Lemma pyslice_window_rows n row col :
  fst (pyslice n (Some (top (clip_window row col)))
                 (Some (bottom (clip_window row col)))) = 0%nat.
Proof.
  unfold pyslice. cbn [fst]. rewrite (proj1 (clip_window_origin row col)).
  reflexivity.
Qed.

Lemma pyslice_window_cols n row col :
  fst (pyslice n (Some (left (clip_window row col)))
                 (Some (right (clip_window row col)))) = 0%nat.
Proof.
  unfold pyslice. cbn [fst]. rewrite (proj2 (clip_window_origin row col)).
  reflexivity.
Qed.

(** Clipping with the window of a [row] x [col] image reads the tensor at
    the same indices, and the indices of the clipped tensor are indices of
    the tensor. *)
Lemma clip_window_ok {A : Type} row col dr dc (t u : tensor A) :
  clip (clip_window row col) dr dc t = Ok u ->
  (forall idx, elem u idx = elem t idx) /\
  (forall idx, in_range (shape u) idx -> in_range (shape t) idx).
Proof.
  unfold clip. intros H. step H t1 E1.
  pose proof (fun idx => slice_in_range _ _ _ _ _ idx E1) as R1.
  pose proof (fun idx => slice_in_range _ _ _ _ _ idx H) as R2.
  apply slice_ok in E1 as (_ & _ & H1). apply slice_ok in H as (_ & _ & H2).
  rewrite pyslice_window_rows in *. rewrite pyslice_window_cols in *.
  cbn [Nat.add] in *.
  assert (Hid : forall d (l : list nat), update_at d (fun i => i) l = l)
    by (intros; now apply update_at_id).
  split.
  - intros idx. now rewrite H2, H1, !Hid.
  - intros idx Hr. specialize (R2 idx Hr). rewrite Hid in R2.
    specialize (R1 idx R2). now rewrite Hid in R1.
Qed.

(** The stages of a [forward] call that returned. *)
Lemma forward_locals_ok brdf tr self lm albedo rough metal normal vpos l :
  forward_locals brdf tr self lm albedo rough metal normal vpos = Ok l ->
  let w := clip_window (l_row l) (l_col l) in
  let ld := l_light_dir l in
  let bt := l_brdf l in
  exists ch f,
    shape albedo = [1%nat; ch; l_row l; l_col l] /\
    Z.of_nat (l_row l) = imHeight self /\
    Z.of_nat (l_col l) = imWidth self /\
    l_window l = w /\
    local_frames normal = Ok f /\
    to_camera self f = Ok (l_view l) /\
    clip w 3 4 (wi (l_view l)) = Ok (l_wi l) /\
    clip w 2 3 (wi_mask (l_view l)) = Ok (l_wi_mask l) /\
    clip w 2 3 albedo = Ok (l_albedo_clip l) /\
    clip w 2 3 metal = Ok (l_metal_clip l) /\
    clip w 2 3 rough = Ok (l_rough_clip l) /\
    torch.size (l_wi l) 3 = Ok (l_irow l) /\
    torch.size (l_wi l) 4 = Ok (l_icol l) /\
    to_light self lm f normal vpos = Ok ld /\
    evaluate_brdf brdf self lm (l_albedo_clip l) (l_rough_clip l)
                  (l_metal_clip l) (l_wi l) (wo ld) (l_irow l) (l_icol l)
      = Ok bt /\
    exists dir vpos',
      (if use_ssrt self then
         exists sl,
           ssrt_block tr self w (l_row l) (l_col l) (l_irow l) (l_icol l)
                      (direction ld) albedo rough metal normal vpos = Ok sl /\
           l_ssrt l = Some sl /\
           dir = ssrt_direction_out sl /\ vpos' = ssrt_vpos sl
       else l_ssrt l = None /\ dir = direction ld /\ vpos' = vpos) /\
      integrate self lm (l_irow l) (l_icol l) dir vpos'
                (wo_emitter ld) (wo ld) (brdfDiffuse bt) (brdfSpec bt)
        = Ok (l_integrals l).
Proof.
  unfold forward_locals. intros H.
  destruct (shape albedo) as [|bn [|ch [|row [|col [|]]]]] eqn:Sa;
    try discriminate H.
  unfold assert in H.
  destruct (Nat.eqb_spec bn 1); [subst bn | discriminate H]. cbn [bind] in H.
  destruct (Z.eqb_spec (Z.of_nat row) (imHeight self)); [|discriminate H].
  destruct (Z.eqb_spec (Z.of_nat col) (imWidth self)); [|discriminate H].
  cbn [andb bind] in H.
  step H f Ef. step H vd Evd. step H wi' Ewi. step H wm Ewm.
  step H cx' Ecx. step H cy' Ecy. step H cz' Ecz.
  step H ac Eac. step H mc Emc. step H rc Erc.
  step H irow Eir. step H icol Eic. step H ld Eld. step H bt Ebt.
  step H q Eq. destruct q as [[traced dir] vp].
  step H ig Eig. injection H as <-. cbn.
  exists ch, f. repeat (split; [first [reflexivity | assumption]|]).
  exists dir, vp. split; [|assumption].
  destruct (use_ssrt self).
  - step Eq sl Esl. injection Eq as <- <- <-. exists sl. auto.
  - injection Eq as <- <- <-. auto.
Qed.

(** ** BRDF evaluation (C10) *)

Lemma evaluate_brdf_ok brdf self lm albedo_clip rough_clip metal_clip wi wo
  irow icol bt :
  evaluate_brdf brdf self lm albedo_clip rough_clip metal_clip wi wo irow icol
    = Ok bt ->
  pdfs_brdf bt = torch.clamp_min 0.001 (torch.ones_like (pdfs bt)) /\
  exists ed es,
    torch.expand [1; lm_spp lm; 3; irow; icol]%nat (eval_diff bt) = Ok ed /\
    torch.div ed (pdfs_brdf bt) = Ok (brdfDiffuse bt) /\
    torch.expand [1; lm_spp lm; 3; irow; icol]%nat (eval_spec bt) = Ok es /\
    torch.div es (pdfs_brdf bt) = Ok (brdfSpec bt).
Proof.
  unfold evaluate_brdf. intros H.
  step H q E. destruct q as [[[p d] s] m].
  step H ed Ed. step H bd Ebd. step H es Es. step H bs Ebs.
  injection H as <-. cbn. split; [reflexivity|].
  exists ed, es. auto.
Qed.

(** C10: the BRDF weighting density is 1 at every index, and the diffuse
    and specular terms handed to the integrator are the (expanded) BRDF
    evaluations themselves. *)
Theorem brdf_density_is_one brdf self lm albedo_clip rough_clip metal_clip
  wi wo irow icol bt :
  evaluate_brdf brdf self lm albedo_clip rough_clip metal_clip wi wo irow icol
    = Ok bt ->
  let target := [1; lm_spp lm; 3; irow; icol]%nat in
  (forall idx, elem (pdfs_brdf bt) idx = 1) /\
  (forall idx, elem (torch.ones_like (pdfs bt)) idx = 1) /\
  (forall idx,
     elem (brdfDiffuse bt) idx =
     elem (eval_diff bt) (bidx (shape (eval_diff bt)) (bidx target idx))) /\
  (forall idx,
     elem (brdfSpec bt) idx =
     elem (eval_spec bt) (bidx (shape (eval_spec bt)) (bidx target idx))).
Proof.
  intros H target. apply evaluate_brdf_ok in H as (Hp & ed & es & Hed & Hbd & Hes & Hbs).
  assert (P1 : forall idx, elem (pdfs_brdf bt) idx = 1).
  { intros idx. rewrite Hp. cbn. apply Rmax_1_milli. }
  apply expand_ok in Hed as (_ & Hsd & Hd).
  apply expand_ok in Hes as (_ & Hss & Hs).
  apply binop_ok in Hbd as (_ & Hbd). apply binop_ok in Hbs as (_ & Hbs).
  subst target. repeat split; auto.
  - intros idx. rewrite Hbd, P1, Hd, Hsd. unfold Rdiv. now rewrite Rinv_1, Rmult_1_r.
  - intros idx. rewrite Hbs, P1, Hs, Hss. unfold Rdiv. now rewrite Rinv_1, Rmult_1_r.
Qed.

(** ** The frame builder (C5) *)

(** The frame of Duff et al. around a unit vector. *)
Lemma duff_frame (zx zy zz : R) :
  zx * zx + zy * zy + zz * zz = 1 ->
  let s := if Rle_dec 0 zz then 1 else -1 in
  let a := -1 / (s + zz) in
  let b := zx * zy * a in
  1 <= Rabs (s + zz) /\
  right_handed_orthonormal
    (1 + s * zx * zx * a, s * b, - s * zx)
    (b, s + zy * zy * a, - zy)
    (zx, zy, zz).
Proof.
  intros Hu s a b.
  assert (Hs : (s = 1 /\ 0 <= zz) \/ (s = -1 /\ zz < 0)).
  { subst s. destruct (Rle_dec 0 zz); [left | right]; split; lra. }
  assert (Hd : s + zz <> 0) by (destruct Hs as [[-> ?]|[-> ?]]; lra).
  assert (Ha : a * (s + zz) = -1) by (subst a; field; exact Hd).
  assert (Hss : s * s = 1) by (destruct Hs as [[-> ?]|[-> ?]]; ring).
  split.
  - destruct Hs as [[-> ?]|[-> ?]].
    + rewrite Rabs_pos_eq; lra.
    + rewrite Rabs_left; lra.
  - subst b. clearbody a s. unfold right_handed_orthonormal, dot, cross.
    repeat split; try (f_equal; [f_equal|]); nsatz.
Qed.

(** On a (bn, 3, ...) tensor [create_frame] returns, and these are the
    entries of what it returns. *)
Lemma create_frame_returns n eps bn rest :
  shape n = bn :: 3%nat :: rest ->
  exists x y z,
    create_frame n eps = Ok (x, y, z) /\
    shape x = shape n /\ shape y = shape n /\ shape z = shape n /\
    (forall b c pix,
       elem z (b :: c :: pix) =
       elem n (b :: c :: pix) /
       Rmax (sqrt (0 + elem n (b :: 0%nat :: pix) * elem n (b :: 0%nat :: pix)
                   + elem n (b :: 1%nat :: pix) * elem n (b :: 1%nat :: pix)
                   + elem n (b :: 2%nat :: pix) * elem n (b :: 2%nat :: pix)))
            eps) /\
    forall b pix, in_range (bn :: rest) (b :: pix) ->
      let zc c := elem z (b :: c :: pix) in
      let s := if Rle_dec 0 (zc 2%nat) then 1 else -1 in
      let a := -1 / (s + zc 2%nat) in
      let b' := zc 0%nat * zc 1%nat * a in
      vec_at x b pix = (1 + s * zc 0%nat * zc 0%nat * a, s * b', - s * zc 0%nat)
      /\ vec_at y b pix = (b', s + zc 1%nat * zc 1%nat * a, - zc 1%nat).
Proof.
  intros Hn.
  unfold create_frame, functional.normalize, torch.select, rank.
  rewrite Hn. cbn [length Nat.ltb Nat.leb bind shape dim nth].
  change 0%Z with (Z.of_nat 0). change 1%Z with (Z.of_nat 1).
  change 2%Z with (Z.of_nat 2).
  rewrite !pyindex_small by lia. cbn [bind shape remove_at].
  unfold torch.add, torch.mul, torch.binop, torch.stack3, rank.
  repeat (cbn [bind shape torch.map torch.neg length Nat.leb andb insert_at];
          rewrite ?broadcast_shapes_refl, ?shape_eqb_refl).
  do 3 eexists. split; [reflexivity|].
  split; [reflexivity|]. split; [reflexivity|]. split; [reflexivity|].
  split.
  - intros b c pix. cbn [elem set_at update_at sum_n]. reflexivity.
  - intros b pix Hr. cbn zeta. unfold vec_at.
    cbn [elem nth remove_at torch.map torch.neg insert_at].
    rewrite !(bidx_in_range _ _ Hr).
    cbn [elem nth remove_at torch.map torch.neg insert_at].
    split; f_equal; try f_equal; ring.
Qed.

Lemma sign_plus_z_ge_1 zz :
  1 <= Rabs ((if Rle_dec 0 zz then 1 else -1) + zz).
Proof.
  destruct (Rle_dec 0 zz).
  - rewrite Rabs_pos_eq; lra.
  - rewrite Rabs_left; lra.
Qed.

(** C5, counterexample: at the zero normal the floored normalisation
    returns the zero vector as [normal_z], which has length 0, and
    [tangent_x] x [tangent_y] = (0, 0, 1) is at distance 1 from it. *)
Lemma create_frame_zero_normal :
  exists x y z,
    create_frame zero_normal 1e-6 = Ok (x, y, z) /\
    vec_at z 0 [0; 0]%nat = (0, 0, 0) /\
    dot (vec_at z 0 [0; 0]%nat) (vec_at z 0 [0; 0]%nat) <> 1 /\
    ~ within 1e-4 (cross (vec_at x 0 [0; 0]%nat) (vec_at y 0 [0; 0]%nat))
                  (vec_at z 0 [0; 0]%nat).
Proof.
  destruct (create_frame_returns zero_normal 1e-6 1 [1; 1]%nat eq_refl)
    as (x & y & z & E & _ & _ & _ & Hz & Hxy).
  exists x, y, z. split; [exact E|].
  assert (Z0 : forall c, elem z [0%nat; c; 0%nat; 0%nat] = 0).
  { intros c. rewrite Hz. cbn [zero_normal elem]. unfold Rdiv. ring. }
  destruct (Hxy 0%nat [0; 0]%nat) as [Hx Hy]; [cbn; lia|].
  cbn zeta in Hx, Hy. rewrite !Z0 in Hx, Hy.
  destruct (Rle_dec 0 0) as [_|N]; [|lra].
  rewrite Hx, Hy. unfold vec_at. rewrite !Z0.
  split; [reflexivity|]. split.
  - cbn. lra.
  - cbn. intros (_ & _ & H).
    replace ((1 + 1 * 0 * 0 * (-1 / (1 + 0))) * (1 + 0 * 0 * (-1 / (1 + 0)))
             - 1 * (0 * 0 * (-1 / (1 + 0))) * (0 * 0 * (-1 / (1 + 0))) - 0)
      with 1 in H by (field; lra).
    rewrite Rabs_R1 in H. lra.
Qed.

(** C5, amended: for every normal whose length is at least eps,
    [create_frame] returns three mutually orthogonal unit vectors with
    tangent_x x tangent_y = normal_z, exactly (so also within 1e-4), the
    poles included; and for every normal the denominator sgn + normal.z,
    with sgn = +1 at 0, has magnitude at least 1. *)
Theorem create_frame_orthonormal n eps bn rest :
  shape n = bn :: 3%nat :: rest ->
  0 < eps ->
  exists x y z,
    create_frame n eps = Ok (x, y, z) /\
    forall b pix, in_range (bn :: rest) (b :: pix) ->
      (eps <= sqrt (dot (vec_at n b pix) (vec_at n b pix)) ->
       right_handed_orthonormal (vec_at x b pix) (vec_at y b pix)
                                (vec_at z b pix) /\
       within 1e-4 (cross (vec_at x b pix) (vec_at y b pix)) (vec_at z b pix))
      /\
      1 <= Rabs ((if Rle_dec 0 (elem z (b :: 2%nat :: pix)) then 1 else -1)
                 + elem z (b :: 2%nat :: pix)).
Proof.
  intros Hn Heps.
  destruct (create_frame_returns n eps bn rest Hn)
    as (x & y & z & E & _ & _ & _ & Hz & Hxy).
  exists x, y, z. split; [exact E|].
  intros b pix Hr. split; [|apply sign_plus_z_ge_1].
  intros Hlen. destruct (Hxy b pix Hr) as [Hx Hy]. cbn zeta in Hx, Hy.
  rewrite Hx, Hy. clear Hx Hy Hxy.
  set (n0 := elem n (b :: 0%nat :: pix)) in *.
  set (n1 := elem n (b :: 1%nat :: pix)) in *.
  set (n2 := elem n (b :: 2%nat :: pix)) in *.
  set (S := 0 + n0 * n0 + n1 * n1 + n2 * n2) in *.
  assert (HS : dot (vec_at n b pix) (vec_at n b pix) = S).
  { unfold vec_at, dot, S. fold n0 n1 n2. ring. }
  rewrite HS in Hlen.
  assert (Hmax : Rmax (sqrt S) eps = sqrt S).
  { unfold Rmax. destruct (Rle_dec (sqrt S) eps); lra. }
  assert (HS0 : 0 <= S) by (unfold S; nra).
  assert (Hsq : sqrt S * sqrt S = S) by (apply sqrt_sqrt; exact HS0).
  assert (Hz' : forall c, elem z (b :: c :: pix)
                          = elem n (b :: c :: pix) / sqrt S).
  { intros c. rewrite Hz. fold n0 n1 n2. fold S. now rewrite Hmax. }
  assert (Hu : elem z (b :: 0%nat :: pix) * elem z (b :: 0%nat :: pix)
               + elem z (b :: 1%nat :: pix) * elem z (b :: 1%nat :: pix)
               + elem z (b :: 2%nat :: pix) * elem z (b :: 2%nat :: pix) = 1).
  { rewrite !Hz'. fold n0 n1 n2.
    assert (Hne : sqrt S <> 0) by lra.
    replace (n0 / sqrt S * (n0 / sqrt S) + n1 / sqrt S * (n1 / sqrt S)
             + n2 / sqrt S * (n2 / sqrt S))
      with (S / (sqrt S * sqrt S)) by (unfold S; field; exact Hne).
    rewrite Hsq. field. nra. }
  destruct (duff_frame _ _ _ Hu) as [_ Hf]. cbn zeta in Hf.
  split; [exact Hf|].
  destruct Hf as (_ & _ & _ & _ & _ & _ & Hc).
  rewrite Hc. unfold vec_at, within.
  rewrite !Rminus_diag, Rabs_R0. lra.
Qed.

(** C5 at the pole (0, 0, -1). *)
Lemma create_frame_orthonormal_witness :
  exists x y z,
    create_frame pole_normal 1e-6 = Ok (x, y, z) /\
    right_handed_orthonormal (vec_at x 0 [0; 0]%nat) (vec_at y 0 [0; 0]%nat)
                             (vec_at z 0 [0; 0]%nat).
Proof.
  destruct (create_frame_orthonormal pole_normal 1e-6 1 [1; 1]%nat eq_refl)
    as (x & y & z & E & H); [lra|].
  exists x, y, z. split; [exact E|].
  destruct (H 0%nat [0; 0]%nat) as [Ho _]; [cbn; lia|].
  apply Ho. unfold vec_at, dot, pole_normal. cbn [elem nth].
  replace (0 * 0 + 0 * 0 + -1 * -1) with 1 by ring. rewrite sqrt_1. lra.
Defined.

(** ** Local frames and local directions *)

Ltac cases_lt3 c :=
  destruct c as [|[|[|c]]]; [| | |lia].

Lemma local_frames_returns normal H W :
  shape normal = [1; 3; H; W]%nat ->
  exists f,
    local_frames normal = Ok f /\
    create_frame normal 1e-6 = Ok (cx f, cy f, cz f) /\
    shape (cx f) = [1; 3; H; W]%nat /\
    shape (cy f) = [1; 3; H; W]%nat /\
    shape (cz f) = [1; 3; H; W]%nat /\
    shape (fx f) = [1; 3; H; W]%nat /\
    shape (fy f) = [1; 3; H; W]%nat /\
    shape (fz f) = [1; 3; H; W]%nat /\
    forall c i j, (c < 3)%nat ->
      elem (fx f) [0; c; i; j]%nat = elem (axis f c) [0; 0; i; j]%nat /\
      elem (fy f) [0; c; i; j]%nat = elem (axis f c) [0; 1; i; j]%nat /\
      elem (fz f) [0; c; i; j]%nat = elem (axis f c) [0; 2; i; j]%nat.
Proof.
  intros Hn.
  destruct (create_frame_returns normal 1e-6 1 [H; W] Hn)
    as (x & y & z & E & Sx & Sy & Sz & _).
  unfold local_frames. rewrite E. cbn [bind].
  unfold torch.cat3, rank. rewrite Sx, Sy, Sz, Hn.
  cbn [length Nat.ltb Nat.leb remove_at andb Nat.eqb dim nth set_at update_at
       Nat.add].
  rewrite !shape_eqb_refl. cbn [andb bind].
  unfold torch.permute, torch.split3, rank.
  cbn [bind shape length Nat.eqb andb torch.is_perm forallb existsb seq orb
       List.map dim nth Nat.ltb Nat.leb set_at update_at].
  eexists. split; [reflexivity|]. cbn [cx cy cz fx fy fz shape].
  split; [reflexivity|].
  split; [congruence|]. split; [congruence|]. split; [congruence|].
  do 3 (split; [reflexivity|]).
  intros c i j Hc. cases_lt3 c; cbn; auto.
Qed.

(** Lines 96-98: the view direction in the local frame. *)
Lemma frame_project_4d w fx fy fz H W :
  shape w = [1; 3; H; W]%nat ->
  shape fx = [1; 3; H; W]%nat -> shape fy = [1; 3; H; W]%nat ->
  shape fz = [1; 3; H; W]%nat ->
  exists r,
    frame_project 1 w fx fy fz = Ok r /\
    shape r = [1; 3; H; W]%nat /\
    forall c i j, (c < 3)%nat -> (i < H)%nat -> (j < W)%nat ->
      elem r [0; c; i; j]%nat =
      elem w [0; 0; i; j]%nat * elem fx [0; c; i; j]%nat
      + elem w [0; 1; i; j]%nat * elem fy [0; c; i; j]%nat
      + elem w [0; 2; i; j]%nat * elem fz [0; c; i; j]%nat.
Proof.
  intros Hw Hx Hy Hz.
  unfold frame_project, torch.slice, rank. rewrite Hw.
  cbn [length Nat.ltb Nat.leb dim nth].
  change 0%Z with (Z.of_nat 0). change 1%Z with (Z.of_nat 1).
  change 2%Z with (Z.of_nat 2). change 3%Z with (Z.of_nat 3).
  rewrite !pyslice_unit by lia.
  unfold torch.mul, torch.add, torch.binop.
  repeat (cbn [bind shape set_at update_at]; rewrite ?Hx, ?Hy, ?Hz; bcast).
  eexists. split; [reflexivity|]. split; [reflexivity|].
  intros c i j Hc Hi Hj.
  cbn [elem bidx length Nat.sub skipn map2 update_at Nat.eqb Nat.add].
  rewrite ?Hx, ?Hy, ?Hz.
  cbn [elem bidx length Nat.sub skipn map2 update_at Nat.eqb Nat.add].
  rewrite ?(bsel_lt H i Hi), ?(bsel_lt W j Hj).
  reflexivity.
Qed.

(** Lines 128-130: the sampled directions in the local frame. *)
Lemma frame_project_5d w fx fy fz S H W :
  shape w = [1; S; 3; H; W]%nat ->
  shape fx = [1; 1; 3; H; W]%nat -> shape fy = [1; 1; 3; H; W]%nat ->
  shape fz = [1; 1; 3; H; W]%nat ->
  exists r,
    frame_project 2 w fx fy fz = Ok r /\
    shape r = [1; S; 3; H; W]%nat /\
    forall s c i j, (s < S)%nat -> (c < 3)%nat -> (i < H)%nat -> (j < W)%nat ->
      elem r [0; s; c; i; j]%nat =
      elem w [0; s; 0; i; j]%nat * elem fx [0; 0; c; i; j]%nat
      + elem w [0; s; 1; i; j]%nat * elem fy [0; 0; c; i; j]%nat
      + elem w [0; s; 2; i; j]%nat * elem fz [0; 0; c; i; j]%nat.
Proof.
  intros Hw Hx Hy Hz.
  unfold frame_project, torch.slice, rank. rewrite Hw.
  cbn [length Nat.ltb Nat.leb dim nth].
  change 0%Z with (Z.of_nat 0). change 1%Z with (Z.of_nat 1).
  change 2%Z with (Z.of_nat 2). change 3%Z with (Z.of_nat 3).
  rewrite !pyslice_unit by lia.
  unfold torch.mul, torch.add, torch.binop.
  repeat (cbn [bind shape set_at update_at]; rewrite ?Hx, ?Hy, ?Hz; bcast).
  eexists. split; [reflexivity|]. split; [reflexivity|].
  intros s c i j Hs Hc Hi Hj.
  cbn [elem bidx length Nat.sub skipn map2 update_at Nat.eqb Nat.add].
  rewrite ?Hx, ?Hy, ?Hz.
  cbn [elem bidx length Nat.sub skipn map2 update_at Nat.eqb Nat.add].
  rewrite ?(bsel_lt H i Hi), ?(bsel_lt W j Hj), ?(bsel_lt S s Hs).
  reflexivity.
Qed.

Lemma to_light_ok self lm f normal vpos ld :
  to_light self lm f normal vpos = Ok ld ->
  exists vpos1 normal1 fx1 fy1 fz1 raw d1 d2,
    torch.unsqueeze 1 vpos = Ok vpos1 /\
    torch.unsqueeze 1 normal = Ok normal1 /\
    sample_direction lm vpos1 normal1 = Ok (wo_emitter ld) /\
    torch.unsqueeze 1 (fx f) = Ok fx1 /\
    torch.unsqueeze 1 (fy f) = Ok fy1 /\
    torch.unsqueeze 1 (fz f) = Ok fz1 /\
    frame_project 2 (wo_emitter ld) fx1 fy1 fz1 = Ok raw /\
    (if double_sided self then
       exists z, torch.select 2 2 raw = Ok z /\
                 torch.select_set 2 2 raw (torch.abs z) = Ok (wo ld)
     else wo ld = raw) /\
    torch.permute [0; 1; 3; 4; 2]%nat (wo_emitter ld) = Ok d1 /\
    torch.permute [1; 0; 2; 3; 4]%nat d1 = Ok d2 /\
    torch.reshape_infer [lm_spp lm; 0; 3]%nat 1 d2 = Ok (direction ld).
Proof.
  unfold to_light. intros H.
  step H vpos1 Ev. step H normal1 En. step H woe Ew.
  step H fx1 Ex. step H fy1 Ey. step H fz1 Ez. step H raw Er.
  step H wo' Ewo. step H d1 Ed1. step H d2 Ed2. step H d3 Ed3.
  injection H as <-. cbn [wo_emitter wo direction].
  exists vpos1, normal1, fx1, fy1, fz1, raw, d1, d2.
  do 7 (split; [first [reflexivity | assumption]|]). split; [|auto].
  destruct (double_sided self).
  - step Ewo z Hz. exists z. auto.
  - now injection Ewo as <-.
Qed.

(** The local direction to the light: the dot products of the sampled
    world direction with the frame axes, folded on z when double-sided. *)
Lemma wo_local self lm f normal vpos ld S H W :
  to_light self lm f normal vpos = Ok ld ->
  shape (fx f) = [1; 3; H; W]%nat -> shape (fy f) = [1; 3; H; W]%nat ->
  shape (fz f) = [1; 3; H; W]%nat ->
  shape (wo_emitter ld) = [1; S; 3; H; W]%nat ->
  shape (wo ld) = [1; S; 3; H; W]%nat /\
  forall s c i j, (s < S)%nat -> (c < 3)%nat -> (i < H)%nat -> (j < W)%nat ->
    elem (wo ld) [0; s; c; i; j]%nat =
    fold_z (double_sided self) c
      (elem (wo_emitter ld) [0; s; 0; i; j]%nat * elem (fx f) [0; c; i; j]%nat
       + elem (wo_emitter ld) [0; s; 1; i; j]%nat * elem (fy f) [0; c; i; j]%nat
       + elem (wo_emitter ld) [0; s; 2; i; j]%nat * elem (fz f) [0; c; i; j]%nat).
Proof.
  intros Hl Hx Hy Hz Hw.
  apply to_light_ok in Hl
    as (vpos1 & normal1 & fx1 & fy1 & fz1 & raw & d1 & d2 & _ & _ & _
        & Ex & Ey & Ez & Er & Hwo & _).
  apply unsqueeze_ok in Ex as (_ & Sx & Hx1).
  apply unsqueeze_ok in Ey as (_ & Sy & Hy1).
  apply unsqueeze_ok in Ez as (_ & Sz & Hz1).
  rewrite Hx in Sx. rewrite Hy in Sy. rewrite Hz in Sz.
  cbn [insert_at] in Sx, Sy, Sz.
  destruct (frame_project_5d _ _ _ _ S H W Hw Sx Sy Sz)
    as (r & Er' & Sr & Hr).
  rewrite Er in Er'. injection Er' as <-.
  assert (Hraw : forall s c i j,
             (s < S)%nat -> (c < 3)%nat -> (i < H)%nat -> (j < W)%nat ->
             elem raw [0; s; c; i; j]%nat =
             elem (wo_emitter ld) [0; s; 0; i; j]%nat * elem (fx f) [0; c; i; j]%nat
             + elem (wo_emitter ld) [0; s; 1; i; j]%nat * elem (fy f) [0; c; i; j]%nat
             + elem (wo_emitter ld) [0; s; 2; i; j]%nat * elem (fz f) [0; c; i; j]%nat).
  { intros s c i j Hs Hc Hi Hj. rewrite (Hr s c i j Hs Hc Hi Hj).
    rewrite Hx1, Hy1, Hz1. reflexivity. }
  unfold fold_z. destruct (double_sided self).
  - destruct Hwo as (z & Ezz & Eset).
    apply select_ok in Ezz as (k & Hk & Sz2 & Hz2).
    apply pyindex_nonneg_ok in Hk as [-> _]; [|lia].
    apply select_set_ok in Eset as (k & Hk & Sset & Hset).
    apply pyindex_nonneg_ok in Hk as [-> _]; [|lia].
    change (Z.to_nat 2) with 2%nat in *.
    split; [congruence|].
    intros s c i j Hs Hc Hi Hj. rewrite Hset.
    cbn [nth remove_at torch.abs torch.map shape elem andb].
    rewrite Sz2, Sr. cbn [remove_at].
    destruct (Nat.eqb_spec c 2) as [->|Hne].
    + rewrite bidx_in_range by (cbn; lia). rewrite Hz2. cbn [insert_at].
      now rewrite Hraw by lia.
    + now apply Hraw.
  - subst raw. split; [assumption|]. intros. cbn [andb]. now apply Hraw.
Qed.

(** With frames of an H x W image and a lighting model that samples
    [S >= 1] directions per pixel, lines 126-138 return. *)
Lemma to_light_returns self lm f normal vpos vpos1 normal1 woe S H W :
  shape (fx f) = [1; 3; H; W]%nat -> shape (fy f) = [1; 3; H; W]%nat ->
  shape (fz f) = [1; 3; H; W]%nat ->
  torch.unsqueeze 1 vpos = Ok vpos1 ->
  torch.unsqueeze 1 normal = Ok normal1 ->
  sample_direction lm vpos1 normal1 = Ok woe ->
  shape woe = [1; S; 3; H; W]%nat ->
  lm_spp lm = S -> S <> 0%nat ->
  exists ld,
    to_light self lm f normal vpos = Ok ld /\
    wo_emitter ld = woe /\
    shape (direction ld) = [S; (H * W)%nat; 3%nat] /\
    forall s n c, (s < S)%nat -> (n < H * W)%nat -> (c < 3)%nat ->
      elem (direction ld) [s; n; c] = elem woe [0%nat; s; c; (n / W)%nat; n mod W].
Proof.
  intros Hx Hy Hz Ev En Ew Sw HS HS0.
  unfold to_light. rewrite Ev, En. cbn [bind]. rewrite Ew. cbn [bind].
  unfold torch.unsqueeze at 1 2 3. unfold rank. rewrite Hx, Hy, Hz.
  cbn [length Nat.leb bind insert_at].
  match goal with
  | |- context [frame_project 2 woe ?a ?b ?c] =>
      destruct (frame_project_5d woe a b c S H W Sw eq_refl eq_refl eq_refl)
        as (raw & Er & Sr & _)
  end.
  rewrite Er. cbn [bind].
  assert (Ewo : exists wo',
             (if double_sided self
              then z <- torch.select 2 2 raw ;;
                   torch.select_set 2 2 raw (torch.abs z)
              else Ok raw) = Ok wo').
  { destruct (double_sided self); [|eauto].
    unfold torch.select, torch.select_set, rank. rewrite Sr.
    cbn [length Nat.ltb Nat.leb dim nth].
    change 2%Z with (Z.of_nat 2). rewrite pyindex_small by lia.
    cbn [bind shape remove_at torch.abs torch.map].
    rewrite broadcast_shapes_refl, shape_eqb_refl. eauto. }
  destruct Ewo as [wo' Ewo]. rewrite Ewo. cbn [bind].
  unfold torch.permute, rank. rewrite Sw.
  cbn [length Nat.eqb andb torch.is_perm forallb existsb seq orb bind shape
       List.map dim nth].
  rewrite HS.
  rewrite (reshape_infer_mid _ S (H * W) 3) by
    (try assumption; try lia; cbn [shape numel fold_right]; ring).
  cbn [bind]. eexists. split; [reflexivity|]. cbn [wo_emitter direction shape].
  split; [reflexivity|]. split; [reflexivity|].
  intros s n c Hs Hn Hc. cbn [elem shape].
  rewrite unravel_samples by assumption. reflexivity.
Qed.

(** ** Stages that return *)

Lemma set_at_dim (s : list nat) : forall d, set_at d (dim s d) s = s.
Proof.
  unfold set_at, dim. induction s as [|n s IH]; intros [|d]; cbn; try reflexivity.
  now rewrite IH.
Qed.

Lemma length_update_at {A : Type} (f : A -> A) (l : list A) :
  forall d, length (update_at d f l) = length l.
Proof.
  induction l as [|a l IH]; intros [|d]; cbn; try reflexivity.
  now rewrite IH.
Qed.

Lemma slice_returns {A : Type} d lo hi (t : tensor A) :
  (d < rank t)%nat ->
  exists u, torch.slice d lo hi t = Ok u /\ rank u = rank t.
Proof.
  intros Hd. unfold torch.slice. destruct (Nat.ltb_spec d (rank t)); [|lia].
  destruct (pyslice _ _ _) as [start len]. eexists. split; [reflexivity|].
  unfold rank, set_at. cbn [shape]. apply length_update_at.
Qed.

(** Clipping never raises on a tensor that has the two axes. *)
Lemma clip_returns {A : Type} w dr dc (t : tensor A) :
  (dr < rank t)%nat -> (dc < rank t)%nat ->
  exists u, clip w dr dc t = Ok u.
Proof.
  intros Hr Hc. unfold clip.
  destruct (slice_returns dr (Some (top w)) (Some (bottom w)) t Hr)
    as (t1 & -> & R1).
  cbn [bind].
  destruct (slice_returns dc (Some (left w)) (Some (right w)) t1) as (u & -> & _);
    [lia | eauto].
Qed.

Lemma dim_set_at_other (s : list nat) :
  forall d d' v, d <> d' -> dim (set_at d v s) d' = dim s d'.
Proof.
  unfold set_at, dim. induction s as [|n s IH]; intros [|d] [|d'] v Hne; cbn;
    try reflexivity; try lia.
  apply IH. lia.
Qed.

(** With even height and width the window is the image: clipping returns
    a tensor of the same shape and entries. *)
Lemma clip_even {A : Type} h w dr dc (t : tensor A) :
  (dr < rank t)%nat -> (dc < rank t)%nat -> dr <> dc ->
  dim (shape t) dr = (2 * h)%nat -> dim (shape t) dc = (2 * w)%nat ->
  exists u,
    clip (clip_window (2 * h) (2 * w)) dr dc t = Ok u /\
    shape u = shape t /\ forall idx, elem u idx = elem t idx.
Proof.
  intros Hr Hc Hne Hdr Hdc.
  destruct (clip_returns (clip_window (2 * h) (2 * w)) dr dc t Hr Hc)
    as [u Hu].
  exists u. split; [exact Hu|].
  pose proof (clip_window_ok _ _ _ _ _ _ Hu) as [He _].
  split; [|exact He].
  unfold clip in Hu. step Hu t1 Et.
  apply slice_ok in Et as (_ & S1 & _). apply slice_ok in Hu as (_ & S2 & _).
  rewrite S2, S1. rewrite dim_set_at_other by exact Hne.
  rewrite Hdr, Hdc, pyslice_rows, pyslice_cols. cbn [snd].
  destruct (kept_even h w) as [-> ->].
  rewrite <- Hdr at 1. rewrite set_at_dim. rewrite <- Hdc. apply set_at_dim.
Qed.

Lemma to_camera_returns self f H W :
  shape (v self) = [1; 3; H; W]%nat ->
  shape (fx f) = [1; 3; H; W]%nat -> shape (fy f) = [1; 3; H; W]%nat ->
  shape (fz f) = [1; 3; H; W]%nat ->
  exists vd,
    to_camera self f = Ok vd /\
    shape (wi vd) = [1; 1; 3; H; W]%nat /\
    shape (wi_mask vd) = [1; 1; H; W]%nat.
Proof.
  intros Hv Hx Hy Hz. unfold to_camera.
  destruct (frame_project_4d _ _ _ _ H W Hv Hx Hy Hz) as (r & -> & Sr & _).
  cbn [bind].
  destruct (fold_mask_clamp_returns (double_sided self) 1 r)
    as (g & -> & Su & Sm).
  { unfold rank. rewrite Sr. cbn. lia. }
  { rewrite Sr. cbn. lia. }
  cbn [bind]. unfold torch.unsqueeze, rank. rewrite Su, Sr.
  cbn [length Nat.leb bind]. eexists. split; [reflexivity|].
  cbn [wi wi_mask shape insert_at]. rewrite Sm, Sr. split; reflexivity.
Qed.

(** The Lambertian module in the "diffuse" branch of lines 144-146. *)
Lemma evaluate_brdf_lambert self lm albedo_clip rough_clip metal_clip wi wo
  S H W :
  brdf_type self = "diffuse"%string ->
  lm_spp lm = S ->
  shape albedo_clip = [1; 3; H; W]%nat ->
  shape wo = [1; S; 3; H; W]%nat ->
  exists bt,
    evaluate_brdf lambert self lm albedo_clip rough_clip metal_clip wi wo H W
      = Ok bt /\
    shape (brdfDiffuse bt) = [1; S; 3; H; W]%nat /\
    shape (brdfSpec bt) = [1; S; 3; H; W]%nat /\
    shape (pdfs bt) = [1; S; 1; H; W]%nat /\
    eval_diff bt = torch.map (fun a => a / PI)
                     (mkT [1; 1; 3; H; W]%nat
                          (fun idx => elem albedo_clip (remove_at 1 idx))).
Proof.
  intros Hk HS Sa Swo. unfold evaluate_brdf. rewrite Hk. cbn [String.eqb Ascii.eqb Bool.eqb].
  cbn [lambert pdf_diffuse eval_diffuse].
  unfold torch.slice, torch.unsqueeze, rank. rewrite Swo, Sa.
  cbn [length Nat.ltb Nat.leb dim nth].
  change 2%Z with (Z.of_nat 2). change 3%Z with (Z.of_nat 3).
  rewrite pyslice_unit by lia.
  cbn [bind set_at update_at insert_at]. rewrite HS.
  unfold torch.expand, torch.div, torch.binop, rank.
  cbn [shape torch.map torch.zeros_like torch.clamp_min torch.ones_like length
       Nat.leb].
  repeat (bcast; rewrite ?shape_eqb_refl; cbn [bind shape]).
  eexists. split; [reflexivity|]. cbn. auto.
Qed.

Lemma unsqueeze_returns {A : Type} d (t : tensor A) :
  (d <= rank t)%nat ->
  torch.unsqueeze d t
  = Ok (mkT (insert_at d 1%nat (shape t)) (fun idx => elem t (remove_at d idx))).
Proof.
  intros H. unfold torch.unsqueeze. destruct (Nat.leb_spec d (rank t)); [reflexivity | lia].
Qed.

(** Lines 232-251 for a lighting model that answers the radiance call
    with S * H * W radiances and the density call with one density per
    sample and pixel. *)
Lemma integrate_returns self lm S H W dir vpos woe wo bD bS lr pr :
  lm_spp lm = S ->
  lm_call lm dir = Ok lr -> shape lr = [(S * (H * W))%nat; 3%nat] ->
  (1 <= rank vpos)%nat ->
  (forall v1, pdf_direction lm v1 woe = Ok pr) ->
  shape pr = [1; S; 1; H; W]%nat ->
  shape wo = [1; S; 3; H; W]%nat ->
  shape bD = [1; S; 3; H; W]%nat -> shape bS = [1; S; 3; H; W]%nat ->
  exists ig,
    integrate self lm H W dir vpos woe wo bD bS = Ok ig /\
    light_raw ig = lr /\ pdf_raw ig = pr /\
    shape (colorDiffuse ig) = [1; 3; H; W]%nat.
Proof.
  intros HS El Sl Hv Ep Sp Swo SbD SbS. unfold integrate.
  rewrite El. cbn [bind].
  rewrite unsqueeze_returns by exact Hv. cbn [bind].
  rewrite Ep. cbn [bind]. rewrite HS.
  unfold torch.slice, torch.reshape, rank. rewrite Swo, Sl.
  cbn [length Nat.ltb Nat.leb dim nth shape].
  assert (Hp : pyslice 3 (Some 2%Z) None = (2%nat, 1%nat)) by reflexivity.
  rewrite Hp. cbn [bind set_at update_at].
  destruct (Nat.eqb_spec (numel [1; S; H; W; 3]%nat)
                         (numel [(S * (H * W))%nat; 3%nat])) as [_|Hne].
  2:{ exfalso. apply Hne. cbn [numel fold_right]. ring. }
  unfold torch.permute, rank.
  cbn [bind shape length Nat.eqb andb torch.is_perm forallb existsb seq orb
       List.map dim nth].
  unfold torch.mul, torch.div, torch.binop, torch.mean, rank.
  cbn [shape torch.clamp_min torch.map]. rewrite SbD, SbS, Sp.
  repeat (bcast; cbn [bind shape length Nat.ltb Nat.leb dim nth remove_at]).
  destruct (use_specular self);
    repeat (bcast; cbn [bind shape length Nat.ltb Nat.leb dim nth remove_at]);
    eexists; (split; [reflexivity|]); cbn; auto.
Qed.

(** The constant lighting model in lines 232-251. *)
Lemma integrate_constant self S H W d dir vpos woe wo bD bS :
  shape dir = [S; (H * W)%nat; 3%nat] ->
  (1 <= rank vpos)%nat ->
  shape wo = [1; S; 3; H; W]%nat ->
  shape bD = [1; S; 3; H; W]%nat -> shape bS = [1; S; 3; H; W]%nat ->
  exists ig,
    integrate self (constant_light S H W d) H W dir vpos woe wo bD bS = Ok ig /\
    shape (pdf_raw ig) = [1; S; 1; H; W]%nat /\
    shape (colorDiffuse ig) = [1; 3; H; W]%nat.
Proof.
  intros Sd Hv Swo SbD SbS.
  destruct (integrate_returns self (constant_light S H W d) S H W dir vpos woe
              wo bD bS _ _ eq_refl eq_refl
              ltac:(cbn [shape]; rewrite Sd; reflexivity) Hv
              (fun _ => eq_refl) eq_refl Swo SbD SbS)
    as (ig & E & _ & Ep & Sc).
  exists ig. split; [exact E|]. split; [rewrite Ep; reflexivity | exact Sc].
Qed.

(** Lines 70-156 of [forward] on an image of even height and width with
    the Lambertian module in the "diffuse" branch: every stage before the
    tracing block returns, and the call returns as soon as the tracing
    block and the integration do. *)
Lemma forward_stages_return tr self lm albedo rough metal normal vpos S h w
  woe :
  imHeight self = Z.of_nat (2 * h) -> imWidth self = Z.of_nat (2 * w) ->
  brdf_type self = "diffuse"%string ->
  shape (v self) = [1; 3; 2 * h; 2 * w]%nat ->
  shape albedo = [1; 3; 2 * h; 2 * w]%nat ->
  shape normal = [1; 3; 2 * h; 2 * w]%nat ->
  rank rough = 4%nat -> rank metal = 4%nat -> (1 <= rank vpos)%nat ->
  lm_spp lm = S -> S <> 0%nat ->
  (forall v1 n1, sample_direction lm v1 n1 = Ok woe) ->
  shape woe = [1; S; 3; 2 * h; 2 * w]%nat ->
  exists ld bt,
    wo_emitter ld = woe /\
    shape (wo ld) = [1; S; 3; 2 * h; 2 * w]%nat /\
    shape (direction ld) = [S; (2 * h * (2 * w))%nat; 3%nat] /\
    shape (brdfDiffuse bt) = [1; S; 3; 2 * h; 2 * w]%nat /\
    shape (brdfSpec bt) = [1; S; 3; 2 * h; 2 * w]%nat /\
    shape (pdfs bt) = [1; S; 1; 2 * h; 2 * w]%nat /\
    forall traced dir vp ig,
      (if use_ssrt self then
         sl <- ssrt_block tr self (clip_window (2 * h) (2 * w))
                          (2 * h) (2 * w) (2 * h) (2 * w) (direction ld)
                          albedo rough metal normal vpos ;;
         Ok (Some sl, ssrt_direction_out sl, ssrt_vpos sl)
       else Ok (None, direction ld, vpos)) = Ok (traced, dir, vp) ->
      integrate self lm (2 * h) (2 * w) dir vp (wo_emitter ld) (wo ld)
                (brdfDiffuse bt) (brdfSpec bt) = Ok ig ->
      exists l,
        forward_locals lambert tr self lm albedo rough metal normal vpos
        = Ok l /\
        l_irow l = (2 * h)%nat /\ l_icol l = (2 * w)%nat /\
        l_light_dir l = ld /\ l_brdf l = bt /\ l_ssrt l = traced /\
        l_integrals l = ig /\
        shape (l_wi_mask l) = [1; 1; 2 * h; 2 * w]%nat.
Proof.
  intros HH HW Hk Sv Sa Sn Rr Rm Rv HSl HS Hsd Swoe0.
  destruct (local_frames_returns normal (2 * h)%nat (2 * w)%nat Sn)
    as (f & Ef & _ & Scx & Scy & Scz & Sfx & Sfy & Sfz & _).
  destruct (to_camera_returns self f (2 * h)%nat (2 * w)%nat Sv Sfx Sfy Sfz)
    as (vd & Evd & Swi & Sm).
  destruct (clip_even h w 3 4 (wi vd)) as (wi' & Ewi & Swi' & _);
    try (unfold rank; rewrite Swi; cbn; lia); try lia;
    try (rewrite Swi; reflexivity).
  destruct (clip_even h w 2 3 (wi_mask vd)) as (wm' & Ewm & Swm' & _);
    try (unfold rank; rewrite Sm; cbn; lia); try lia;
    try (rewrite Sm; reflexivity).
  destruct (clip_even h w 2 3 (cx f)) as (cx' & Ecx & _);
    try (unfold rank; rewrite Scx; cbn; lia); try lia;
    try (rewrite Scx; reflexivity).
  destruct (clip_even h w 2 3 (cy f)) as (cy' & Ecy & _);
    try (unfold rank; rewrite Scy; cbn; lia); try lia;
    try (rewrite Scy; reflexivity).
  destruct (clip_even h w 2 3 (cz f)) as (cz' & Ecz & _);
    try (unfold rank; rewrite Scz; cbn; lia); try lia;
    try (rewrite Scz; reflexivity).
  destruct (clip_even h w 2 3 albedo) as (ac & Eac & Sac & _);
    try (unfold rank; rewrite Sa; cbn; lia); try lia;
    try (rewrite Sa; reflexivity).
  destruct (clip_returns (clip_window (2 * h)%nat (2 * w)%nat) 2 3 metal)
    as (mc & Emc); try lia.
  destruct (clip_returns (clip_window (2 * h)%nat (2 * w)%nat) 2 3 rough)
    as (rc & Erc); try lia.
  assert (Rn : (1 <= rank normal)%nat) by (unfold rank; rewrite Sn; cbn; lia).
  destruct (to_light_returns self lm f normal vpos
              _ _ woe S (2 * h)%nat (2 * w)%nat Sfx Sfy Sfz
              (unsqueeze_returns 1 vpos Rv) (unsqueeze_returns 1 normal Rn)
              (Hsd _ _) Swoe0 HSl HS)
    as (ld & Eld & Ewoe & Sdir & _).
  assert (Swoe : shape (wo_emitter ld) = [1; S; 3; 2 * h; 2 * w]%nat)
    by (rewrite Ewoe; exact Swoe0).
  destruct (wo_local _ _ _ _ _ _ S (2 * h)%nat (2 * w)%nat Eld Sfx Sfy Sfz
              Swoe) as [Swo _].
  rewrite Sa in Sac.
  destruct (evaluate_brdf_lambert self lm ac rc mc wi'
              (wo ld) S (2 * h)%nat (2 * w)%nat Hk HSl Sac Swo)
    as (bt & Ebt & SbD & SbS & Sp & _).
  exists ld, bt. repeat (split; [assumption|]).
  intros traced dir vp ig Et Eig.
  unfold forward_locals. rewrite Sa. unfold assert.
  rewrite HH, HW, !Z.eqb_refl. cbn [Nat.eqb andb bind].
  rewrite Ef. cbn [bind]. rewrite Evd. cbn [bind].
  rewrite Ewi, Ewm, Ecx, Ecy, Ecz, Eac, Emc, Erc. cbn [bind].
  unfold torch.size, rank. rewrite Swi', Swi.
  cbn [length Nat.ltb Nat.leb dim nth bind].
  rewrite Eld. cbn [bind]. rewrite Ebt. cbn [bind].
  rewrite Et. cbn [bind]. rewrite Eig. cbn [bind].
  eexists. split; [reflexivity|].
  cbn [l_irow l_icol l_light_dir l_integrals l_brdf l_wi_mask l_ssrt].
  rewrite Swm', Sm. auto 10.
Qed.

(** A whole [forward] call on the scene: an image of even height and
    width, the Lambertian module in the "diffuse" branch, the constant
    lighting model, no tracing.  The roughness and metalness tensors only
    need four axes. *)
Lemma forward_scene_returns tr self albedo rough metal normal vpos S h w d :
  imHeight self = Z.of_nat (2 * h) -> imWidth self = Z.of_nat (2 * w) ->
  brdf_type self = "diffuse"%string -> use_ssrt self = false ->
  shape (v self) = [1; 3; 2 * h; 2 * w]%nat ->
  shape albedo = [1; 3; 2 * h; 2 * w]%nat ->
  shape normal = [1; 3; 2 * h; 2 * w]%nat ->
  rank rough = 4%nat -> rank metal = 4%nat -> (1 <= rank vpos)%nat ->
  S <> 0%nat ->
  exists l,
    forward_locals lambert tr self (constant_light S (2 * h) (2 * w) d)
                   albedo rough metal normal vpos = Ok l /\
    l_irow l = (2 * h)%nat /\ l_icol l = (2 * w)%nat /\
    shape (wo (l_light_dir l)) = [1; S; 3; 2 * h; 2 * w]%nat /\
    shape (pdf_raw (l_integrals l)) = [1; S; 1; 2 * h; 2 * w]%nat /\
    shape (pdfs (l_brdf l)) = [1; S; 1; 2 * h; 2 * w]%nat /\
    shape (wo_emitter (l_light_dir l)) = [1; S; 3; 2 * h; 2 * w]%nat /\
    shape (l_wi_mask l) = [1; 1; 2 * h; 2 * w]%nat.
Proof.
  intros HH HW Hk Hs Sv Sa Sn Rr Rm Rv HS.
  destruct (forward_stages_return tr self
              (constant_light S (2 * h) (2 * w) d) albedo rough metal normal
              vpos S h w _ HH HW Hk Sv Sa Sn Rr Rm Rv eq_refl HS
              (fun _ _ => eq_refl) eq_refl)
    as (ld & bt & Ewoe & Swo & Sdir & SbD & SbS & Sp & Hrest).
  destruct (integrate_constant self S (2 * h)%nat (2 * w)%nat d (direction ld)
              vpos (wo_emitter ld) (wo ld) (brdfDiffuse bt) (brdfSpec bt)
              Sdir Rv Swo SbD SbS)
    as (ig & Eig & Spdf & _).
  destruct (Hrest None (direction ld) vpos ig) as (l & El & Hr & Hc & Hld & Hbt
                                                   & _ & Hig & Sm).
  { rewrite Hs. reflexivity. }
  { exact Eig. }
  exists l. split; [exact El|]. rewrite Hld, Hbt, Hig, Ewoe.
  auto 10.
Qed.

(** ** The shape checks of [forward] (C9) *)

Lemma forward_of_locals brdf tr self lm albedo rough metal normal vpos l :
  forward_locals brdf tr self lm albedo rough metal normal vpos = Ok l ->
  forward brdf tr self lm albedo rough metal normal vpos
  = Ok (colorDiffuse (l_integrals l), colorSpec (l_integrals l),
        l_wi_mask l, shading (l_integrals l)).
Proof. intros H. unfold forward. now rewrite H. Qed.

(** C9, counterexample: on a 2 x 2 layer built by the constructor, a call
    whose roughness has batch size 2 and spatial size 5 x 7 returns. *)
Lemma forward_accepts_mismatched_rough :
  shape rough_batch2 = [2; 1; 5; 7]%nat /\
  exists self out,
    __init__ 2 2 85 [0; 0; 0] "diffuse" 1 true false false = Ok self /\
    forward lambert flat_tracer self (constant_light 1 2 2 (0, 0, 1))
            (grey 2 2) rough_batch2 (metal_zero 2 2) (normal_up 2 2)
            (vpos_flat 2 2) = Ok out.
Proof.
  split; [reflexivity|].
  destruct (init_returns 2 2 85 [0; 0; 0] "diffuse" 1 true false false)
    as (self & E & HW & HH & Hk & _ & _ & Hs & _ & Sv); [lia | lia | reflexivity |].
  destruct (forward_scene_returns flat_tracer self (grey 2 2) rough_batch2
              (metal_zero 2 2) (normal_up 2 2) (vpos_flat 2 2) 1 1 1 (0, 0, 1))
    as (l & Hl & _); try reflexivity; try assumption; try (cbn; lia).
  exists self. eexists. split; [exact E|].
  apply forward_of_locals. exact Hl.
Qed.

(** C9, amended: [forward] checks the shape of the albedo only.  An
    albedo of shape (bn, c, row, col) with bn <> 1 or (row, col) different
    from the constructed (imHeight, imWidth) raises AssertionError before
    anything else is computed, whatever the collaborators and the other
    inputs are. *)
Theorem forward_checks_albedo brdf tr self lm albedo rough metal normal vpos
  bn ch row col :
  shape albedo = [bn; ch; row; col] ->
  bn <> 1%nat \/ Z.of_nat row <> imHeight self
  \/ Z.of_nat col <> imWidth self ->
  forward brdf tr self lm albedo rough metal normal vpos
  = Raise AssertionError.
Proof.
  intros Sa Hbad. unfold forward, forward_locals. rewrite Sa. unfold assert.
  destruct (Nat.eqb_spec bn 1) as [->|Hbn]; [|reflexivity]. cbn [bind].
  destruct (Z.eqb_spec (Z.of_nat row) (imHeight self)) as [Hr|Hr];
    [|reflexivity].
  destruct (Z.eqb_spec (Z.of_nat col) (imWidth self)) as [Hc|Hc];
    [|reflexivity].
  exfalso. destruct Hbad as [Hbad|[Hbad|Hbad]]; contradiction.
Qed.

(** ** The local direction to the light (C3) *)

Lemma div_floor_pos x y : 0 < x -> 0 < x / Rmax y 1e-6.
Proof.
  intros Hx. apply Rdiv_lt_0_compat; [exact Hx|].
  apply Rlt_le_trans with 1e-6; [lra | apply Rmax_r].
Qed.

(** C3, counterexample: a light direction (1, 0, 0) on a surface with
    normal (0, 0, 1).  The code's local wo has z = 0, below the floor
    1e-3; the treatment the view direction gets would give z > 0. *)
Lemma wo_is_not_clamped :
  exists self f ld t,
    __init__ 2 2 85 [0; 0; 0] "diffuse" 1 true false false = Ok self /\
    local_frames (normal_up 2 2) = Ok f /\
    to_light self (constant_light 1 2 2 (1, 0, 0)) f
             (normal_up 2 2) (vpos_flat 2 2) = Ok ld /\
    to_light_as_claimed self (constant_light 1 2 2 (1, 0, 0)) f
                        (normal_up 2 2) (vpos_flat 2 2) = Ok t /\
    elem (wo ld) [0; 0; 2; 0; 0]%nat = 0 /\
    0 < elem t [0; 0; 2; 0; 0]%nat.
Proof.
  destruct (init_returns 2 2 85 [0; 0; 0] "diffuse" 1 true false false)
    as (self & E & _ & _ & _ & _ & Hds & _); [lia | lia | reflexivity |].
  destruct (local_frames_returns (normal_up 2 2) 2 2 eq_refl)
    as (f & Ef & Ecf & _ & _ & _ & Sfx & Sfy & Sfz & Hf).
  set (lm := constant_light 1 2 2 (1, 0, 0)).
  destruct (to_light_returns self lm f (normal_up 2 2) (vpos_flat 2 2)
              _ _ _ 1 2 2 Sfx Sfy Sfz
              (unsqueeze_returns 1 (vpos_flat 2 2) ltac:(cbn; lia))
              (unsqueeze_returns 1 (normal_up 2 2) ltac:(cbn; lia))
              eq_refl eq_refl eq_refl ltac:(lia))
    as (ld & Eld & Ewoe & _).
  assert (Swoe : shape (wo_emitter ld) = [1; 1; 3; 2; 2]%nat)
    by (rewrite Ewoe; reflexivity).
  destruct (wo_local _ _ _ _ _ _ 1 2 2 Eld Sfx Sfy Sfz Swoe) as [Swo Hwo].
  (* the frame: normal_z is (0, 0, 1) *)
  destruct (create_frame_returns (normal_up 2 2) 1e-6 1 [2; 2]%nat eq_refl)
    as (x & y & z & Ecf' & _ & _ & _ & Hz & _).
  rewrite Ecf in Ecf'. injection Ecf' as <- <- <-.
  assert (Hz0 : elem (cz f) [0; 0; 0; 0]%nat = 0).
  { rewrite Hz. cbn [normal_up elem nth]. unfold Rdiv. ring. }
  destruct (Hf 2%nat 0%nat 0%nat) as (Hfx & _ & _); [lia|].
  cbn [axis] in Hfx.
  (* the claimed treatment returns *)
  assert (Et : exists t,
             to_light_as_claimed self lm f (normal_up 2 2) (vpos_flat 2 2) = Ok t
             /\ 0 < elem t [0; 0; 2; 0; 0]%nat).
  { unfold to_light_as_claimed.
    rewrite !unsqueeze_returns
      by (unfold rank; rewrite ?Sfx, ?Sfy, ?Sfz; cbn; lia).
    cbn [bind lm constant_light sample_direction].
    rewrite Sfx, Sfy, Sfz. cbn [insert_at].
    match goal with
    | |- context [frame_project 2 ?w ?a ?b ?c] =>
        destruct (frame_project_5d w a b c 1 2 2 eq_refl eq_refl eq_refl eq_refl)
          as (raw & -> & Sr & _)
    end.
    cbn [bind].
    destruct (fold_mask_clamp_returns (double_sided self) 2 raw)
      as (g & Eg & _); [unfold rank; rewrite Sr; cbn; lia
                       | rewrite Sr; cbn; lia |].
    rewrite Eg. cbn [bind]. eexists. split; [reflexivity|].
    apply fold_mask_clamp_ok in Eg as (_ & Hc & _ & Hu).
    rewrite Hu. apply div_floor_pos.
    apply Rlt_le_trans with 1e-3; [lra | apply Hc; reflexivity]. }
  destruct Et as (t & Et & Hpos).
  exists self, f, ld, t. repeat (split; [assumption|]). split; [|exact Hpos].
  rewrite Hwo by lia. rewrite Hds. unfold fold_z. cbn [andb Nat.eqb].
  rewrite Hfx, Hz0, Ewoe. cbn [lm constant_light sample_direction elem nth fst snd].
  replace (1 * 0 + 0 * elem (fy f) [0; 2; 0; 0]%nat
           + 0 * elem (fz f) [0; 2; 0; 0]%nat) with 0 by ring.
  apply Rabs_R0.
Qed.

(** ** The integrator *)

Lemma integrate_calls self lm irow icol direction vpos woe wo bD bS ig :
  integrate self lm irow icol direction vpos woe wo bD bS = Ok ig ->
  lm_call lm direction = Ok (light_raw ig) /\
  exists vpos1,
    torch.unsqueeze 1 vpos = Ok vpos1 /\
    pdf_direction lm vpos1 woe = Ok (pdf_raw ig).
Proof.
  unfold integrate. intros H.
  step H light_raw0 El. step H vpos1 Ev. step H pdf0 Ep.
  step H z Ez. step H l5 El5. step H lp Elp. step H ln Eln. step H lt Elt.
  step H bd Ebd. step H cd Ecd. step H cs Ecs. step H sh Esh.
  injection H as <-. cbn. split; [assumption|]. exists vpos1. auto.
Qed.

Lemma integrate_ok self lm irow icol direction vpos woe wo bD bS ig S :
  integrate self lm irow icol direction vpos woe wo bD bS = Ok ig ->
  lm_spp lm = S ->
  shape wo = [1; S; 3; irow; icol]%nat ->
  shape (pdf_raw ig) = [1; S; 1; irow; icol]%nat ->
  shape bD = [1; S; 3; irow; icol]%nat ->
  shape bS = [1; S; 3; irow; icol]%nat ->
  lm_call lm direction = Ok (light_raw ig) /\
  shape (colorDiffuse ig) = [1; 3; irow; icol]%nat /\
  shape (colorSpec ig) = [1; 3; irow; icol]%nat /\
  (forall c i j, (c < 3)%nat -> (i < irow)%nat -> (j < icol)%nat ->
     elem (colorDiffuse ig) [0; c; i; j]%nat =
     sum_n (fun s =>
              elem bD [0; s; c; i; j]%nat
              * (radiance (light_raw ig) S irow icol s c i j
                 * Rmax (elem wo [0; s; 2; i; j]%nat) 0
                 / Rmax (elem (pdf_raw ig) [0; s; 0; i; j]%nat) 0.001)) S
     / INR S) /\
  (forall c i j, (c < 3)%nat -> (i < irow)%nat -> (j < icol)%nat ->
     elem (colorSpec ig) [0; c; i; j]%nat =
     if use_specular self then
       sum_n (fun s =>
                elem bS [0; s; c; i; j]%nat
                * (radiance (light_raw ig) S irow icol s c i j
                   * Rmax (elem wo [0; s; 2; i; j]%nat) 0
                   / Rmax (elem (pdf_raw ig) [0; s; 0; i; j]%nat) 0.001)) S
       / INR S
     else 0) /\
  (use_specular self = false -> forall idx, elem (colorSpec ig) idx = 0).
Proof.
  intros H HS Swo Spdf SbD SbS. pose proof H as H0. unfold integrate in H.
  step H light_raw0 El. step H vpos1 Ev. step H pdf0 Ep.
  rewrite HS in H.
  unfold torch.slice, torch.reshape, torch.permute, rank in H.
  rewrite Swo in H. cbn [length Nat.ltb Nat.leb dim nth] in H.
  assert (Hp : pyslice 3 (Some 2%Z) None = (2%nat, 1%nat)) by reflexivity.
  rewrite Hp in H. cbn [bind set_at update_at] in H.
  destruct (Nat.eqb_spec (numel [1; S; irow; icol; 3]%nat)
                         (numel (shape light_raw0))) as [Hnum|];
    [|discriminate H].
  cbn [bind shape length Nat.eqb andb torch.is_perm forallb existsb seq orb
       List.map dim nth] in H.
  unfold torch.mul, torch.div, torch.binop, torch.mean, rank in H.
  cbn [shape torch.clamp_min torch.map] in H.
  assert (Spdf0 : shape pdf0 = [1; S; 1; irow; icol]%nat).
  { destruct (integrate_calls _ _ _ _ _ _ _ _ _ _ _ H0) as (_ & v1 & Ev1 & Ep1).
    rewrite Ev in Ev1. injection Ev1 as <-. rewrite Ep in Ep1.
    injection Ep1 as ->. exact Spdf. }
  rewrite Spdf0, SbD, SbS in H.
  repeat (bcast_in H; cbn [bind shape length Nat.ltb Nat.leb dim nth remove_at] in H).
  assert (Hbidx : forall s c i j,
             (s < S)%nat -> (c < 3)%nat -> (i < irow)%nat -> (j < icol)%nat ->
             bidx [1; S; 3; irow; icol]%nat [0; s; c; i; j]%nat
             = [0; s; c; i; j]%nat /\
             bidx [1; S; 1; irow; icol]%nat [0; s; c; i; j]%nat
             = [0; s; 0; i; j]%nat).
  { intros s c i j Hs Hc Hi Hj.
    cbn [bidx length Nat.sub skipn map2 Nat.eqb].
    now rewrite ?(bsel_lt S s Hs), ?(bsel_lt irow i Hi), ?(bsel_lt icol j Hj). }
  destruct (use_specular self);
    cbn [bind shape length Nat.ltb Nat.leb dim nth remove_at torch.zeros_like]
      in H;
    clear Spdf H0; injection H as <-;
    cbn [light_raw pdf_raw colorDiffuse colorSpec shape];
    (split; [exact El|]); (split; [reflexivity|]); (split; [reflexivity|]);
    cbn [elem insert_at dim shape nth].
  - split; [|split; [|discriminate]];
      intros c i j Hc Hi Hj;
      apply (f_equal (fun x => x / INR S)); apply sum_n_ext; intros s Hs;
      destruct (Hbidx s c i j Hs Hc Hi Hj) as [B3 B1];
      rewrite !B3, !B1; reflexivity.
  - split; [|split; [reflexivity|reflexivity]].
    intros c i j Hc Hi Hj.
    apply (f_equal (fun x => x / INR S)); apply sum_n_ext; intros s Hs.
    destruct (Hbidx s c i j Hs Hc Hi Hj) as [B3 B1].
    rewrite !B3, !B1; reflexivity.
Qed.

Lemma forward_ok brdf tr self lm albedo rough metal normal vpos out :
  forward brdf tr self lm albedo rough metal normal vpos = Ok out ->
  exists l,
    forward_locals brdf tr self lm albedo rough metal normal vpos = Ok l /\
    out = (colorDiffuse (l_integrals l), colorSpec (l_integrals l),
           l_wi_mask l, shading (l_integrals l)).
Proof.
  unfold forward. intros H. step H l El. injection H as <-. eauto.
Qed.

(** ** The traced direction *)

(** Peel every [bind] off a hypothesis [... = Ok r]. *)
Ltac steps H :=
  repeat (let x := fresh "x" in
          let E := fresh "Eq" in
          apply bind_ok in H as (x & E & H); cbn beta in H;
          lazymatch type of x with
          | prod (prod _ _) _ => destruct x as [[? ?] ?]
          | prod _ _ => destruct x as [? ?]
          | _ => idtac
          end).

Lemma ssrt_block_ok tr self w row col irow icol direction albedo rough metal
  normal vpos sl :
  ssrt_block tr self w row col irow icol direction albedo rough metal normal
             vpos = Ok sl ->
  torch.slice 0 (Some (-1)%Z) None direction = Ok (ssrt_direction_out sl) /\
  torch.reshape_infer [0; 3]%nat 0 (ssrt_direction_out sl)
    = Ok (ssrt_direction sl) /\
  (exists N,
     torch.size (ssrt_direction sl) 0 = Ok N /\
     ssrt tr (ssrt_depth sl) normal (torch.zeros_long [N]) (ssrt_proj sl)
          (ssrt_X sl) (ssrt_Y sl) (ssrt_direction sl) (ssrt_depth_start sl)
     = Ok (ssrt_uv sl, ssrt_mask sl, ssrt_dz sl)) /\
  trace_result (ssrt_uv sl) (ssrt_mask sl) (ssrt_dz sl)
    = Ok (kw_uv (kwargs sl), kw_uncertainty (kwargs sl)) /\
  kw_directions (kwargs sl) = ssrt_direction_out sl /\
  clip w 2 3 vpos = Ok (ssrt_vpos sl).
Proof.
  unfold ssrt_block. intros H. steps H. injection H as <-.
  cbn [ssrt_direction_out ssrt_direction ssrt_depth ssrt_proj ssrt_X ssrt_Y
       ssrt_depth_start ssrt_uv ssrt_mask ssrt_dz kwargs kw_uv kw_uncertainty
       kw_directions ssrt_vpos].
  repeat split; try assumption.
  eexists. split; eassumption.
Qed.

Lemma pyslice_last n :
  n <> 0%nat -> pyslice n (Some (-1)%Z) None = ((n - 1)%nat, 1%nat).
Proof.
  intros Hn. unfold pyslice, slice_bound. cbn [Z.ltb Z.compare].
  f_equal; lia.
Qed.

(** Line 138: [direction[s, n, c]] is channel [c] of sample [s] at pixel
    number [n] in row-major order. *)
Lemma direction_layout self lm f normal vpos ld S H W :
  to_light self lm f normal vpos = Ok ld ->
  shape (wo_emitter ld) = [1; S; 3; H; W]%nat ->
  lm_spp lm = S ->
  S <> 0%nat /\
  shape (direction ld) = [S; (H * W)%nat; 3%nat] /\
  forall s n c, (s < S)%nat -> (n < H * W)%nat -> (c < 3)%nat ->
    elem (direction ld) [s; n; c]
    = elem (wo_emitter ld) [0%nat; s; c; (n / W)%nat; n mod W].
Proof.
  intros Hl Sw HS.
  apply to_light_ok in Hl
    as (vpos1 & normal1 & fx1 & fy1 & fz1 & raw & d1 & d2 & _ & _ & _
        & _ & _ & _ & _ & _ & Ed1 & Ed2 & Ed3).
  apply permute_ok in Ed1 as (_ & S1 & H1).
  apply permute_ok in Ed2 as (_ & S2 & H2).
  rewrite Sw in S1. cbn [List.map dim nth] in S1.
  rewrite S1 in S2. cbn [List.map dim nth] in S2.
  rewrite HS in Ed3.
  assert (HS0 : S <> 0%nat).
  { intros ->. unfold torch.reshape_infer in Ed3. cbn in Ed3. discriminate. }
  split; [exact HS0|].
  rewrite (reshape_infer_mid d2 S (H * W) 3) in Ed3
    by (try assumption; try lia; rewrite S2; cbn [numel fold_right]; ring).
  injection Ed3 as <-. cbn [shape elem]. split; [reflexivity|].
  intros s n c Hs Hn Hc. rewrite S2.
  change (s * (H * W * 3) + (n * 3 + (c * 1 + 0)))%nat
    with (ravel [S; (H * W)%nat; 3%nat] [s; n; c]).
  rewrite unravel_samples by assumption.
  rewrite H2. cbn [List.map seq length nth torch.index_of Nat.eqb].
  rewrite H1. cbn [List.map seq length nth torch.index_of Nat.eqb].
  reflexivity.
Qed.

(** Running a chain of binds on closed inputs: each operation is
    evaluated to its head constructor and its value is kept as a local
    definition. *)
Lemma bind_returns {A B : Type} (m : result A) (k : A -> result B)
  (P : B -> Prop) x :
  m = Ok x ->
  (let v := x in exists r, k v = Ok r /\ P r) ->
  exists r, bind m k = Ok r /\ P r.
Proof. intros -> H. exact H. Qed.

Lemma bind_returns2 {A1 A2 B : Type} (m : result (A1 * A2))
  (k : A1 * A2 -> result B) (P : B -> Prop) x1 x2 :
  m = Ok (x1, x2) ->
  (let v1 := x1 in let v2 := x2 in exists r, k (v1, v2) = Ok r /\ P r) ->
  exists r, bind m k = Ok r /\ P r.
Proof. intros -> H. exact H. Qed.

Lemma bind_returns3 {A1 A2 A3 B : Type} (m : result (A1 * A2 * A3))
  (k : A1 * A2 * A3 -> result B) (P : B -> Prop) x1 x2 x3 :
  m = Ok (x1, x2, x3) ->
  (let v1 := x1 in let v2 := x2 in let v3 := x3 in
   exists r, k (v1, v2, v3) = Ok r /\ P r) ->
  exists r, bind m k = Ok r /\ P r.
Proof. intros -> H. exact H. Qed.

Ltac run1 :=
  lazymatch goal with
  | |- exists r, bind ?m _ = Ok r /\ _ =>
    lazymatch type of m with
    | result (_ * _ * _)%type =>
        eapply bind_returns3; [reflexivity|]; intros ? ? ?
    | result (_ * _)%type =>
        eapply bind_returns2; [reflexivity|]; intros ? ?
    | _ => eapply bind_returns; [reflexivity|]; intros ?
    end
  end;
  cbv beta iota.

Ltac run := repeat run1.

Lemma fold_n_const {A : Type} (op : A -> A -> A) f n a c :
  (forall k, (k < n)%nat -> f k = c) -> a = c -> op c c = c ->
  fold_n op f n a = c.
Proof.
  intros Hf -> Hop. induction n as [|n IH]; cbn; [reflexivity|].
  rewrite IH by (intros; apply Hf; lia). rewrite Hf by lia. exact Hop.
Qed.

Lemma Rmax_same x : Rmax x x = x.
Proof. unfold Rmax. destruct (Rle_dec x x); reflexivity. Qed.

Lemma py_div_returns {B : Type} a b (k : R -> result B) (P : B -> Prop) :
  b <> 0 ->
  (let v := a / b in exists r, k v = Ok r /\ P r) ->
  exists r, bind (py_div a b) k = Ok r /\ P r.
Proof. intros Hb H. rewrite py_div_ok by exact Hb. exact H. Qed.

(** The tracing block (lines 163-229) on the flat 2 x 2 scene: it
    returns for any number of sampled directions, keeping one direction
    per pixel. *)
Lemma ssrt_block_scene self dir S :
  imWidth self = 2%Z -> imHeight self = 2%Z -> spp self = 2%Z ->
  shape dir = [S; 4; 3]%nat -> S <> 0%nat ->
  exists sl,
    ssrt_block flat_tracer self (clip_window 2 2) 2 2 2 2 dir
               (grey 2 2) (rough_half 2 2) (metal_zero 2 2) (normal_up 2 2)
               (vpos_flat 2 2) = Ok sl /\
    shape (ssrt_direction_out sl) = [1; 4; 3]%nat /\
    shape (ssrt_vpos sl) = [1; 3; 2; 2]%nat.
Proof.
  intros HW HH Hn Sd HS. unfold ssrt_block.
  rewrite HW, HH, Hn.
  unfold torch.slice at 1. unfold rank. rewrite Sd.
  cbn [length Nat.ltb Nat.leb dim nth].
  rewrite pyslice_last by exact HS. cbn [bind set_at update_at].
  rewrite (reshape_infer_front _ 4 3) by (try lia; reflexivity).
  cbn [bind].
  apply py_div_returns; [cbn; lra|]; intros aspect.
  apply py_div_returns; [unfold aspect; cbn; lra|]; intros q.
  run.
  apply py_div_returns; [cbn; lra|]; intros aspect'.
  apply py_div_returns; [|intros near].
  { match goal with |- ?b <> 0 => unfold b end.
    match goal with
    | |- fold_n _ _ ?n _ <> 0 => replace n with 3%nat by reflexivity
    end.
    rewrite fold_n_const with (c := - -1);
      [lra | | reflexivity | apply Rmax_same].
    intros k Hk. do 3 (destruct k; [reflexivity|]). lia. }
  run.
  eexists; split; [reflexivity|]. split; reflexivity.
Qed.

(** ** The properties on a concrete scene

    A 2 x 2 layer built by the constructor, the Lambertian module, flat
    geometry facing the camera and light from straight above. *)

(** The constructor and an untraced [forward] call return on the scene. *)
Lemma flat_scene_returns :
  exists self l,
    __init__ 2 2 85 [0; 0; 0] "diffuse" 2 true false false = Ok self /\
    use_specular self = false /\
    forward_locals lambert flat_tracer self (constant_light 2 2 2 (0, 0, 1))
                   (grey 2 2) (rough_half 2 2) (metal_zero 2 2)
                   (normal_up 2 2) (vpos_flat 2 2) = Ok l /\
    l_irow l = 2%nat /\ l_icol l = 2%nat /\
    shape (wo (l_light_dir l)) = [1; 2; 3; 2; 2]%nat /\
    shape (pdf_raw (l_integrals l)) = [1; 2; 1; 2; 2]%nat /\
    shape (pdfs (l_brdf l)) = [1; 2; 1; 2; 2]%nat /\
    shape (wo_emitter (l_light_dir l)) = [1; 2; 3; 2; 2]%nat /\
    shape (l_wi_mask l) = [1; 1; 2; 2]%nat.
Proof.
  destruct (init_returns 2 2 85 [0; 0; 0] "diffuse" 2 true false false)
    as (self & E & HW & HH & Hk & _ & _ & Hs & Hsp & Sv);
    [lia | lia | reflexivity |].
  assert (Rv : (1 <= rank (vpos_flat 2 2))%nat) by (unfold rank; cbn; lia).
  destruct (forward_scene_returns flat_tracer self (grey 2 2) (rough_half 2 2)
              (metal_zero 2 2) (normal_up 2 2) (vpos_flat 2 2) 2 1 1 (0, 0, 1)
              HH HW Hk Hs Sv eq_refl eq_refl eq_refl eq_refl Rv
              ltac:(discriminate))
    as (l & Hl & Hfacts).
  exists self, l. split; [exact E|]. split; [exact Hsp|].
  split; [exact Hl|]. exact Hfacts.
Qed.

(** C9 on the scene: an albedo with batch size 2 raises AssertionError. *)
Lemma forward_checks_albedo_witness :
  exists self,
    __init__ 2 2 85 [0; 0; 0] "diffuse" 2 true false false = Ok self /\
    shape albedo_batch2 = [2; 3; 2; 2]%nat /\
    forward lambert flat_tracer self (constant_light 2 2 2 (0, 0, 1))
            albedo_batch2 (rough_half 2 2) (metal_zero 2 2) (normal_up 2 2)
            (vpos_flat 2 2) = Raise AssertionError.
Proof.
  destruct (init_returns 2 2 85 [0; 0; 0] "diffuse" 2 true false false)
    as (self & E & _); [lia | lia | reflexivity |].
  exists self. split; [exact E|]. split; [reflexivity|].
  apply (forward_checks_albedo lambert flat_tracer self
           (constant_light 2 2 2 (0, 0, 1)) albedo_batch2 (rough_half 2 2)
           (metal_zero 2 2) (normal_up 2 2) (vpos_flat 2 2) 2 3 2 2 eq_refl).
  left. lia.
Defined.

(** C10 on the scene: the BRDF stage returns, with density 1 and the
    diffuse term equal to the expanded evaluation. *)
Lemma brdf_density_is_one_witness :
  exists self bt,
    __init__ 2 2 85 [0; 0; 0] "diffuse" 2 true false false = Ok self /\
    evaluate_brdf lambert self (constant_light 2 2 2 (0, 0, 1))
                  (grey 2 2) (rough_half 2 2) (metal_zero 2 2)
                  (torch.ones [1; 1; 3; 2; 2]%nat)
                  (torch.ones [1; 2; 3; 2; 2]%nat) 2 2 = Ok bt /\
    (forall idx, elem (pdfs_brdf bt) idx = 1) /\
    (forall idx,
       elem (brdfDiffuse bt) idx =
       elem (eval_diff bt)
            (bidx (shape (eval_diff bt)) (bidx [1; 2; 3; 2; 2]%nat idx))).
Proof.
  destruct (init_returns 2 2 85 [0; 0; 0] "diffuse" 2 true false false)
    as (self & E & _ & _ & Hk & _); [lia | lia | reflexivity |].
  destruct (evaluate_brdf_lambert self (constant_light 2 2 2 (0, 0, 1))
              (grey 2 2) (rough_half 2 2) (metal_zero 2 2)
              (torch.ones [1; 1; 3; 2; 2]%nat) (torch.ones [1; 2; 3; 2; 2]%nat)
              2 2 2 Hk eq_refl eq_refl eq_refl) as (bt & Ebt & _).
  destruct (brdf_density_is_one _ _ _ _ _ _ _ _ _ _ bt Ebt)
    as (H1 & _ & H2 & _).
  exists self, bt. split; [exact E|]. split; [exact Ebt|].
  split; [exact H1|]. exact H2.
Defined.

(** ** Positions from a depth map: [depth_to_vpos] *)

Lemma max_nonempty (t : tensor R) row col :
  shape t = [row; col] -> row <> 0%nat -> col <> 0%nat ->
  exists m, torch.max t = Ok m.
Proof.
  intros Hs Hr Hc. unfold torch.max, torch.reduce_all. rewrite Hs.
  destruct (numel [row; col]) eqn:E; [|eauto].
  cbn in E. nia.
Qed.

(** The pixel-centre coordinates of lines 283-286: column [j] of [n]
    columns is at (2j + 1) / n - 1, and rows count downwards from the
    top. *)
Lemma depth_to_vpos_returns depth fov normalize row col :
  shape depth = [row; col] -> row <> 0%nat -> col <> 0%nat ->
  exists dmax v vp,
    torch.max depth = Ok dmax /\
    depth_to_vpos depth fov false normalize = Ok v /\
    depth_to_vpos depth fov true normalize = Ok vp /\
    shape v = [row; col; 3%nat] /\
    shape vp = [3%nat; row; col] /\
    (forall c i j, elem vp [c; i; j] = elem v [i; j; c]) /\
    forall i j, (i < row)%nat -> (j < col)%nat ->
      let d := if normalize then elem depth [i; j] / dmax
               else elem depth [i; j] in
      let t := tan (math.radians fov / 2) in
      elem v [i; j; 0%nat] = d * ((2 * INR j + 1) / INR col - 1) * t /\
      elem v [i; j; 1%nat]
      = d * (1 - (2 * INR i + 1) / INR row) * (t * INR row / INR col) /\
      elem v [i; j; 2%nat] = - d.
Proof.
  intros Hs Hr Hc.
  destruct (max_nonempty depth row col Hs Hr Hc) as [dmax Hmax].
  assert (Rr : INR row <> 0) by (apply not_0_INR; exact Hr).
  assert (Rc : INR col <> 0) by (apply not_0_INR; exact Hc).
  assert (Hq : INR col / INR row <> 0).
  { unfold Rdiv. apply Rmult_integral_contrapositive_currified;
      [exact Rc | apply Rinv_neq_0_compat; exact Rr]. }
  exists dmax.
  set (nd := if normalize then torch.map (fun x => x / dmax) depth else depth).
  assert (Snd : shape nd = [row; col])
    by (unfold nd; destruct normalize; cbn [torch.map shape]; exact Hs).
  assert (End : (if normalize
                 then dmax0 <- torch.max depth ;;
                      Ok (torch.map (fun x => x / dmax0) depth)
                 else Ok depth) = Ok nd)
    by (unfold nd; destruct normalize; [rewrite Hmax|]; reflexivity).
  assert (Hnd : forall i j,
             elem nd [i; j] = if normalize then elem depth [i; j] / dmax
                              else elem depth [i; j])
    by (intros; unfold nd; destruct normalize; reflexivity).
  clearbody nd.
  assert (Hrun : exists v,
             depth_to_vpos depth fov false normalize = Ok v /\
             depth_to_vpos depth fov true normalize
             = torch.permute [2; 0; 1]%nat v /\
             shape v = [row; col; 3%nat] /\
             forall i j, (i < row)%nat -> (j < col)%nat ->
               elem v [i; j; 0%nat]
               = elem nd [i; j] * ((INR j + 0.5) / INR col * 2 - 1)
                 * tan (math.radians fov / 2) /\
               elem v [i; j; 1%nat]
               = elem nd [i; j] * ((1 - (INR i + 0.5) / INR row) * 2 - 1)
                 * tan (2 * atan (tan (math.radians fov / 2)
                                  / (INR col / INR row)) / 2) /\
               elem v [i; j; 2%nat] = - elem nd [i; j]).
  { assert (P0 : pyindex 3 0 = Ok 0%nat) by reflexivity.
    assert (P1 : pyindex 3 1 = Ok 1%nat) by reflexivity.
    assert (P2 : pyindex 3 2 = Ok 2%nat) by reflexivity.
    eexists. split; [|split];
      [ unfold depth_to_vpos; rewrite Hs;
        rewrite (py_div_ok _ _ Rr); cbn [bind];
        rewrite (py_div_ok _ _ Hq); cbn [bind];
        rewrite End; cbn [bind];
        unfold torch.meshgrid; cbn [torch.map torch.arange shape bind];
        unfold torch.mul, torch.binop; cbn [shape]; rewrite Snd;
        rewrite !broadcast_shapes_refl; cbn [bind];
        unfold torch.select_set, rank;
        repeat (cbn [torch.zeros torch.map torch.neg shape length Nat.ltb
                     Nat.leb dim nth remove_at bind];
                rewrite ?P0, ?P1, ?P2, ?Snd, ?broadcast_shapes_refl,
                  ?shape_eqb_refl);
        reflexivity .. |].
    split; [reflexivity|].
    intros i j Hi Hj.
    assert (Hin : in_range [row; col] [i; j]) by (cbn; auto).
    cbn [elem nth Nat.eqb remove_at torch.map torch.neg torch.arange].
    rewrite !(bidx_in_range _ _ Hin). cbn [elem nth].
    rewrite <- !INR_IZR_INZ. auto. }
  destruct Hrun as (v & Ev & Ev' & Sv & Hv).
  assert (Hvp : exists vp, torch.permute [2; 0; 1]%nat v = Ok vp /\
                shape vp = [3%nat; row; col] /\
                forall c i j, elem vp [c; i; j] = elem v [i; j; c]).
  { unfold torch.permute, rank. rewrite Sv.
    cbn [length Nat.eqb andb torch.is_perm forallb existsb seq orb].
    eexists. split; [reflexivity|]. split; [reflexivity|].
    intros. reflexivity. }
  destruct Hvp as (vp & Evp & Svp & Hvp).
  exists v, vp. split; [exact Hmax|]. split; [exact Ev|].
  split; [rewrite Ev'; exact Evp|]. split; [exact Sv|]. split; [exact Svp|].
  split; [exact Hvp|].
  intros i j Hi Hj. cbv zeta. destruct (Hv i j Hi Hj) as (H0 & H1 & H2).
  rewrite <- Hnd, H0, H1, H2.
  replace (2 * atan (tan (math.radians fov / 2) / (INR col / INR row)) / 2)
    with (atan (tan (math.radians fov / 2) / (INR col / INR row))) by field.
  rewrite tan_atan. replace 0.5 with (1 / 2) by lra.
  split; [field; exact Rc|]. split; [field; split; assumption | reflexivity].
Qed.

(** Every linear position below the number of entries is the position of
    an index inside the shape. *)
Lemma unravel_in_range s :
  forall k, (k < numel s)%nat -> in_range s (unravel s k).
Proof.
  induction s as [|n s IH]; intros k Hk; cbn [unravel in_range]; [exact I|].
  rewrite numel_cons in Hk.
  assert (Hs : numel s <> 0%nat) by nia.
  split.
  - apply Nat.Div0.div_lt_upper_bound. nia.
  - apply IH. apply Nat.mod_upper_bound. exact Hs.
Qed.

Lemma fold_max_ge f n a :
  a <= fold_n Rmax f n a /\
  forall k, (k < n)%nat -> f k <= fold_n Rmax f n a.
Proof.
  induction n as [|n [IHa IHf]]; cbn [fold_n].
  - split; [lra | intros k Hk; lia].
  - split.
    + eapply Rle_trans; [exact IHa | apply Rmax_l].
    + intros k Hk. destruct (Nat.eq_dec k n) as [->|Hne]; [apply Rmax_r|].
      eapply Rle_trans; [apply IHf; lia | apply Rmax_l].
Qed.

Lemma fold_max_attained f n a :
  fold_n Rmax f n a = a \/ exists k, (k < n)%nat /\ fold_n Rmax f n a = f k.
Proof.
  induction n as [|n IH]; cbn [fold_n]; [now left|].
  destruct (Rle_dec (fold_n Rmax f n a) (f n)) as [Hle|Hgt].
  - right. exists n. split; [lia | now apply Rmax_right].
  - rewrite Rmax_left by lra.
    destruct IH as [IH | (k & Hk & IH)]; [now left|].
    right. exists k. split; [lia | exact IH].
Qed.

(** [torch.max] of a tensor bounds every entry and is one of them. *)
Lemma max_ok (t : tensor R) m :
  torch.max t = Ok m ->
  (forall idx, in_range (shape t) idx -> elem t idx <= m) /\
  exists idx, in_range (shape t) idx /\ elem t idx = m.
Proof.
  unfold torch.max, torch.reduce_all.
  destruct (numel (shape t)) as [|n] eqn:En; [discriminate|].
  intros H. injection H as <-.
  set (f := fun k => elem t (unravel (shape t) (S k))).
  set (a := elem t (unravel (shape t) 0)).
  split.
  - intros idx Hin. pose proof (ravel_lt _ _ Hin) as Hlt.
    rewrite <- (unravel_ravel _ _ Hin).
    destruct (fold_max_ge f n a) as [Ha Hf].
    destruct (ravel (shape t) idx) as [|k] eqn:Ek; [exact Ha|].
    apply (Hf k). lia.
  - destruct (fold_max_attained f n a) as [-> | (k & Hk & ->)].
    + exists (unravel (shape t) 0). split; [|reflexivity].
      apply unravel_in_range. lia.
    + exists (unravel (shape t) (S k)). split; [|reflexivity].
      apply unravel_in_range. lia.
Qed.

(** X1: [depth_to_vpos] raises ValueError unless the depth map has two
    axes and ZeroDivisionError when it has no rows or no columns;
    otherwise it returns a (row, col, 3) tensor, or with [permute] the
    same positions channel first, as a (3, row, col) tensor. *)
Theorem depth_to_vpos_outcome depth fov normalize :
  match shape depth with
  | [row; col] =>
      if ((row =? 0) || (col =? 0))%nat
      then forall permute,
             depth_to_vpos depth fov permute normalize
             = Raise ZeroDivisionError
      else exists v vp,
             depth_to_vpos depth fov false normalize = Ok v /\
             depth_to_vpos depth fov true normalize = Ok vp /\
             shape v = [row; col; 3%nat] /\ shape vp = [3%nat; row; col] /\
             forall c i j, elem vp [c; i; j] = elem v [i; j; c]
  | _ => forall permute,
           depth_to_vpos depth fov permute normalize = Raise ValueError
  end.
Proof.
  destruct (shape depth) as [|row [|col [|x s]]] eqn:Hs;
    try (intros permute; unfold depth_to_vpos; rewrite Hs; reflexivity).
  destruct (Nat.eqb_spec row 0) as [->|Hr]; cbn [orb].
  { intros permute. unfold depth_to_vpos. rewrite Hs.
    cbn [INR]. now rewrite py_div_zero. }
  destruct (Nat.eqb_spec col 0) as [->|Hc].
  { intros permute. unfold depth_to_vpos. rewrite Hs.
    rewrite py_div_ok by (apply not_0_INR; exact Hr). cbn [bind INR].
    unfold Rdiv at 2. rewrite Rmult_0_l. now rewrite py_div_zero. }
  destruct (depth_to_vpos_returns depth fov normalize row col Hs Hr Hc)
    as (dmax & v & vp & _ & Ev & Evp & Sv & Svp & Hvp & _).
  exists v, vp. auto.
Qed.

(** X2: the positions [depth_to_vpos] returns are those of a pinhole
    camera looking down -z: with d the depth of pixel (i, j), divided by
    the largest depth of the map when [normalize] is set, the position is
    d * (x_j * t, y_i * t * row / col, -1), where t = tan(fov / 2) for the
    horizontal field of view in radians, x_j = (2j + 1) / col - 1 is the
    centre of column j in [-1, 1] and y_i = 1 - (2i + 1) / row the centre
    of row i, rows counted from the top. *)
Theorem depth_to_vpos_pinhole depth fov normalize row col dmax v i j :
  shape depth = [row; col] ->
  torch.max depth = Ok dmax ->
  depth_to_vpos depth fov false normalize = Ok v ->
  (i < row)%nat -> (j < col)%nat ->
  let d := if normalize then elem depth [i; j] / dmax
           else elem depth [i; j] in
  let t := tan (math.radians fov / 2) in
  elem v [i; j; 0%nat] = d * ((2 * INR j + 1) / INR col - 1) * t /\
  elem v [i; j; 1%nat]
  = d * (1 - (2 * INR i + 1) / INR row) * (t * INR row / INR col) /\
  elem v [i; j; 2%nat] = - d.
Proof.
  intros Hs Hmax Hv Hi Hj.
  destruct (depth_to_vpos_returns depth fov normalize row col Hs)
    as (dmax' & v' & _ & Hmax' & Ev & _ & _ & _ & _ & Hent); try lia.
  rewrite Hmax in Hmax'. injection Hmax' as <-.
  rewrite Hv in Ev. injection Ev as <-.
  exact (Hent i j Hi Hj).
Qed.

(** X2 on the 2 x 3 ramp, at the top right pixel. *)
Lemma depth_to_vpos_pinhole_witness :
  exists v,
    depth_to_vpos depth_ramp 90 false false = Ok v /\
    elem v [0; 2; 2]%nat = - 3.
Proof.
  destruct (depth_to_vpos_returns depth_ramp 90 false 2 3 eq_refl)
    as (dmax & v & _ & Hmax & Ev & _); try lia.
  exists v. split; [exact Ev|].
  destruct (depth_to_vpos_pinhole depth_ramp 90 false 2 3 dmax v 0 2
              eq_refl Hmax Ev) as (_ & _ & Hz); try lia.
  rewrite Hz. cbn [depth_ramp elem nth INR]. lra.
Defined.

(** X3: with [normalize] set and a positive largest depth, every
    position has z >= -1, the pixel of largest depth has z = -1, and a
    pixel of non-negative depth has z <= 0. *)
Theorem depth_to_vpos_normalized depth fov row col dmax v :
  shape depth = [row; col] ->
  torch.max depth = Ok dmax -> 0 < dmax ->
  depth_to_vpos depth fov false true = Ok v ->
  (forall i j, (i < row)%nat -> (j < col)%nat ->
     -1 <= elem v [i; j; 2%nat] /\
     (0 <= elem depth [i; j] -> elem v [i; j; 2%nat] <= 0)) /\
  exists i j, (i < row)%nat /\ (j < col)%nat /\ elem depth [i; j] = dmax /\
              elem v [i; j; 2%nat] = -1.
Proof.
  intros Hs Hmax Hpos Hv.
  destruct (max_ok depth dmax Hmax) as [Hub (idx & Hin & Hidx)].
  rewrite Hs in Hub, Hin.
  destruct (depth_to_vpos_returns depth fov true row col Hs)
    as (dmax' & v' & _ & Hmax' & Ev & _ & _ & _ & _ & Hent).
  { intros ->. destruct idx; cbn in Hin; [tauto | lia]. }
  { intros ->. destruct idx as [|i [|j r]]; cbn in Hin; try tauto; lia. }
  rewrite Hmax in Hmax'. injection Hmax' as <-.
  rewrite Hv in Ev. injection Ev as <-.
  split.
  - intros i j Hi Hj. destruct (Hent i j Hi Hj) as (_ & _ & Hz).
    cbv zeta in Hz. rewrite Hz.
    assert (Hle : elem depth [i; j] <= dmax) by (apply Hub; cbn; auto).
    split.
    + apply Ropp_le_contravar in Hle.
      assert (elem depth [i; j] / dmax <= 1).
      { apply (Rmult_le_reg_r dmax); [exact Hpos|].
        unfold Rdiv. rewrite Rmult_assoc, Rinv_l by lra. lra. }
      lra.
    + intros H0. assert (0 <= elem depth [i; j] / dmax).
      { apply Rmult_le_pos; [exact H0|].
        apply Rlt_le, Rinv_0_lt_compat, Hpos. }
      lra.
  - destruct idx as [|i [|j [|x r]]]; cbn in Hin; try tauto.
    exists i, j. destruct Hin as (Hi & Hj & _).
    split; [exact Hi|]. split; [exact Hj|]. split; [exact Hidx|].
    destruct (Hent i j Hi Hj) as (_ & _ & Hz). cbv zeta in Hz.
    rewrite Hz, Hidx. unfold Rdiv. rewrite Rinv_r by lra. reflexivity.
Qed.

(** X3 on the 2 x 3 ramp: the largest depth is 4, at the bottom right. *)
Lemma depth_to_vpos_normalized_witness :
  exists v i j,
    depth_to_vpos depth_ramp 90 false true = Ok v /\
    elem depth_ramp [i; j] = 4 /\ elem v [i; j; 2%nat] = -1.
Proof.
  destruct (depth_to_vpos_returns depth_ramp 90 true 2 3 eq_refl)
    as (dmax & v & _ & Hmax & Ev & _); try lia.
  destruct (max_ok depth_ramp dmax Hmax) as [Hub (idx & Hin & Hidx)].
  assert (H4 : dmax = 4).
  { apply Rle_antisym.
    - rewrite <- Hidx.
      destruct idx as [|i [|j [|x r]]]; cbn in Hin; try tauto.
      destruct Hin as (Hi & Hj & _). cbn [depth_ramp elem nth].
      assert (INR i <= 1) by (change 1 with (INR 1); apply le_INR; lia).
      assert (INR j <= 2) by (change 2 with (INR 2); apply le_INR; lia).
      lra.
    - pose proof (Hub [1; 2]%nat ltac:(cbn; lia)) as Hb.
      cbn [depth_ramp elem nth INR] in Hb. lra. }
  destruct (depth_to_vpos_normalized depth_ramp 90 2 3 dmax v
              eq_refl Hmax ltac:(lra) Ev) as (_ & i & j & _ & _ & Hd & Hz).
  exists v, i, j. rewrite H4 in Hd. auto.
Defined.

(** X4: the grid of [depth_to_vpos] is symmetric about the optical axis.
    Two pixels of equal depth mirrored left-right have opposite x and the
    same y and z; mirrored top-bottom they have opposite y and the same x
    and z. *)
Theorem depth_to_vpos_mirror depth fov normalize row col v i j :
  shape depth = [row; col] ->
  depth_to_vpos depth fov false normalize = Ok v ->
  (i < row)%nat -> (j < col)%nat ->
  (elem depth [i; (col - 1 - j)%nat] = elem depth [i; j] ->
   elem v [i; (col - 1 - j)%nat; 0%nat] = - elem v [i; j; 0%nat] /\
   elem v [i; (col - 1 - j)%nat; 1%nat] = elem v [i; j; 1%nat] /\
   elem v [i; (col - 1 - j)%nat; 2%nat] = elem v [i; j; 2%nat]) /\
  (elem depth [(row - 1 - i)%nat; j] = elem depth [i; j] ->
   elem v [(row - 1 - i)%nat; j; 0%nat] = elem v [i; j; 0%nat] /\
   elem v [(row - 1 - i)%nat; j; 1%nat] = - elem v [i; j; 1%nat] /\
   elem v [(row - 1 - i)%nat; j; 2%nat] = elem v [i; j; 2%nat]).
Proof.
  intros Hs Hv Hi Hj.
  destruct (depth_to_vpos_returns depth fov normalize row col Hs)
    as (dmax & v' & _ & _ & Ev & _ & _ & _ & _ & Hent); try lia.
  rewrite Hv in Ev. injection Ev as <-.
  assert (Rr : INR row <> 0) by (apply not_0_INR; lia).
  assert (Rc : INR col <> 0) by (apply not_0_INR; lia).
  destruct (Hent i j Hi Hj) as (Hx & Hy & Hz). cbv zeta in Hx, Hy, Hz.
  split; intros Hd.
  - destruct (Hent i (col - 1 - j)%nat Hi ltac:(lia)) as (Hx' & Hy' & Hz').
    cbv zeta in Hx', Hy', Hz'. rewrite Hx', Hy', Hz', Hx, Hy, Hz, Hd.
    rewrite !minus_INR by lia. cbn [INR].
    split; [field; exact Rc|]. split; reflexivity.
  - destruct (Hent (row - 1 - i)%nat j ltac:(lia) Hj) as (Hx' & Hy' & Hz').
    cbv zeta in Hx', Hy', Hz'. rewrite Hx', Hy', Hz', Hx, Hy, Hz, Hd.
    rewrite !minus_INR by lia. cbn [INR].
    split; [reflexivity|]. split; [field; split; assumption | reflexivity].
Qed.

(** X4 on a constant 2 x 3 depth map. *)
Lemma depth_to_vpos_mirror_witness :
  exists v,
    depth_to_vpos (mkT [2; 3]%nat (fun _ => 1)) 90 false false = Ok v /\
    elem v [0; 2; 0]%nat = - elem v [0; 0; 0]%nat /\
    elem v [1; 0; 1]%nat = - elem v [0; 0; 1]%nat.
Proof.
  destruct (depth_to_vpos_returns (mkT [2; 3]%nat (fun _ => 1)) 90 false 2 3
              eq_refl) as (dmax & v & _ & _ & Ev & _); try lia.
  exists v. split; [exact Ev|].
  destruct (depth_to_vpos_mirror (mkT [2; 3]%nat (fun _ => 1)) 90 false 2 3 v
              0 0 eq_refl Ev) as [Hh Hv]; try lia.
  destruct (Hh eq_refl) as (Hx & _). destruct (Hv eq_refl) as (_ & Hy & _).
  split; [exact Hx | exact Hy].
Defined.

(** ** More of [forward] *)

(** The fold, the clamp and the normalisation keep the shape. *)
Lemma fold_mask_clamp_shapes ds d w g :
  fold_mask_clamp ds d w = Ok g ->
  shape (g_local g) = shape w /\ shape (g_clamped g) = shape w /\
  shape (g_unit g) = shape w.
Proof.
  unfold fold_mask_clamp. intros H.
  step H wl Ewl. step H z Ez. step H m Em. step H z2 Ez2. step H wc Ewc.
  step H wu Ewu. injection H as <-. cbn [g_mask g_local g_clamped g_unit].
  apply normalize_ok in Ewu as (_ & Su & _).
  apply select_set_ok in Ewc as (i & _ & Sc & _).
  assert (Sl : shape wl = shape w).
  { destruct ds; [|now injection Ewl as <-].
    step Ewl z0 Ez0. apply select_set_ok in Ewl as (i0 & _ & S0 & _).
    exact S0. }
  rewrite Su, Sc, Sl. auto.
Qed.

Lemma sqrt_ge_milli x : 1e-6 <= x -> 1e-3 <= sqrt x.
Proof.
  intros H. replace 1e-3 with (sqrt (1e-3 * 1e-3))
    by (apply sqrt_square; lra).
  apply sqrt_le_1_alt. lra.
Qed.

(** A vector whose z is at least 1e-3 is brought to unit length by the
    floored normalisation, and keeps a positive z. *)
Lemma normalize_unit a b c :
  1e-3 <= c ->
  let n := Rmax (sqrt (0 + a * a + b * b + c * c)) 1e-6 in
  a / n * (a / n) + b / n * (b / n) + c / n * (c / n) = 1 /\ 0 < c / n.
Proof.
  intros Hc. cbv zeta.
  set (S := 0 + a * a + b * b + c * c).
  assert (HS : 1e-6 <= S) by (unfold S; nra).
  pose proof (sqrt_ge_milli S HS) as Hq.
  rewrite Rmax_left by lra.
  assert (Hsq : sqrt S * sqrt S = S) by (apply sqrt_sqrt; lra).
  set (q := sqrt S) in *.
  split.
  - replace (a / q * (a / q) + b / q * (b / q) + c / q * (c / q))
      with (S / (q * q)) by (unfold S; field; apply Rgt_not_eq; lra).
    rewrite Hsq. unfold Rdiv. apply Rinv_r. apply Rgt_not_eq. lra.
  - apply Rdiv_lt_0_compat; lra.
Qed.

(** X5: in a [forward] call that returned on a layer and normals of an
    H x W image, the local view direction handed to the BRDF is a unit
    vector with positive z at every pixel. *)
Theorem view_direction_unit brdf tr self lm albedo rough metal normal vpos l
  H W i j :
  forward_locals brdf tr self lm albedo rough metal normal vpos = Ok l ->
  shape (v self) = [1; 3; H; W]%nat ->
  shape normal = [1; 3; H; W]%nat ->
  let w c := elem (l_wi l) [0; 0; c; i; j]%nat in
  w 0%nat * w 0%nat + w 1%nat * w 1%nat + w 2%nat * w 2%nat = 1 /\
  0 < w 2%nat.
Proof.
  intros Hl Sv Sn. cbv zeta.
  apply forward_locals_ok in Hl
    as (ch & f & _ & _ & _ & _ & Ef & Hvd & Hwi & _).
  destruct (local_frames_returns normal H W Sn)
    as (f' & Ef' & _ & _ & _ & _ & Sfx & Sfy & Sfz & _).
  rewrite Ef in Ef'. injection Ef' as <-.
  destruct (frame_project_4d _ _ _ _ H W Sv Sfx Sfy Sfz) as (r & Er & Sr & _).
  unfold to_camera in Hvd. rewrite Er in Hvd. cbn [bind] in Hvd.
  step Hvd g Eg. step Hvd w1 Ew1. injection Hvd as Hvd.
  apply clip_window_ok in Hwi as [Hwi _].
  rewrite <- Hvd in Hwi. cbn [wi] in Hwi.
  apply unsqueeze_ok in Ew1 as (_ & _ & Hw1).
  destruct (fold_mask_clamp_shapes _ _ _ _ Eg) as (_ & Sc & _).
  apply fold_mask_clamp_ok in Eg as (_ & Hclamp & _ & Hunit).
  rewrite !Hwi, !Hw1. cbn [remove_at].
  rewrite !Hunit, Sc, Sr. cbn [dim nth sum_n set_at update_at].
  apply normalize_unit. apply Hclamp. reflexivity.
Qed.

Lemma sum_n_nonneg f n :
  (forall k, (k < n)%nat -> 0 <= f k) -> 0 <= sum_n f n.
Proof.
  induction n as [|n IH]; intros H; cbn [sum_n]; [lra|].
  assert (0 <= sum_n f n) by (apply IH; intros; apply H; lia).
  assert (0 <= f n) by (apply H; lia). lra.
Qed.

Lemma sum_n_zero f n :
  (forall k, (k < n)%nat -> f k = 0) -> sum_n f n = 0.
Proof.
  induction n as [|n IH]; intros H; cbn [sum_n]; [reflexivity|].
  rewrite IH by (intros; apply H; lia). rewrite H by lia. lra.
Qed.

(** Lines 239-242 and 251: the contribution of every sample and the
    shading, their mean over the samples. *)
Lemma integrate_shading_ok self lm irow icol direction vpos woe wo bD bS ig S :
  integrate self lm irow icol direction vpos woe wo bD bS = Ok ig ->
  lm_spp lm = S ->
  shape wo = [1; S; 3; irow; icol]%nat ->
  shape (pdf_raw ig) = [1; S; 1; irow; icol]%nat ->
  shape (light ig) = [1; S; 3; irow; icol]%nat /\
  shape (shading ig) = [1; 3; irow; icol]%nat /\
  (forall s c i j, (s < S)%nat -> (c < 3)%nat -> (i < irow)%nat ->
     (j < icol)%nat ->
     elem (light ig) [0; s; c; i; j]%nat
     = contribution (light_raw ig) wo (pdf_raw ig) S irow icol s c i j) /\
  (forall c i j, (c < 3)%nat -> (i < irow)%nat -> (j < icol)%nat ->
     elem (shading ig) [0; c; i; j]%nat
     = sum_n (fun s => contribution (light_raw ig) wo (pdf_raw ig) S irow icol
                                    s c i j) S
       / INR S).
Proof.
  unfold integrate. intros H HS Swo Spdf.
  step H light_raw0 El. step H vpos1 Ev. step H pdf0 Ep.
  step H z Ez. step H l5 El5. step H lp Elp. step H ln Eln. step H lt Elt.
  step H bd Ebd. step H cd Ecd. step H cs Ecs. step H sh Esh.
  injection H as <-. cbn [light_raw pdf_raw light shading] in *.
  rewrite HS in El5.
  apply slice_ok in Ez as (_ & Sz & Hz). rewrite Swo in Sz, Hz.
  cbn [dim nth] in Sz, Hz.
  assert (Hp : pyslice 3 (Some 2%Z) None = (2%nat, 1%nat)) by reflexivity.
  rewrite Hp in Sz, Hz. cbn [fst snd set_at update_at] in Sz, Hz.
  apply reshape_ok in El5 as (_ & S5 & H5).
  apply permute_ok in Elp as (_ & Slp & Hlp). rewrite S5 in Slp.
  cbn [List.map dim nth] in Slp.
  apply binop_ok in Eln as (Sln & Hln).
  cbn [torch.clamp_min torch.map shape] in Sln.
  rewrite Slp, Sz in Sln. bcast_in Sln. injection Sln as Sln.
  apply binop_ok in Elt as (Slt & Hlt).
  cbn [torch.clamp_min torch.map shape] in Slt.
  rewrite <- Sln, Spdf in Slt. bcast_in Slt. injection Slt as Slt.
  apply mean_ok in Esh as (_ & Ssh & Hsh). rewrite <- Slt in Ssh, Hsh.
  cbn [remove_at dim nth] in Ssh, Hsh.
  assert (Hlight : forall s c i j, (s < S)%nat -> (c < 3)%nat ->
             (i < irow)%nat -> (j < icol)%nat ->
             elem lt [0; s; c; i; j]%nat
             = contribution light_raw0 wo pdf0 S irow icol s c i j).
  { intros s c i j Hs Hc Hi Hj.
    rewrite Hlt. cbn [torch.clamp_min torch.map shape elem].
    rewrite <- Sln, Spdf.
    cbn [bidx length Nat.sub skipn map2 Nat.eqb].
    rewrite ?(bsel_lt S s Hs), ?(bsel_lt irow i Hi), ?(bsel_lt icol j Hj).
    rewrite Hln. cbn [torch.clamp_min torch.map shape elem]. rewrite Slp, Sz.
    cbn [bidx length Nat.sub skipn map2 Nat.eqb].
    rewrite ?(bsel_lt S s Hs), ?(bsel_lt irow i Hi), ?(bsel_lt icol j Hj).
    rewrite Hlp, Hz, H5.
    cbn [List.map seq length nth torch.index_of Nat.eqb update_at Nat.add].
    unfold contribution, radiance. reflexivity. }
  split; [symmetry; exact Slt|]. split; [exact Ssh|]. split; [exact Hlight|].
  intros c i j Hc Hi Hj. rewrite Hsh. cbn [insert_at].
  apply (f_equal (fun x => x / INR S)). apply sum_n_ext. intros s Hs.
  now apply Hlight.
Qed.

(** Two runs of the same operation that returned have returned the same
    value. *)
Ltac same_ok E1 E2 :=
  lazymatch type of E1 with
  | _ = Ok ?a =>
      lazymatch type of E2 with
      | _ = Ok ?b =>
          let H := fresh "Hsame" in
          assert (H : b = a) by congruence;
          first [ rewrite H in * | idtac ]; clear H
      end
  end.

(** What a returned call has computed does not depend on the tracer and
    on the layer's own sample count. *)
Lemma forward_locals_same brdf tr1 tr2 self1 self2 lm albedo rough metal
  normal vpos l1 l2 :
  forward_locals brdf tr1 self1 lm albedo rough metal normal vpos = Ok l1 ->
  forward_locals brdf tr2 self2 lm albedo rough metal normal vpos = Ok l2 ->
  v self1 = v self2 -> double_sided self1 = double_sided self2 ->
  use_ssrt self1 = use_ssrt self2 ->
  use_specular self1 = use_specular self2 ->
  brdf_type self1 = brdf_type self2 ->
  l_wi_mask l1 = l_wi_mask l2 /\ l_wi l1 = l_wi l2 /\
  l_light_dir l1 = l_light_dir l2 /\
  colorDiffuse (l_integrals l1) = colorDiffuse (l_integrals l2) /\
  colorSpec (l_integrals l1) = colorSpec (l_integrals l2) /\
  shading (l_integrals l1) = shading (l_integrals l2).
Proof.
  intros Hl1 Hl2 Hv Hds Hss Hsp Hk.
  apply forward_locals_ok in Hl1
    as (ch1 & f1 & Sa1 & _ & _ & _ & Ef1 & Ev1 & Ewi1 & Ewm1 & Eac1 & Emc1
        & Erc1 & Eir1 & Eic1 & Eld1 & Ebt1 & dir1 & vp1 & Hs1 & Eig1).
  apply forward_locals_ok in Hl2
    as (ch2 & f2 & Sa2 & _ & _ & _ & Ef2 & Ev2 & Ewi2 & Ewm2 & Eac2 & Emc2
        & Erc2 & Eir2 & Eic2 & Eld2 & Ebt2 & dir2 & vp2 & Hs2 & Eig2).
  cbv zeta in *.
  rewrite Sa1 in Sa2. injection Sa2 as _ Hrow Hcol.
  rewrite <- Hrow, <- Hcol in *.
  same_ok Ef1 Ef2.
  assert (Hcam : to_camera self2 f1 = to_camera self1 f1)
    by (unfold to_camera; now rewrite Hv, Hds).
  rewrite Hcam in Ev2. same_ok Ev1 Ev2.
  same_ok Ewi1 Ewi2. same_ok Ewm1 Ewm2. same_ok Eac1 Eac2.
  same_ok Emc1 Emc2. same_ok Erc1 Erc2. same_ok Eir1 Eir2. same_ok Eic1 Eic2.
  assert (Hlight : to_light self2 lm f1 normal vpos
                   = to_light self1 lm f1 normal vpos)
    by (unfold to_light; now rewrite Hds).
  rewrite Hlight in Eld2. same_ok Eld1 Eld2.
  assert (Hbrdf : forall a r m w o i j,
             evaluate_brdf brdf self2 lm a r m w o i j
             = evaluate_brdf brdf self1 lm a r m w o i j)
    by (intros; unfold evaluate_brdf; now rewrite Hk).
  rewrite Hbrdf in Ebt2. same_ok Ebt1 Ebt2.
  assert (Hdir : dir2 = dir1 /\ vp2 = vp1).
  { rewrite <- Hss in Hs2. destruct (use_ssrt self1).
    - destruct Hs1 as (sl1 & Esl1 & _ & -> & ->).
      destruct Hs2 as (sl2 & Esl2 & _ & -> & ->).
      apply ssrt_block_ok in Esl1 as (Eo1 & _ & _ & _ & _ & Ec1).
      apply ssrt_block_ok in Esl2 as (Eo2 & _ & _ & _ & _ & Ec2).
      split; congruence.
    - destruct Hs1 as (_ & -> & ->). destruct Hs2 as (_ & -> & ->). auto. }
  destruct Hdir as [-> ->].
  assert (Hint : forall i j d p woe wo bD bS,
             integrate self2 lm i j d p woe wo bD bS
             = integrate self1 lm i j d p woe wo bD bS)
    by (intros; unfold integrate; now rewrite Hsp).
  rewrite Hint in Eig2. same_ok Eig1 Eig2.
  repeat split; congruence.
Qed.

(** The tracing block on the flat 2 x 2 scene, for a tracer that hits
    everywhere or misses everywhere. *)
Lemma ssrt_block_scene_either tr self dir S :
  tr = flat_tracer \/ tr = miss_tracer ->
  imWidth self = 2%Z -> imHeight self = 2%Z -> spp self = 2%Z ->
  shape dir = [S; 4; 3]%nat -> S <> 0%nat ->
  exists sl,
    ssrt_block tr self (clip_window 2 2) 2 2 2 2 dir
               (grey 2 2) (rough_half 2 2) (metal_zero 2 2) (normal_up 2 2)
               (vpos_flat 2 2) = Ok sl /\
    shape (ssrt_direction_out sl) = [1; 4; 3]%nat /\
    shape (ssrt_vpos sl) = [1; 3; 2; 2]%nat.
Proof.
  intros Htr HW HH Hn Sd HS.
  destruct Htr as [-> | ->];
    [exact (ssrt_block_scene self dir S HW HH Hn Sd HS)|].
  unfold ssrt_block.
  rewrite HW, HH, Hn.
  unfold torch.slice at 1. unfold rank. rewrite Sd.
  cbn [length Nat.ltb Nat.leb dim nth].
  rewrite pyslice_last by exact HS. cbn [bind set_at update_at].
  rewrite (reshape_infer_front _ 4 3) by (try lia; reflexivity).
  cbn [bind].
  apply py_div_returns; [cbn; lra|]; intros aspect.
  apply py_div_returns; [unfold aspect; cbn; lra|]; intros q.
  run.
  apply py_div_returns; [cbn; lra|]; intros aspect'.
  apply py_div_returns; [|intros near].
  { match goal with |- ?b <> 0 => unfold b end.
    match goal with
    | |- fold_n _ _ ?n _ <> 0 => replace n with 3%nat by reflexivity
    end.
    rewrite fold_n_const with (c := - -1);
      [lra | | reflexivity | apply Rmax_same].
    intros k Hk. do 3 (destruct k; [reflexivity|]). lia. }
  run.
  eexists; split; [reflexivity|]. split; reflexivity.
Qed.

(** A traced [forward] call on the flat 2 x 2 scene returns whenever the
    lighting model samples [S >= 1] directions per pixel and answers the
    radiance call with S * 4 radiances. *)
Lemma traced_scene_returns tr self lm S woe lr pr :
  tr = flat_tracer \/ tr = miss_tracer ->
  imWidth self = 2%Z -> imHeight self = 2%Z -> spp self = 2%Z ->
  brdf_type self = "diffuse"%string -> use_ssrt self = true ->
  shape (v self) = [1; 3; 2; 2]%nat ->
  lm_spp lm = S -> S <> 0%nat ->
  (forall v1 n1, sample_direction lm v1 n1 = Ok woe) ->
  shape woe = [1; S; 3; 2; 2]%nat ->
  (forall d, shape d = [1; 4; 3]%nat -> lm_call lm d = Ok lr) ->
  shape lr = [(S * (2 * 2))%nat; 3%nat] ->
  (forall v1, pdf_direction lm v1 woe = Ok pr) ->
  shape pr = [1; S; 1; 2; 2]%nat ->
  exists l sl,
    forward_locals lambert tr self lm (grey 2 2) (rough_half 2 2)
                   (metal_zero 2 2) (normal_up 2 2) (vpos_flat 2 2) = Ok l /\
    l_ssrt l = Some sl /\
    wo_emitter (l_light_dir l) = woe /\
    light_raw (l_integrals l) = lr /\
    shape (ssrt_direction_out sl) = [1; 4; 3]%nat /\
    l_irow l = 2%nat /\ l_icol l = 2%nat.
Proof.
  intros Htr HW HH Hn Hk Hs Sv HS HS0 Hsd Swoe Hcall Slr Hpdf Spr.
  destruct (forward_stages_return tr self lm (grey 2 2) (rough_half 2 2)
              (metal_zero 2 2) (normal_up 2 2) (vpos_flat 2 2) S 1 1 woe
              HH HW Hk Sv eq_refl eq_refl eq_refl eq_refl
              ltac:(cbn; lia) HS HS0 Hsd Swoe)
    as (ld & bt & Ewoe & Swo & Sdir & SbD & SbS & Sp & Hrest).
  destruct (ssrt_block_scene_either tr self (direction ld) S Htr HW HH Hn Sdir
              HS0) as (sl & Esl & Sout & Svp).
  rewrite <- Ewoe in Hpdf.
  destruct (integrate_returns self lm S 2 2
              (ssrt_direction_out sl) (ssrt_vpos sl) (wo_emitter ld) (wo ld)
              (brdfDiffuse bt) (brdfSpec bt) lr pr HS (Hcall _ Sout) Slr
              ltac:(unfold rank; rewrite Svp; cbn; lia)
              Hpdf Spr Swo SbD SbS)
    as (ig & Eig & Elr & _).
  destruct (Hrest (Some sl) (ssrt_direction_out sl) (ssrt_vpos sl) ig)
    as (l & El & Hr & Hc & Hld & _ & Hsl & Hig & _).
  { rewrite Hs. change (2 * 1)%nat with 2%nat. rewrite Esl. reflexivity. }
  { exact Eig. }
  exists l, sl. split; [exact El|]. split; [exact Hsl|].
  rewrite Hld, Hig. auto 10.
Qed.

(** The integration of a returned call, and the layout of the BRDF terms
    it integrates. *)
Lemma forward_integrals brdf tr self lm albedo rough metal normal vpos l :
  forward_locals brdf tr self lm albedo rough metal normal vpos = Ok l ->
  let bt := l_brdf l in
  let ld := l_light_dir l in
  (exists dir vp,
     integrate self lm (l_irow l) (l_icol l) dir vp (wo_emitter ld) (wo ld)
               (brdfDiffuse bt) (brdfSpec bt) = Ok (l_integrals l)) /\
  (shape (pdfs bt) = [1; lm_spp lm; 1; l_irow l; l_icol l]%nat ->
   shape (brdfDiffuse bt) = [1; lm_spp lm; 3; l_irow l; l_icol l]%nat /\
   shape (brdfSpec bt) = [1; lm_spp lm; 3; l_irow l; l_icol l]%nat).
Proof.
  intros Hl. cbv zeta.
  apply forward_locals_ok in Hl
    as (ch & f & _ & _ & _ & _ & _ & _ & _ & _ & _ & _ & _ & _ & _ & _
        & Hbt & dir & vp & _ & Hig).
  split; [eauto|]. intros Spdfs.
  apply evaluate_brdf_ok in Hbt as (Hp & ed & es & Hed & Hbd & Hes & Hbs).
  assert (Sp : shape (pdfs_brdf (l_brdf l))
               = [1; lm_spp lm; 1; l_irow l; l_icol l]%nat)
    by (rewrite Hp; exact Spdfs).
  apply expand_ok in Hed as (_ & Sed & _).
  apply expand_ok in Hes as (_ & Ses & _).
  apply binop_ok in Hbd as (SbD & _). apply binop_ok in Hbs as (SbS & _).
  rewrite Sed, Sp in SbD. rewrite Ses, Sp in SbS.
  bcast_in SbD. bcast_in SbS. injection SbD as SbD. injection SbS as SbS.
  auto.
Qed.

(** Line 138, [direction.reshape(spp, -1, 3)], raises when the lighting
    model has no sample. *)
Lemma forward_samples_pos brdf tr self lm albedo rough metal normal vpos l :
  forward_locals brdf tr self lm albedo rough metal normal vpos = Ok l ->
  lm_spp lm <> 0%nat.
Proof.
  intros Hl E.
  apply forward_locals_ok in Hl
    as (ch & f & _ & _ & _ & _ & _ & _ & _ & _ & _ & _ & _ & _ & _ & Eld & _).
  apply to_light_ok in Eld
    as (v1 & n1 & x1 & y1 & z1 & raw & d1 & d2 & _ & _ & _ & _ & _ & _ & _
        & _ & _ & _ & Ed).
  rewrite E in Ed. unfold torch.reshape_infer in Ed. cbn in Ed. discriminate.
Qed.

(** X7: a pixel that every sampled direction reaches from below the
    horizon of its local frame (local z <= 0) receives nothing: its
    diffuse colour, its specular colour and its shading are 0 in every
    channel. *)
Theorem light_below_horizon brdf tr self lm albedo rough metal normal vpos l
  c i j :
  forward_locals brdf tr self lm albedo rough metal normal vpos = Ok l ->
  let ig := l_integrals l in
  let ld := l_light_dir l in
  let S := lm_spp lm in
  let irow := l_irow l in
  let icol := l_icol l in
  shape (wo ld) = [1; S; 3; irow; icol]%nat ->
  shape (pdf_raw ig) = [1; S; 1; irow; icol]%nat ->
  shape (pdfs (l_brdf l)) = [1; S; 1; irow; icol]%nat ->
  (c < 3)%nat -> (i < irow)%nat -> (j < icol)%nat ->
  (forall s, (s < S)%nat -> elem (wo ld) [0; s; 2; i; j]%nat <= 0) ->
  elem (colorDiffuse ig) [0; c; i; j]%nat = 0 /\
  elem (colorSpec ig) [0; c; i; j]%nat = 0 /\
  elem (shading ig) [0; c; i; j]%nat = 0.
Proof.
  intros Hl. cbv zeta. intros Swo Spdf Spdfs Hc Hi Hj Hbelow.
  destruct (forward_integrals _ _ _ _ _ _ _ _ _ _ Hl)
    as [(dir & vp & Hig) Hshapes].
  destruct (Hshapes Spdfs) as [SbD SbS].
  destruct (integrate_ok _ _ _ _ _ _ _ _ _ _ _ _ Hig eq_refl Swo Spdf SbD SbS)
    as (_ & _ & _ & Ecd & Ecs & _).
  destruct (integrate_shading_ok _ _ _ _ _ _ _ _ _ _ _ _ Hig eq_refl Swo Spdf)
    as (_ & _ & _ & Hsh).
  assert (Hz : forall s, (s < lm_spp lm)%nat ->
             Rmax (elem (wo (l_light_dir l)) [0; s; 2; i; j]%nat) 0 = 0)
    by (intros s Hs; apply Rmax_right, Hbelow, Hs).
  rewrite (Ecd c i j Hc Hi Hj), (Ecs c i j Hc Hi Hj), (Hsh c i j Hc Hi Hj).
  assert (Z0 : forall x, 0 / x = 0) by (intros; unfold Rdiv; ring).
  repeat split.
  - rewrite sum_n_zero; [apply Z0|]. intros s Hs. rewrite (Hz s Hs).
    unfold Rdiv. ring.
  - destruct (use_specular self); [|reflexivity].
    rewrite sum_n_zero; [apply Z0|]. intros s Hs. rewrite (Hz s Hs).
    unfold Rdiv. ring.
  - rewrite sum_n_zero; [apply Z0|]. intros s Hs. unfold contribution.
    rewrite (Hz s Hs). unfold Rdiv. ring.
Qed.

(** The 2 x 2 scene lit along the surface: the constructor and [forward]
    return, and the local z of every sampled direction is 0. *)
Lemma grazing_scene_returns :
  exists self l,
    __init__ 2 2 85 [0; 0; 0] "diffuse" 2 true false true = Ok self /\
    forward_locals lambert flat_tracer self (constant_light 2 2 2 (1, 0, 0))
                   (grey 2 2) (rough_half 2 2) (metal_zero 2 2)
                   (normal_up 2 2) (vpos_flat 2 2) = Ok l /\
    l_irow l = 2%nat /\ l_icol l = 2%nat /\
    shape (wo (l_light_dir l)) = [1; 2; 3; 2; 2]%nat /\
    shape (pdf_raw (l_integrals l)) = [1; 2; 1; 2; 2]%nat /\
    shape (pdfs (l_brdf l)) = [1; 2; 1; 2; 2]%nat /\
    forall s i j, (s < 2)%nat -> (i < 2)%nat -> (j < 2)%nat ->
      elem (wo (l_light_dir l)) [0; s; 2; i; j]%nat = 0.
Proof.
  destruct (init_returns 2 2 85 [0; 0; 0] "diffuse" 2 true false true)
    as (self & E & HW & HH & Hk & _ & Hds & Hs & Hsp & Sv);
    [lia | lia | reflexivity |].
  assert (Rv : (1 <= rank (vpos_flat 2 2))%nat) by (unfold rank; cbn; lia).
  destruct (forward_scene_returns flat_tracer self (grey 2 2) (rough_half 2 2)
              (metal_zero 2 2) (normal_up 2 2) (vpos_flat 2 2) 2 1 1 (1, 0, 0)
              HH HW Hk Hs Sv eq_refl eq_refl eq_refl eq_refl Rv
              ltac:(discriminate))
    as (l & Hl & Hr & Hc & Swo & Spdf & Sp & Swoe & _).
  exists self, l. split; [exact E|]. split; [exact Hl|].
  split; [exact Hr|]. split; [exact Hc|]. split; [exact Swo|].
  split; [exact Spdf|]. split; [exact Sp|].
  intros s i j Hs' Hi Hj.
  apply forward_locals_ok in Hl
    as (ch & f & _ & _ & _ & _ & Ef & _ & _ & _ & _ & _ & _ & _ & _ & Eld & _).
  destruct (local_frames_returns (normal_up 2 2) 2 2 eq_refl)
    as (f' & Ef' & Ecf & _ & _ & _ & Sfx & Sfy & Sfz & Hf).
  rewrite Ef in Ef'. injection Ef' as <-.
  destruct (wo_local _ _ _ _ _ _ 2 2 2 Eld Sfx Sfy Sfz Swoe) as [_ Hwo].
  rewrite (Hwo s 2%nat i j) by lia.
  destruct (create_frame_returns (normal_up 2 2) 1e-6 1 [2; 2]%nat eq_refl)
    as (x & y & z & Ecf' & _ & _ & _ & Hz & _).
  rewrite Ecf in Ecf'. injection Ecf' as <- <- <-.
  destruct (Hf 2%nat i j) as (Hfx & _ & _); [lia|]. cbn [axis] in Hfx.
  rewrite Hfx, Hz.
  apply to_light_ok in Eld
    as (v1 & n1 & x1 & y1 & z1 & raw & d1 & d2 & _ & _ & Ewoe & _).
  cbn [constant_light sample_direction] in Ewoe. injection Ewoe as Ewoe.
  rewrite <- Ewoe. cbn [elem nth fst snd normal_up].
  rewrite Hds. unfold fold_z. cbn [andb Nat.eqb].
  replace (1 * (0 / Rmax (sqrt (0 + 0 * 0 + 0 * 0 + 1 * 1)) 1e-6)
           + 0 * elem (fy f) [0; 2; i; j]%nat
           + 0 * elem (fz f) [0; 2; i; j]%nat) with 0
    by (unfold Rdiv; ring).
  apply Rabs_R0.
Qed.

(** X7 on the scene lit along the surface, specular flag on. *)
Lemma light_below_horizon_witness :
  exists self l,
    __init__ 2 2 85 [0; 0; 0] "diffuse" 2 true false true = Ok self /\
    forward_locals lambert flat_tracer self (constant_light 2 2 2 (1, 0, 0))
                   (grey 2 2) (rough_half 2 2) (metal_zero 2 2)
                   (normal_up 2 2) (vpos_flat 2 2) = Ok l /\
    elem (colorDiffuse (l_integrals l)) [0; 1; 0; 1]%nat = 0 /\
    elem (colorSpec (l_integrals l)) [0; 1; 0; 1]%nat = 0 /\
    elem (shading (l_integrals l)) [0; 1; 0; 1]%nat = 0.
Proof.
  destruct grazing_scene_returns
    as (self & l & E & Hl & Hr & Hc & Swo & Spdf & Sp & Hz).
  exists self, l. split; [exact E|]. split; [exact Hl|].
  apply (light_below_horizon _ _ _ _ _ _ _ _ _ l 1 0 1 Hl).
  - rewrite Hr, Hc. exact Swo.
  - rewrite Hr, Hc. exact Spdf.
  - rewrite Hr, Hc. exact Sp.
  - lia.
  - rewrite Hr. lia.
  - rewrite Hc. lia.
  - intros s Hs. rewrite Hz; [lra | exact Hs | lia | lia].
Defined.

(** X5 on the flat 2 x 2 scene. *)
Lemma view_direction_unit_witness :
  exists self l,
    __init__ 2 2 85 [0; 0; 0] "diffuse" 2 true false false = Ok self /\
    forward_locals lambert flat_tracer self (constant_light 2 2 2 (0, 0, 1))
                   (grey 2 2) (rough_half 2 2) (metal_zero 2 2)
                   (normal_up 2 2) (vpos_flat 2 2) = Ok l /\
    0 < elem (l_wi l) [0; 0; 2; 1; 0]%nat.
Proof.
  destruct flat_scene_returns as (self & l & E & _ & Hl & _).
  destruct (init_returns 2 2 85 [0; 0; 0] "diffuse" 2 true false false)
    as (self' & E' & _ & _ & _ & _ & _ & _ & _ & Sv);
    [lia | lia | reflexivity |].
  rewrite E in E'. injection E' as <-.
  exists self, l. split; [exact E|]. split; [exact Hl|].
  exact (proj2 (view_direction_unit _ _ _ _ _ _ _ _ _ l 2 2 1 0 Hl Sv
                  eq_refl)).
Defined.

(** X8: whatever the tracer reports, and whatever sample count the
    layer was constructed with, two calls on the same inputs that both
    return give the same four outputs: the traced hits, the uncertainty
    and the gathered materials never reach the result. *)
Theorem outputs_ignore_tracer brdf tr1 tr2 n self lm albedo rough metal
  normal vpos out1 out2 :
  forward brdf tr1 (with_spp n self) lm albedo rough metal normal vpos
  = Ok out1 ->
  forward brdf tr2 self lm albedo rough metal normal vpos = Ok out2 ->
  out1 = out2.
Proof.
  intros H1 H2.
  apply forward_ok in H1 as (l1 & Hl1 & ->).
  apply forward_ok in H2 as (l2 & Hl2 & ->).
  destruct (forward_locals_same _ _ _ _ _ _ _ _ _ _ _ _ _ Hl1 Hl2
              eq_refl eq_refl eq_refl eq_refl eq_refl)
    as (Hm & _ & _ & Hcd & Hcs & Hsh).
  now rewrite Hm, Hcd, Hcs, Hsh.
Qed.

(** X8 on the flat 2 x 2 scene with tracing enabled: a tracer that hits
    everywhere and a tracer that misses everywhere give the same
    outputs. *)
Lemma outputs_ignore_tracer_witness :
  exists self out1 out2,
    __init__ 2 2 85 [0; 0; 0] "diffuse" 7 true true false = Ok self /\
    forward lambert flat_tracer (with_spp 2 self)
            (cached_light 2 2 2 (0, 0, 1)) (grey 2 2) (rough_half 2 2)
            (metal_zero 2 2) (normal_up 2 2) (vpos_flat 2 2) = Ok out1 /\
    forward lambert miss_tracer (with_spp 2 self)
            (cached_light 2 2 2 (0, 0, 1)) (grey 2 2) (rough_half 2 2)
            (metal_zero 2 2) (normal_up 2 2) (vpos_flat 2 2) = Ok out2 /\
    out1 = out2.
Proof.
  destruct (init_returns 2 2 85 [0; 0; 0] "diffuse" 7 true true false)
    as (self & E & HW & HH & Hk & _ & _ & Hs & _ & Sv);
    [lia | lia | reflexivity |].
  assert (Hrun : forall tr, tr = flat_tracer \/ tr = miss_tracer ->
            exists l,
              forward_locals lambert tr (with_spp 2 self)
                (cached_light 2 2 2 (0, 0, 1)) (grey 2 2) (rough_half 2 2)
                (metal_zero 2 2) (normal_up 2 2) (vpos_flat 2 2) = Ok l).
  { intros tr Htr.
    destruct (traced_scene_returns tr (with_spp 2 self)
                (cached_light 2 2 2 (0, 0, 1)) 2 _ _ _ Htr HW HH eq_refl Hk Hs
                Sv eq_refl ltac:(discriminate) (fun _ _ => eq_refl) eq_refl
                (fun _ _ => eq_refl) eq_refl (fun _ => eq_refl) eq_refl)
      as (l & sl & Hl & _).
    eauto. }
  destruct (Hrun flat_tracer (or_introl eq_refl)) as (l1 & Hl1).
  destruct (Hrun miss_tracer (or_intror eq_refl)) as (l2 & Hl2).
  apply forward_of_locals in Hl1. apply forward_of_locals in Hl2.
  exists self. do 2 eexists. split; [exact E|].
  split; [exact Hl1|]. split; [exact Hl2|].
  apply (outputs_ignore_tracer lambert flat_tracer miss_tracer 2
           (with_spp 2 self) _ _ _ _ _ _ _ _ Hl1 Hl2).
Defined.

(** X9: a [forward] call returns only if the lighting model has at least
    one sample per pixel; with [spp = 0] the reshape of line 138 raises. *)
Theorem forward_needs_samples brdf tr self lm albedo rough metal normal vpos
  out :
  forward brdf tr self lm albedo rough metal normal vpos = Ok out ->
  (1 <= lm_spp lm)%nat.
Proof.
  intros H. apply forward_ok in H as (l & Hl & _).
  pose proof (forward_samples_pos _ _ _ _ _ _ _ _ _ _ Hl). lia.
Qed.

(** X9 on the flat 2 x 2 scene. *)
Lemma forward_needs_samples_witness :
  exists self out,
    __init__ 2 2 85 [0; 0; 0] "diffuse" 2 true false false = Ok self /\
    forward lambert flat_tracer self (constant_light 2 2 2 (0, 0, 1))
            (grey 2 2) (rough_half 2 2) (metal_zero 2 2) (normal_up 2 2)
            (vpos_flat 2 2) = Ok out /\
    (1 <= lm_spp (constant_light 2 2 2 (0%R, 0%R, 1%R)))%nat.
Proof.
  destruct flat_scene_returns as (self & l & E & _ & Hl & _).
  apply forward_of_locals in Hl.
  exists self. eexists. split; [exact E|]. split; [exact Hl|].
  exact (forward_needs_samples _ _ _ _ _ _ _ _ _ _ Hl).
Defined.

(** Line 239, [light.view(1, spp, irow, icol, 3)]: the answer of the
    lighting model has spp * irow * icol * 3 entries. *)
Lemma integrate_view self lm irow icol direction vpos woe wo bD bS ig :
  integrate self lm irow icol direction vpos woe wo bD bS = Ok ig ->
  numel (shape (light_raw ig)) = (lm_spp lm * (irow * (icol * 3)))%nat.
Proof.
  unfold integrate. intros H.
  step H light_raw0 El. step H vpos1 Ev. step H pdf0 Ep.
  step H z Ez. step H l5 El5. step H lp Elp. step H ln Eln. step H lt Elt.
  step H bd Ebd. step H cd Ecd. step H cs Ecs. step H sh Esh.
  injection H as <-. cbn [light_raw].
  apply reshape_ok in El5 as (Hn & _). rewrite <- Hn.
  cbn [numel fold_right]. lia.
Qed.

(** X10: with tracing enabled the lighting model is asked about one
    direction per pixel but its answer is viewed as spp radiances per
    pixel.  So a traced call in which the lighting model answered with
    exactly one radiance per direction asked (as many entries as the
    direction tensor) can only have returned with spp = 1; with more
    samples line 239 raises. *)
Theorem traced_single_sample brdf tr self lm albedo rough metal normal vpos
  l sl :
  forward_locals brdf tr self lm albedo rough metal normal vpos = Ok l ->
  l_ssrt l = Some sl ->
  shape (wo_emitter (l_light_dir l))
  = [1; lm_spp lm; 3; l_irow l; l_icol l]%nat ->
  (0 < l_irow l * l_icol l)%nat ->
  numel (shape (light_raw (l_integrals l)))
  = numel (shape (ssrt_direction_out sl)) ->
  lm_spp lm = 1%nat.
Proof.
  intros Hl Hsl Swoe Hpix Hnum.
  apply forward_locals_ok in Hl
    as (ch & f & _ & _ & _ & _ & _ & _ & _ & _ & _ & _ & _ & _ & _ & Eld & _
        & dir & vp & Hssrt & Hig).
  cbv zeta in *.
  destruct (use_ssrt self).
  2:{ destruct Hssrt as (Hnone & _). congruence. }
  destruct Hssrt as (sl' & Esl & El & -> & ->).
  rewrite Hsl in El. injection El as <-.
  destruct (direction_layout _ _ _ _ _ _ _ _ _ Eld Swoe eq_refl)
    as (HS0 & Sdir & _).
  apply ssrt_block_ok in Esl as (Eout & _).
  apply slice_ok in Eout as (_ & Sout & _).
  rewrite Sdir in Sout. cbn [dim nth] in Sout.
  rewrite pyslice_last in Sout by exact HS0.
  cbn [fst snd set_at update_at] in Sout.
  apply integrate_view in Hig. rewrite Hnum, Sout in Hig.
  cbn [numel fold_right] in Hig. nia.
Qed.

(** X10 on the flat 2 x 2 scene with tracing enabled and one sample per
    pixel. *)
Lemma traced_single_sample_witness :
  exists self l sl,
    __init__ 2 2 85 [0; 0; 0] "diffuse" 2 true true false = Ok self /\
    forward_locals lambert flat_tracer self (constant_light 1 2 2 (0, 0, 1))
                   (grey 2 2) (rough_half 2 2) (metal_zero 2 2)
                   (normal_up 2 2) (vpos_flat 2 2) = Ok l /\
    l_ssrt l = Some sl /\
    numel (shape (light_raw (l_integrals l)))
    = numel (shape (ssrt_direction_out sl)) /\
    lm_spp (constant_light 1 2 2 (0, 0, 1)) = 1%nat.
Proof.
  destruct (init_returns 2 2 85 [0; 0; 0] "diffuse" 2 true true false)
    as (self & E & HW & HH & Hk & Hn & _ & Hs & _ & Sv);
    [lia | lia | reflexivity |].
  destruct (traced_scene_returns flat_tracer self
              (constant_light 1 2 2 (0, 0, 1)) 1 _
              (mkT [4; 3]%nat (fun _ => 1))
              (mkT [1; 1; 1; 2; 2]%nat (fun _ => 1))
              (or_introl eq_refl) HW HH Hn Hk Hs Sv eq_refl
              ltac:(discriminate) (fun _ _ => eq_refl) eq_refl)
    as (l & sl & Hl & Hsl & Hwoe & Hlr & Sout & Hr & Hc);
    [ intros d Hd; cbn [constant_light lm_call]; rewrite Hd; reflexivity
    | reflexivity | intros v1; reflexivity | reflexivity | ].
  assert (Hnum : numel (shape (light_raw (l_integrals l)))
                 = numel (shape (ssrt_direction_out sl)))
    by (rewrite Hlr, Sout; reflexivity).
  exists self, l, sl. split; [exact E|]. split; [exact Hl|].
  split; [exact Hsl|]. split; [exact Hnum|].
  apply (traced_single_sample _ _ _ _ _ _ _ _ _ l sl Hl Hsl).
  - rewrite Hwoe, Hr, Hc. reflexivity.
  - rewrite Hr, Hc. lia.
  - exact Hnum.
Defined.

(** ** The buffers of the constructor *)

(** The entries of the image-plane grid [pCoord] and of the view
    directions [v] built by lines 36-48. *)
Lemma init_buffers (W H : Z) (fov_deg : R) (cam : list R) (kind : string)
  (n : Z) (ds us usp : bool) :
  (0 < W)%Z -> (0 <= H)%Z -> length cam = 3%nat ->
  exists self,
    __init__ W H fov_deg cam kind n ds us usp = Ok self /\
    xRange self = 1 * tan (fov_deg / 180 * PI / 2) /\
    yRange self = IZR H / IZR W * xRange self /\
    shape (pCoord self) = [1; 3; Z.to_nat H; Z.to_nat W]%nat /\
    shape (v self) = [1; 3; Z.to_nat H; Z.to_nat W]%nat /\
    exists xs ys,
      np.linspace (- xRange self) (xRange self) W = Ok xs /\
      np.linspace (- yRange self) (yRange self) H = Ok ys /\
      forall i j, (i < Z.to_nat H)%nat -> (j < Z.to_nat W)%nat ->
        let p c := elem (pCoord self) [0; c; i; j]%nat in
        let d c := nth c cam 0 - p c in
        p 0%nat = elem xs [j] /\
        p 1%nat = elem ys [(Z.to_nat H - 1 - i)%nat] /\
        p 2%nat = -1 /\
        forall c, (c < 3)%nat ->
          elem (v self) [0; c; i; j]%nat
          = d c / sqrt (Rmax (0 + d 0%nat * d 0%nat + d 1%nat * d 1%nat
                              + d 2%nat * d 2%nat) 1e-12).
Proof.
  intros HW HH Hcam. unfold __init__, np.array_1311.
  rewrite Hcam. cbn [Nat.eqb bind].
  rewrite py_div_ok by (apply not_0_IZR; lia). cbn [bind].
  unfold np.linspace.
  destruct (Z.ltb_spec W 0); [lia|]. destruct (Z.ltb_spec H 0); [lia|].
  cbn [bind np.meshgrid shape].
  unfold np.flip, torch.flip. cbn [rank shape length Nat.ltb Nat.leb np.with_error bind].
  unfold np.ones. cbn [forallb].
  destruct (Z.leb_spec 0 H); [|lia]. destruct (Z.leb_spec 0 W); [|lia].
  cbn [andb bind List.map].
  unfold np.stack3, torch.stack3.
  cbn [rank shape length Nat.leb torch.neg torch.map torch.ones].
  rewrite !shape_eqb_refl. cbn [andb np.with_error bind insert_at].
  unfold np.newaxis, torch.unsqueeze.
  cbn [rank shape length Nat.leb np.with_error bind insert_at].
  unfold np.binop, torch.binop. cbn [shape]. bcast.
  cbn [np.with_error bind shape]. bcast. cbn [np.with_error bind shape].
  unfold np.sum, torch.sum.
  cbn [rank shape length Nat.ltb Nat.leb np.with_error bind remove_at np.maximum torch.map insert_at np.sqrt].
  bcast. cbn [np.with_error bind].
  eexists. split; [reflexivity|].
  cbn [xRange yRange pCoord v shape].
  split; [reflexivity|]. split; [reflexivity|]. split; [reflexivity|].
  split; [reflexivity|].
  unfold np.linspace.
  destruct (Z.ltb_spec W 0); [lia|]. destruct (Z.ltb_spec H 0); [lia|].
  do 2 eexists. split; [reflexivity|]. split; [reflexivity|].
  intros i j Hi Hj. cbv zeta.
  assert (Hin4 : forall c, (c < 3)%nat ->
             in_range [1; 3; Z.to_nat H; Z.to_nat W]%nat [0; c; i; j]%nat)
    by (intros; cbn; lia).
  cbn [elem nth remove_at insert_at update_at torch.map torch.neg torch.ones
       dim].
  split; [reflexivity|]. split; [reflexivity|]. split; [lra|].
  intros c Hc.
  rewrite !(bidx_in_range _ _ (Hin4 c Hc)).
  repeat (cbn [bidx length Nat.sub skipn map2 Nat.eqb elem nth remove_at
               insert_at update_at torch.map torch.neg torch.ones dim np.sqrt
               np.maximum sum_n];
          rewrite ?(bsel_lt 3 c Hc), ?(bsel_lt _ i Hi), ?(bsel_lt _ j Hj)).
  reflexivity.
Qed.

(** [np.linspace(a, b, n)] with n >= 2: sample k is a + k (b - a) / (n - 1),
    so the first is a and the last is b. *)
Lemma linspace_at a b n xs k :
  (2 <= n)%Z -> np.linspace a b n = Ok xs -> (k < Z.to_nat n)%nat ->
  elem xs [k] = a + INR k * ((b - a) / (IZR n - 1)).
Proof.
  intros Hn E Hk. unfold np.linspace in E.
  destruct (Z.ltb_spec n 0); [lia|]. injection E as <-. cbn [elem nth].
  assert (Hm : INR (Z.to_nat n - 1) = IZR n - 1).
  { rewrite minus_INR by lia.
    rewrite (INR_IZR_INZ (Z.to_nat n)), Z2Nat.id by lia. reflexivity. }
  rewrite Hm.
  destruct (Nat.ltb_spec 1 (Z.to_nat n)); [|lia]. cbn [andb].
  destruct (Nat.eqb_spec k (Z.to_nat n - 1)) as [->|]; [|reflexivity].
  rewrite Hm. field.
  assert (2 <= IZR n) by (apply IZR_le; exact Hn). lra.
Qed.

(** X11: the image-plane grid [pCoord] of a W x H layer (W, H >= 2)
    lies at z = -1 and spans [-xRange, xRange] x [-yRange, yRange] border to
    border, with xRange = tan(fov / 2), yRange = H / W * xRange; column j is
    at x = xRange * (2j / (W - 1) - 1) and row i at
    y = yRange * (1 - 2i / (H - 1)), so row 0 is the top. *)
Theorem init_image_plane (W H : Z) (fov_deg : R) (cam : list R)
  (kind : string) (n : Z) (ds us usp : bool) :
  (2 <= W)%Z -> (2 <= H)%Z -> length cam = 3%nat ->
  exists self,
    __init__ W H fov_deg cam kind n ds us usp = Ok self /\
    xRange self = tan (fov_deg / 180 * PI / 2) /\
    yRange self = IZR H / IZR W * xRange self /\
    shape (pCoord self) = [1; 3; Z.to_nat H; Z.to_nat W]%nat /\
    forall i j, (i < Z.to_nat H)%nat -> (j < Z.to_nat W)%nat ->
      elem (pCoord self) [0; 0; i; j]%nat
      = xRange self * (2 * INR j / (IZR W - 1) - 1) /\
      elem (pCoord self) [0; 1; i; j]%nat
      = yRange self * (1 - 2 * INR i / (IZR H - 1)) /\
      elem (pCoord self) [0; 2; i; j]%nat = -1.
Proof.
  intros HW HH Hcam.
  destruct (init_buffers W H fov_deg cam kind n ds us usp)
    as (self & E & Hx & Hy & Sp & _ & xs & ys & Exs & Eys & Hent);
    [lia | lia | exact Hcam |].
  exists self. split; [exact E|]. split; [rewrite Hx; ring|].
  split; [exact Hy|]. split; [exact Sp|].
  intros i j Hi Hj. destruct (Hent i j Hi Hj) as (H0 & H1 & H2 & _).
  cbv beta in H0, H1, H2.
  assert (RW : 2 <= IZR W) by (apply IZR_le; exact HW).
  assert (RH : 2 <= IZR H) by (apply IZR_le; exact HH).
  rewrite H0, H1, H2.
  rewrite (linspace_at _ _ W xs j HW Exs Hj).
  rewrite (linspace_at _ _ H ys _ HH Eys) by lia.
  rewrite !minus_INR by lia.
  rewrite (INR_IZR_INZ (Z.to_nat H)), Z2Nat.id by lia. cbn [INR].
  split; [field; lra|]. split; [field; lra | reflexivity].
Qed.

(** X11 on the default 320 x 240 layer: the top left pixel is the corner
    (-xRange, yRange, -1) of the image plane. *)
Lemma init_image_plane_witness :
  exists self,
    __init__ 320 240 85 [0; 0; 0] "ggx" 1 true false false = Ok self /\
    elem (pCoord self) [0; 0; 0; 0]%nat = - xRange self /\
    elem (pCoord self) [0; 1; 0; 0]%nat = yRange self.
Proof.
  destruct (init_image_plane 320 240 85 [0; 0; 0] "ggx" 1 true false false)
    as (self & E & _ & _ & _ & Hent); [lia | lia | reflexivity |].
  exists self. split; [exact E|].
  destruct (Hent 0%nat 0%nat) as (H0 & H1 & _); [lia | lia |].
  rewrite H0, H1. cbn [INR]. split; field; lra.
Defined.

(** X12: for a camera at or in front of the origin (z >= 0, the image
    plane being at z = -1) the view direction [v] stored by the constructor
    is a unit vector at every pixel and points to the camera's side
    (z > 0). *)
Theorem init_view_unit (W H : Z) (fov_deg cx cy cz : R) (kind : string)
  (n : Z) (ds us usp : bool) :
  (0 < W)%Z -> (0 <= H)%Z -> 0 <= cz ->
  exists self,
    __init__ W H fov_deg [cx; cy; cz] kind n ds us usp = Ok self /\
    shape (v self) = [1; 3; Z.to_nat H; Z.to_nat W]%nat /\
    forall i j, (i < Z.to_nat H)%nat -> (j < Z.to_nat W)%nat ->
      let w c := elem (v self) [0; c; i; j]%nat in
      w 0%nat * w 0%nat + w 1%nat * w 1%nat + w 2%nat * w 2%nat = 1 /\
      0 < w 2%nat.
Proof.
  intros HW HH Hcz.
  destruct (init_buffers W H fov_deg [cx; cy; cz] kind n ds us usp)
    as (self & E & _ & _ & _ & Sv & xs & ys & _ & _ & Hent);
    [lia | lia | reflexivity |].
  exists self. split; [exact E|]. split; [exact Sv|].
  intros i j Hi Hj. cbv zeta.
  destruct (Hent i j Hi Hj) as (_ & _ & H2 & Hv). cbv beta in H2, Hv.
  rewrite (Hv 0%nat), (Hv 1%nat), (Hv 2%nat) by lia.
  rewrite H2. cbn [nth].
  set (a := cx - elem (pCoord self) [0; 0; i; j]%nat).
  set (b := cy - elem (pCoord self) [0; 1; i; j]%nat).
  set (c := cz - -1).
  set (S := 0 + a * a + b * b + c * c).
  assert (Hc : 1 <= c) by (unfold c; lra).
  assert (HS : 1 <= S) by (unfold S; nra).
  rewrite Rmax_left by lra.
  assert (Hq : 1 <= sqrt S).
  { rewrite <- sqrt_1. apply sqrt_le_1_alt. exact HS. }
  assert (Hsq : sqrt S * sqrt S = S) by (apply sqrt_sqrt; lra).
  set (q := sqrt S) in *.
  split.
  - replace (a / q * (a / q) + b / q * (b / q) + c / q * (c / q))
      with (S / (q * q)) by (unfold S; field; apply Rgt_not_eq; lra).
    rewrite Hsq. unfold Rdiv. apply Rinv_r. apply Rgt_not_eq. lra.
  - apply Rdiv_lt_0_compat; lra.
Qed.

(** X12 on the default 320 x 240 layer with the camera at the origin. *)
Lemma init_view_unit_witness :
  exists self,
    __init__ 320 240 85 [0; 0; 0] "ggx" 1 true false false = Ok self /\
    0 < elem (v self) [0; 2; 239; 319]%nat.
Proof.
  destruct (init_view_unit 320 240 85 0 0 0 "ggx" 1 true false false)
    as (self & E & _ & Hent); [lia | lia | lra |].
  exists self. split; [exact E|].
  destruct (Hent 239%nat 319%nat) as [_ Hz]; [lia | lia |]. exact Hz.
Defined.

(** ** The calls of [forward]

    The properties of a whole [forward] call, stated on what the call is
    given, on what it asks of the lighting model and of the BRDF kernels,
    and on what it returns. *)

Lemma local_frames_ok normal f :
  local_frames normal = Ok f ->
  create_frame normal 1e-6 = Ok (cx f, cy f, cz f).
Proof.
  unfold local_frames. intros H.
  step H xyz E. destruct xyz as [[x y] z].
  step H c1 E1. step H c2 E2. step H s E3. destruct s as [[a b] c].
  injection H as <-. exact E.
Qed.

Lemma to_light_samples self lm f normal vpos ld :
  to_light self lm f normal vpos = Ok ld ->
  sample_call lm vpos normal = Ok (wo_emitter ld).
Proof.
  intros H.
  apply to_light_ok in H
    as (v1 & n1 & x1 & y1 & z1 & raw & d1 & d2 & Ev & En & Es & _).
  unfold sample_call. rewrite Ev, En. exact Es.
Qed.

Lemma integrate_asks self lm irow icol direction vpos woe wo bD bS ig :
  integrate self lm irow icol direction vpos woe wo bD bS = Ok ig ->
  lm_call lm direction = Ok (light_raw ig) /\
  density_call lm vpos woe = Ok (pdf_raw ig).
Proof.
  intros H. apply integrate_calls in H as (Hc & v1 & Ev & Ep).
  split; [exact Hc|]. unfold density_call. rewrite Ev. exact Ep.
Qed.

Lemma evaluate_brdf_kernels brdf self lm albedo_clip rough_clip metal_clip wi
  wo irow icol bt :
  evaluate_brdf brdf self lm albedo_clip rough_clip metal_clip wi wo irow icol
    = Ok bt ->
  kernel_pdf brdf (brdf_type self) albedo_clip rough_clip metal_clip wi wo
    = Ok (pdfs bt) /\
  exists valid,
    kernel_eval brdf (brdf_type self) albedo_clip rough_clip metal_clip wi wo
    = Ok (eval_diff bt, eval_spec bt, valid).
Proof.
  unfold evaluate_brdf, kernel_pdf, kernel_eval. intros H.
  step H q Eq. destruct q as [[[p d] s] m].
  step H ed Eed. step H bd Ebd. step H es Ees. step H bs Ebs.
  injection H as <-. cbn [pdfs eval_diff eval_spec].
  destruct (String.eqb (brdf_type self) "ggx").
  { step Eq p0 Ep. step Eq p1 Ep1. step Eq r Er. destruct r as [[d0 s0] m0].
    injection Eq as <- <- <- <-. rewrite Ep. cbn [bind]. eauto. }
  destruct (String.eqb (brdf_type self) "diffuse").
  { step Eq p0 Ep. step Eq r Er. destruct r as [[d0 s0] m0].
    injection Eq as <- <- <- <-. eauto. }
  step Eq p0 Ep. step Eq p1 Ep1. step Eq r Er. destruct r as [[d0 s0] m0].
  injection Eq as <- <- <- <-. rewrite Ep. cbn [bind]. eauto.
Qed.

(** The calls of a [forward] call that returned, with the local variables
    that hold their arguments and answers. *)
Lemma forward_answers brdf tr self lm albedo rough metal normal vpos l :
  forward_locals brdf tr self lm albedo rough metal normal vpos = Ok l ->
  exists f valid dir vp,
    local_frames normal = Ok f /\
    to_camera self f = Ok (l_view l) /\
    to_light self lm f normal vpos = Ok (l_light_dir l) /\
    (if use_ssrt self then
       exists sl,
         ssrt_block tr self (clip_window (l_row l) (l_col l))
                    (l_row l) (l_col l) (l_irow l) (l_icol l)
                    (direction (l_light_dir l)) albedo rough metal normal vpos
         = Ok sl /\ dir = ssrt_direction_out sl
     else dir = direction (l_light_dir l)) /\
    integrate self lm (l_irow l) (l_icol l) dir vp
              (wo_emitter (l_light_dir l)) (wo (l_light_dir l))
              (brdfDiffuse (l_brdf l)) (brdfSpec (l_brdf l))
    = Ok (l_integrals l) /\
    answered brdf self lm albedo rough metal normal vpos
      {| a_x := cx f; a_y := cy f; a_z := cz f;
         a_woe := wo_emitter (l_light_dir l);
         a_albedo := l_albedo_clip l; a_rough := l_rough_clip l;
         a_metal := l_metal_clip l; a_wi := l_wi l;
         a_wo := wo (l_light_dir l);
         a_diff := eval_diff (l_brdf l); a_spec := eval_spec (l_brdf l);
         a_valid := valid; a_pdf := pdfs (l_brdf l);
         a_irow := l_irow l; a_icol := l_icol l;
         a_dir := dir; a_vpos := vp;
         a_light := light_raw (l_integrals l);
         a_density := pdf_raw (l_integrals l) |}.
Proof.
  intros H.
  apply forward_locals_ok in H
    as (ch & f & Sa & _ & _ & _ & Ef & Evd & Ewi & Ewm & Eac & Emc & Erc & Eir
        & Eic & Eld & Ebt & dir & vp & Hs & Hig).
  cbv zeta in *.
  destruct (evaluate_brdf_kernels _ _ _ _ _ _ _ _ _ _ _ Ebt)
    as (Hpdf & valid & Heval).
  destruct (integrate_asks _ _ _ _ _ _ _ _ _ _ _ Hig) as (Hcall & Hden).
  exists f, valid, dir, vp.
  split; [exact Ef|]. split; [exact Evd|]. split; [exact Eld|].
  split.
  { destruct (use_ssrt self).
    - destruct Hs as (sl & Esl & _ & -> & _). eauto.
    - tauto. }
  split; [exact Hig|].
  unfold answered.
  cbn [a_x a_y a_z a_woe a_albedo a_rough a_metal a_wi a_wo a_diff a_spec
       a_valid a_pdf a_irow a_icol a_dir a_vpos a_light a_density].
  split; [now apply local_frames_ok|].
  split; [now apply (to_light_samples self lm f)|].
  split; [exact Eir|]. split; [exact Eic|].
  split; [exact Hpdf|]. split; [exact Heval|].
  split; [|split; [exact Hcall | exact Hden]].
  rewrite Sa. cbn [dim nth].
  destruct (use_ssrt self).
  - destruct Hs as (sl & Esl & _ & _ & ->).
    apply ssrt_block_ok in Esl as (_ & _ & _ & _ & _ & Ec). exact Ec.
  - destruct Hs as (_ & _ & ->). reflexivity.
Qed.

Lemma pyslice_23 : pyslice 3 (Some 2%Z) (Some 3%Z) = (2%nat, 1%nat).
Proof. reflexivity. Qed.

(** Lines 99-106 on the local view direction of an H x W image. *)
Lemma fold_mask_clamp_4d ds r H W :
  shape r = [1; 3; H; W]%nat ->
  exists g,
    fold_mask_clamp ds 1 r = Ok g /\
    shape (g_mask g) = [1; 1; H; W]%nat /\
    shape (g_unit g) = [1; 3; H; W]%nat /\
    let loc c i j := fold_z ds c (elem r [0; c; i; j]%nat) in
    let cl c i j :=
      if (c =? 2)%nat then Rmax (loc 2%nat i j) 1e-3 else loc c i j in
    (forall c i j, (c < 3)%nat -> (i < H)%nat -> (j < W)%nat ->
       elem (g_local g) [0; c; i; j]%nat = loc c i j) /\
    (forall i j, (i < H)%nat -> (j < W)%nat ->
       elem (g_mask g) [0; 0; i; j]%nat
       = if Rlt_dec (loc 2%nat i j) 1e-6 then 0 else 1) /\
    (forall c i j, (c < 3)%nat -> (i < H)%nat -> (j < W)%nat ->
       elem (g_clamped g) [0; c; i; j]%nat = cl c i j) /\
    (forall c i j, (c < 3)%nat -> (i < H)%nat -> (j < W)%nat ->
       elem (g_unit g) [0; c; i; j]%nat
       = cl c i j
         / Rmax (sqrt (0 + cl 0%nat i j * cl 0%nat i j
                       + cl 1%nat i j * cl 1%nat i j
                       + cl 2%nat i j * cl 2%nat i j)) 1e-6).
Proof.
  intros Sr.
  destruct (fold_mask_clamp_returns ds 1 r) as (g & Eg & Su & Sm).
  { unfold rank. rewrite Sr. cbn. lia. }
  { rewrite Sr. cbn. lia. }
  exists g. split; [exact Eg|].
  rewrite Sr in Su, Sm. cbn [set_at update_at] in Sm.
  split; [exact Sm|]. split; [exact Su|]. cbv zeta.
  destruct (fold_mask_clamp_shapes _ _ _ _ Eg) as (Sl & Sc & _).
  pose proof (fold_mask_clamp_ok _ _ _ _ Eg) as (Hmask & _ & Hsame & Hunit).
  (* the folded direction and the clamped z, from the definition *)
  unfold fold_mask_clamp in Eg.
  step Eg wl Ewl. step Eg z Ez. step Eg m Em. step Eg z2 Ez2. step Eg wc Ewc.
  step Eg wu Ewu. injection Eg as <-.
  cbn [g_mask g_local g_clamped g_unit] in *.
  assert (Hloc : forall c i j, (c < 3)%nat -> (i < H)%nat -> (j < W)%nat ->
             elem wl [0; c; i; j]%nat
             = fold_z ds c (elem r [0; c; i; j]%nat)).
  { intros c i j Hc Hi Hj. unfold fold_z. destruct ds.
    - step Ewl z0 Ez0.
      apply select_ok in Ez0 as (k & Hk & Sz0 & Hz0).
      apply pyindex_nonneg_ok in Hk as [-> _]; [|lia].
      apply select_set_ok in Ewl as (k & Hk & _ & Hset).
      apply pyindex_nonneg_ok in Hk as [-> _]; [|lia].
      change (Z.to_nat 2) with 2%nat in *.
      rewrite Hset. cbn [nth remove_at torch.abs torch.map shape elem andb].
      rewrite Sz0, Sr. cbn [remove_at].
      destruct (Nat.eqb_spec c 2) as [->|Hne]; [|reflexivity].
      rewrite bidx_in_range by (cbn; lia). rewrite Hz0. reflexivity.
    - injection Ewl as <-. reflexivity. }
  assert (Hcl : forall i j, (i < H)%nat -> (j < W)%nat ->
             elem wc [0; 2; i; j]%nat
             = Rmax (elem wl [0; 2; i; j]%nat) 1e-3).
  { intros i j Hi Hj.
    apply select_ok in Ez2 as (k & Hk & Sz2 & Hz2).
    apply pyindex_nonneg_ok in Hk as [-> _]; [|lia].
    apply select_set_ok in Ewc as (k & Hk & _ & Hset).
    apply pyindex_nonneg_ok in Hk as [-> _]; [|lia].
    change (Z.to_nat 2) with 2%nat in *.
    rewrite Hset. cbn [nth remove_at torch.clamp_min torch.map shape elem
                       Nat.eqb].
    rewrite Sz2, Sl, Sr. cbn [remove_at].
    rewrite bidx_in_range by (cbn; lia). rewrite Hz2. reflexivity. }
  assert (Hclamped : forall c i j,
             (c < 3)%nat -> (i < H)%nat -> (j < W)%nat ->
             elem wc [0; c; i; j]%nat
             = if (c =? 2)%nat
               then Rmax (fold_z ds 2 (elem r [0; 2; i; j]%nat)) 1e-3
               else fold_z ds c (elem r [0; c; i; j]%nat)).
  { intros c i j Hc Hi Hj. destruct (Nat.eqb_spec c 2) as [->|Hne].
    - rewrite Hcl, Hloc by lia. reflexivity.
    - rewrite Hsame by (cbn [nth]; exact Hne). now apply Hloc. }
  split; [exact Hloc|]. split.
  { intros i j Hi Hj. rewrite Hmask by (rewrite Sm; cbn; lia).
    cbn [update_at Nat.add]. rewrite Hloc by lia. reflexivity. }
  split; [exact Hclamped|].
  intros c i j Hc Hi Hj. rewrite Hunit, Sc, Sr.
  cbn [dim nth sum_n set_at update_at].
  rewrite !Hclamped by lia. reflexivity.
Qed.

(** Lines 94-107: the view mask and the local view direction, pixel by
    pixel, from the view buffer and the frame axes. *)
Lemma to_camera_entries self normal f vd H W :
  local_frames normal = Ok f -> shape normal = [1; 3; H; W]%nat ->
  shape (v self) = [1; 3; H; W]%nat ->
  to_camera self f = Ok vd ->
  let local := fun c i j =>
    local_component (double_sided self) (vec_at (v self) 0 [i; j]%nat)
                    (cx f) (cy f) (cz f) c i j in
  let cl := clamped_view self (cx f) (cy f) (cz f) in
  shape (wi_mask vd) = [1; 1; H; W]%nat /\
  shape (wi vd) = [1; 1; 3; H; W]%nat /\
  (forall i j, (i < H)%nat -> (j < W)%nat ->
     elem (wi_mask vd) [0; 0; i; j]%nat
     = if Rlt_dec (local 2%nat i j) 1e-6 then 0 else 1) /\
  (forall c i j, (c < 3)%nat -> (i < H)%nat -> (j < W)%nat ->
     elem (g_local (wi_graze vd)) [0; c; i; j]%nat = local c i j /\
     elem (g_clamped (wi_graze vd)) [0; c; i; j]%nat = cl c i j /\
     elem (wi vd) [0; 0; c; i; j]%nat
     = cl c i j
       / Rmax (sqrt (0 + cl 0%nat i j * cl 0%nat i j
                     + cl 1%nat i j * cl 1%nat i j
                     + cl 2%nat i j * cl 2%nat i j)) 1e-6).
Proof.
  intros Ef Sn Sv Hvd. cbv zeta.
  destruct (local_frames_returns normal H W Sn)
    as (f' & Ef' & _ & _ & _ & _ & Sfx & Sfy & Sfz & Hf).
  rewrite Ef in Ef'. injection Ef' as <-.
  destruct (frame_project_4d _ _ _ _ H W Sv Sfx Sfy Sfz) as (r & Er & Sr & Hr).
  unfold to_camera in Hvd. rewrite Er in Hvd. cbn [bind] in Hvd.
  destruct (fold_mask_clamp_4d (double_sided self) r H W Sr)
    as (g & Eg & Sm & Su & Hloc & Hmask & Hcl & Hunit).
  rewrite Eg in Hvd. cbn [bind] in Hvd.
  step Hvd w1 Ew1. injection Hvd as <-. cbn [wi_mask wi wi_graze].
  apply unsqueeze_ok in Ew1 as (_ & Sw1 & Hw1).
  rewrite Su in Sw1. cbn [insert_at] in Sw1.
  assert (Hraw : forall c i j, (c < 3)%nat -> (i < H)%nat -> (j < W)%nat ->
             fold_z (double_sided self) c (elem r [0; c; i; j]%nat)
             = local_component (double_sided self)
                 (vec_at (v self) 0 [i; j]%nat) (cx f) (cy f) (cz f) c i j).
  { intros c i j Hc Hi Hj. rewrite (Hr c i j Hc Hi Hj).
    destruct (Hf c i j Hc) as (-> & -> & ->).
    unfold local_component, vec_at, dot. cases_lt3 c; reflexivity. }
  assert (Hclv : forall c i j, (c < 3)%nat -> (i < H)%nat -> (j < W)%nat ->
             (if (c =? 2)%nat
              then Rmax (fold_z (double_sided self) 2
                           (elem r [0; 2; i; j]%nat)) 1e-3
              else fold_z (double_sided self) c (elem r [0; c; i; j]%nat))
             = clamped_view self (cx f) (cy f) (cz f) c i j).
  { intros c i j Hc Hi Hj. unfold clamped_view.
    rewrite (Hraw 2%nat i j), (Hraw c i j) by lia. reflexivity. }
  split; [exact Sm|]. split; [exact Sw1|]. split.
  { intros i j Hi Hj. rewrite Hmask, Hraw by lia. reflexivity. }
  intros c i j Hc Hi Hj.
  split; [rewrite Hloc by lia; now apply Hraw|].
  split; [rewrite Hcl by lia; now apply Hclv|].
  rewrite Hw1. cbn [remove_at]. rewrite Hunit by lia.
  rewrite (Hclv c i j), (Hclv 0%nat i j), (Hclv 1%nat i j), (Hclv 2%nat i j)
    by lia.
  reflexivity.
Qed.

(** Lines 126-132, pixel by pixel, from the sampled directions and the
    frame axes. *)
Lemma to_light_entries self lm normal vpos f ld S H W :
  local_frames normal = Ok f -> shape normal = [1; 3; H; W]%nat ->
  to_light self lm f normal vpos = Ok ld ->
  shape (wo_emitter ld) = [1; S; 3; H; W]%nat ->
  shape (wo ld) = [1; S; 3; H; W]%nat /\
  forall s c i j, (s < S)%nat -> (c < 3)%nat -> (i < H)%nat -> (j < W)%nat ->
    elem (wo ld) [0; s; c; i; j]%nat
    = local_component (double_sided self) (sample_at (wo_emitter ld) s i j)
                      (cx f) (cy f) (cz f) c i j.
Proof.
  intros Ef Sn Eld Sw.
  destruct (local_frames_returns normal H W Sn)
    as (f' & Ef' & _ & _ & _ & _ & Sfx & Sfy & Sfz & Hf).
  rewrite Ef in Ef'. injection Ef' as <-.
  destruct (wo_local _ _ _ _ _ _ S H W Eld Sfx Sfy Sfz Sw) as [Swo Hwo].
  split; [exact Swo|].
  intros s c i j Hs Hc Hi Hj. rewrite (Hwo s c i j Hs Hc Hi Hj).
  destruct (Hf c i j Hc) as (-> & -> & ->).
  unfold local_component, sample_at, vec_at, dot. cases_lt3 c; reflexivity.
Qed.

(** Lines 135-138 and 166: the directions whose radiance is asked. *)
Lemma directions_asked tr self lm f albedo rough metal normal vpos ld dir w
  row col irow icol S H W :
  to_light self lm f normal vpos = Ok ld ->
  shape (wo_emitter ld) = [1; S; 3; H; W]%nat ->
  lm_spp lm = S ->
  (if use_ssrt self then
     exists sl,
       ssrt_block tr self w row col irow icol (direction ld) albedo rough
                  metal normal vpos = Ok sl /\ dir = ssrt_direction_out sl
   else dir = direction ld) ->
  let first := if use_ssrt self then (S - 1)%nat else 0%nat in
  let count := if use_ssrt self then 1%nat else S in
  shape dir = [count; (H * W)%nat; 3%nat] /\
  forall s n c, (s < count)%nat -> (n < H * W)%nat -> (c < 3)%nat ->
    elem dir [s; n; c]
    = elem (wo_emitter ld) [0%nat; (first + s)%nat; c; (n / W)%nat; n mod W].
Proof.
  intros Eld Sw HS Hd. cbv zeta.
  destruct (direction_layout _ _ _ _ _ _ S H W Eld Sw HS)
    as (HS0 & Sdir & Hdir).
  destruct (use_ssrt self).
  - destruct Hd as (sl & Esl & ->).
    apply ssrt_block_ok in Esl as (Eout & _).
    apply slice_ok in Eout as (_ & Sout & Hout).
    rewrite Sdir in Sout, Hout. cbn [dim nth] in Sout, Hout.
    rewrite pyslice_last in Sout, Hout by exact HS0.
    cbn [fst snd set_at update_at] in Sout, Hout.
    split; [exact Sout|].
    intros s n c Hs Hn Hc. rewrite Hout. cbn [update_at].
    apply Hdir; lia.
  - subst dir. split; [exact Sdir|].
    intros s n c Hs Hn Hc. cbn [Nat.add]. now apply Hdir.
Qed.

(** The shape of a clipped tensor. *)
Lemma clip_shape {A : Type} w dr dc (t u : tensor A) :
  clip w dr dc t = Ok u -> dr <> dc ->
  shape u
  = set_at dc (snd (pyslice (dim (shape t) dc) (Some (left w))
                            (Some (right w))))
      (set_at dr (snd (pyslice (dim (shape t) dr) (Some (top w))
                               (Some (bottom w))))
         (shape t)).
Proof.
  unfold clip. intros H Hne. step H t1 E1.
  apply slice_ok in E1 as (_ & S1 & _). apply slice_ok in H as (_ & S2 & _).
  rewrite S2, S1. now rewrite dim_set_at_other by exact Hne.
Qed.

Lemma pyslice_len_le n lo hi : (snd (pyslice n lo hi) <= n)%nat.
Proof. pose proof (pyslice_inside n lo hi). lia. Qed.

(** The returned view mask and the local view direction of the kernels
    have one entry per pixel of the clipped image. *)
Lemma forward_mask_shape brdf tr self lm albedo rough metal normal vpos l
  H W :
  forward_locals brdf tr self lm albedo rough metal normal vpos = Ok l ->
  shape (v self) = [1; 3; H; W]%nat ->
  shape normal = [1; 3; H; W]%nat ->
  shape (l_wi_mask l) = [1; 1; l_irow l; l_icol l]%nat /\
  shape (l_wi l) = [1; 1; 3; l_irow l; l_icol l]%nat /\
  (l_irow l <= H)%nat /\ (l_icol l <= W)%nat.
Proof.
  intros Hl Sv Sn.
  apply forward_locals_ok in Hl
    as (ch & f & _ & _ & _ & _ & Ef & Evd & Ewi & Ewm & _ & _ & _ & Eir & Eic
        & _).
  cbv zeta in *.
  destruct (to_camera_entries self normal f _ H W Ef Sn Sv Evd)
    as (Sm & Swi & _).
  pose proof (clip_shape _ _ _ _ _ Ewi ltac:(lia)) as Swi'.
  pose proof (clip_shape _ _ _ _ _ Ewm ltac:(lia)) as Swm'.
  rewrite Swi in Swi'. rewrite Sm in Swm'.
  change (dim [1; 1; 3; H; W]%nat 3) with H in Swi'.
  change (dim [1; 1; 3; H; W]%nat 4) with W in Swi'.
  change (dim [1; 1; H; W]%nat 2) with H in Swm'.
  change (dim [1; 1; H; W]%nat 3) with W in Swm'.
  pose proof (pyslice_len_le H
                (Some (top (clip_window (l_row l) (l_col l))))
                (Some (bottom (clip_window (l_row l) (l_col l))))) as Hir.
  pose proof (pyslice_len_le W
                (Some (left (clip_window (l_row l) (l_col l))))
                (Some (right (clip_window (l_row l) (l_col l))))) as Hic.
  set (rs := snd (pyslice H _ _)) in *. set (cs' := snd (pyslice W _ _)) in *.
  cbn [set_at update_at] in Swi', Swm'.
  unfold torch.size, rank in Eir, Eic. rewrite Swi' in Eir, Eic.
  cbn [length Nat.ltb Nat.leb dim nth] in Eir, Eic.
  injection Eir as Eir. injection Eic as Eic.
  rewrite Eir, Eic in *. auto.
Qed.

(** C3, amended: in a [forward] call that returned, the lighting model
    was asked to sample directions (line 127) and each direction it
    answered reaches the BRDF kernels projected on the frame of the normal
    of its pixel: channel by channel the dot product with tangent_x,
    tangent_y and normal_z, with the absolute value taken on the z channel
    when the layer is double-sided.  No grazing mask, clamp or
    renormalisation is applied to it. *)
Theorem light_direction_local brdf tr self lm albedo rough metal normal vpos
  out S H W :
  forward brdf tr self lm albedo rough metal normal vpos = Ok out ->
  shape normal = [1; 3; H; W]%nat ->
  exists A,
    answered brdf self lm albedo rough metal normal vpos A /\
    (shape (a_woe A) = [1; S; 3; H; W]%nat -> sampled_locally self A S H W).
Proof.
  intros Hf Sn. apply forward_ok in Hf as (l & Hl & _).
  destruct (forward_answers _ _ _ _ _ _ _ _ _ _ Hl)
    as (f & valid & dir & vp & Ef & _ & Eld & _ & _ & Hans).
  eexists. split; [exact Hans|]. intros Sw.
  unfold sampled_locally. cbn [a_wo a_woe a_x a_y a_z] in *.
  exact (to_light_entries _ _ _ _ _ _ S H W Ef Sn Eld Sw).
Qed.

(** C6: in a [forward] call that returned, the returned view mask and the
    local view direction handed to the BRDF kernels have one entry per
    pixel of the clipped image.  The mask of a pixel is 0 when the local z
    of its view direction (the dot product of the view buffer with
    normal_z, folded when double-sided, before the clamp) is below 1e-6
    and 1 otherwise; after the clamp the local z is at least 1e-3, and
    the direction handed on is the clamped vector renormalised. *)
Theorem view_mask_and_clamp brdf tr self lm albedo rough metal normal vpos
  cd cs mask sh H W :
  forward brdf tr self lm albedo rough metal normal vpos
    = Ok (cd, cs, mask, sh) ->
  shape (v self) = [1; 3; H; W]%nat ->
  shape normal = [1; 3; H; W]%nat ->
  exists A,
    answered brdf self lm albedo rough metal normal vpos A /\
    let local_z := fun i j =>
      local_component (double_sided self) (vec_at (v self) 0 [i; j]%nat)
                      (a_x A) (a_y A) (a_z A) 2 i j in
    let cl := clamped_view self (a_x A) (a_y A) (a_z A) in
    shape mask = [1; 1; a_irow A; a_icol A]%nat /\
    (a_irow A <= H)%nat /\ (a_icol A <= W)%nat /\
    forall i j, (i < a_irow A)%nat -> (j < a_icol A)%nat ->
      elem mask [0; 0; i; j]%nat
      = (if Rlt_dec (local_z i j) 1e-6 then 0 else 1) /\
      cl 2%nat i j = Rmax (local_z i j) 1e-3 /\
      1e-3 <= cl 2%nat i j /\
      forall c, (c < 3)%nat ->
        elem (a_wi A) [0; 0; c; i; j]%nat
        = cl c i j
          / Rmax (sqrt (0 + cl 0%nat i j * cl 0%nat i j
                        + cl 1%nat i j * cl 1%nat i j
                        + cl 2%nat i j * cl 2%nat i j)) 1e-6.
Proof.
  intros Hf Sv Sn. apply forward_ok in Hf as (l & Hl & Hout).
  injection Hout as -> -> -> ->.
  destruct (forward_answers _ _ _ _ _ _ _ _ _ _ Hl)
    as (f & valid & dir & vp & Ef & Evd & _ & _ & _ & Hans).
  destruct (forward_mask_shape _ _ _ _ _ _ _ _ _ _ H W Hl Sv Sn)
    as (Swm' & _ & Hir & Hic).
  apply forward_locals_ok in Hl
    as (ch & f' & _ & _ & _ & _ & Ef' & _ & Ewi & Ewm & _).
  cbv zeta in *. rewrite Ef in Ef'. injection Ef' as <-.
  destruct (to_camera_entries self normal f _ H W Ef Sn Sv Evd)
    as (Sm & Swi & Hmask & Hent).
  eexists. split; [exact Hans|].
  cbn [a_x a_y a_z a_wi a_irow a_icol].
  split; [exact Swm'|]. split; [exact Hir|]. split; [exact Hic|].
  apply clip_window_ok in Ewi as [Hwi _].
  apply clip_window_ok in Ewm as [Hwm _].
  intros i j Hi Hj.
  split; [rewrite Hwm; apply Hmask; lia|].
  split; [reflexivity|].
  split; [unfold clamped_view; cbn [Nat.eqb]; apply Rmax_r|].
  intros c Hc. rewrite Hwi.
  destruct (Hent c i j) as (_ & _ & Hw); try lia. exact Hw.
Qed.

Lemma forward_materials brdf tr self lm albedo rough metal normal vpos l :
  forward_locals brdf tr self lm albedo rough metal normal vpos = Ok l ->
  (forall idx, elem (l_albedo_clip l) idx = elem albedo idx) /\
  (forall idx, elem (l_rough_clip l) idx = elem rough idx) /\
  (forall idx, elem (l_metal_clip l) idx = elem metal idx).
Proof.
  intros Hl.
  apply forward_locals_ok in Hl
    as (ch & f & _ & _ & _ & _ & _ & _ & _ & _ & Eac & Emc & Erc & _).
  cbv zeta in *.
  apply clip_window_ok in Eac as [Ha _]. apply clip_window_ok in Emc as [Hm _].
  apply clip_window_ok in Erc as [Hr _]. auto.
Qed.

(** C1: in a [forward] call that returned, with the sampled directions,
    the lighting density and the BRDF density in the (1, spp, c, h, w)
    layout of the clipped image: the radiance is asked for the sampled
    directions, the density for the sampled directions at the positions,
    and every entry of the diffuse colour is the mean over the spp samples
    of brdf_diffuse * (light * max(wo.z, 0) / pdf_emitter) / brdf_density,
    where brdf_diffuse is the answer of the BRDF kernel, light the answer
    of the radiance call, wo.z the local z of the sampled direction,
    pdf_emitter the answer of the density call floored at 0.001 and
    brdf_density the constant 1 floored at 0.001.  The specular colour is
    the same estimate on brdf_spec when the specular flag is set and is
    zero everywhere, with the shape of the diffuse colour, when it is
    not. *)
Theorem forward_colors brdf tr self lm albedo rough metal normal vpos
  cd cs mask sh H W :
  forward brdf tr self lm albedo rough metal normal vpos
    = Ok (cd, cs, mask, sh) ->
  shape (v self) = [1; 3; H; W]%nat ->
  shape normal = [1; 3; H; W]%nat ->
  exists A,
    answered brdf self lm albedo rough metal normal vpos A /\
    materials_read albedo rough metal A /\
    shape mask = [1; 1; a_irow A; a_icol A]%nat /\
    let S := lm_spp lm in
    let density := torch.clamp_min 0.001 (torch.ones_like (a_pdf A)) in
    (a_irow A = H -> a_icol A = W ->
     shape (a_woe A) = [1; S; 3; H; W]%nat ->
     sampled_locally self A S H W /\
     asked_directions self A S H W /\
     (shape (a_density A) = [1; S; 1; H; W]%nat ->
      shape (a_pdf A) = [1; S; 1; H; W]%nat ->
      shape cd = [1; 3; H; W]%nat /\
      shape cs = shape cd /\
      (forall c i j, (c < 3)%nat -> (i < H)%nat -> (j < W)%nat ->
         elem cd [0; c; i; j]%nat =
         estimate (a_diff A) density (a_light A) (a_wo A) (a_density A)
                  S H W c i j /\
         elem cs [0; c; i; j]%nat =
         if use_specular self
         then estimate (a_spec A) density (a_light A) (a_wo A) (a_density A)
                       S H W c i j
         else 0) /\
      (use_specular self = false -> forall idx, elem cs idx = 0))).
Proof.
  intros Hf Sv Sn. apply forward_ok in Hf as (l & Hl & Hout).
  injection Hout as -> -> -> ->.
  destruct (forward_answers _ _ _ _ _ _ _ _ _ _ Hl)
    as (f & valid & dir & vp & Ef & Evd & Eld & Hdir & Hig & Hans).
  pose proof (forward_materials _ _ _ _ _ _ _ _ _ _ Hl) as Hmat.
  pose proof (forward_mask_shape _ _ _ _ _ _ _ _ _ _ H W Hl Sv Sn) as Smask.
  eexists. split; [exact Hans|]. split; [exact Hmat|].
  cbn [a_x a_y a_z a_woe a_albedo a_rough a_metal a_wi a_wo a_diff a_spec
       a_valid a_pdf a_irow a_icol a_dir a_vpos a_light a_density].
  split; [exact (proj1 Smask)|].
  cbv zeta. intros Hir Hic Sw.
  set (S := lm_spp lm) in *.
  destruct (to_light_entries _ _ _ _ _ _ S H W Ef Sn Eld Sw)
    as [Swo Hwo].
  split; [split; [exact Swo | exact Hwo]|].
  split.
  { unfold asked_directions. cbn [a_dir a_woe].
    exact (directions_asked tr self lm f albedo rough metal normal vpos _ dir
             _ _ _ _ _ S H W Eld Sw eq_refl Hdir). }
  intros Spdf Spdfs.
  apply forward_locals_ok in Hl
    as (ch & f' & _ & _ & _ & _ & _ & _ & _ & _ & _ & _ & _ & _ & _ & _
        & Hbt & _).
  rewrite Hir, Hic in Hbt, Hig.
  apply evaluate_brdf_ok in Hbt as (Hp & ed & es & Hed & Hbd & Hes & Hbs).
  set (bt := l_brdf l) in *.
  fold S in Hed, Hes.
  assert (Sp : shape (pdfs_brdf bt) = [1; S; 1; H; W]%nat)
    by (rewrite Hp; exact Spdfs).
  apply expand_ok in Hed as (_ & Sed & Eed).
  apply expand_ok in Hes as (_ & Ses & Ees).
  apply binop_ok in Hbd as (SbD & EbD). apply binop_ok in Hbs as (SbS & EbS).
  rewrite Sed, Sp in SbD. rewrite Ses, Sp in SbS.
  bcast_in SbD. bcast_in SbS. injection SbD as SbD. injection SbS as SbS.
  symmetry in SbD, SbS.
  destruct (integrate_ok _ _ _ _ _ _ _ _ _ _ _ S Hig eq_refl Swo Spdf SbD SbS)
    as (_ & Scd & Scs & Ecd & Ecs & Ezero).
  rewrite <- Hp.
  split; [exact Scd|].
  split; [transitivity [1; 3; H; W]%nat;
          [exact Scs | symmetry; exact Scd]|].
  split; [|exact Ezero].
  intros c i j Hc Hi Hj.
  assert (B : forall s, (s < S)%nat ->
             bidx [1; S; 3; H; W]%nat [0; s; c; i; j]%nat
             = [0; s; c; i; j]%nat).
  { intros s Hs. apply bidx_in_range. cbn. lia. }
  split.
  - rewrite (Ecd c i j Hc Hi Hj). unfold estimate.
    apply (f_equal (fun x => x / INR S)). apply sum_n_ext. intros s Hs.
    rewrite EbD, Sed, Sp, Eed, (B s Hs). unfold Rdiv. ring.
  - rewrite (Ecs c i j Hc Hi Hj). destruct (use_specular self); [|reflexivity].
    unfold estimate.
    apply (f_equal (fun x => x / INR S)). apply sum_n_ext. intros s Hs.
    rewrite EbS, Ses, Sp, Ees, (B s Hs). unfold Rdiv. ring.
Qed.

(** X6: the fourth output of [forward], the shading, is at every pixel
    and channel the mean over the samples of
    light * max(wo.z, 0) / max(pdf, 0.001), the light arriving before any
    BRDF weighting, with light the answer of the radiance call, wo.z the
    local z of the sampled direction and pdf the answer of the density
    call; it is non-negative wherever the radiance answered is. *)
Theorem forward_shading brdf tr self lm albedo rough metal normal vpos
  cd cs mask sh H W :
  forward brdf tr self lm albedo rough metal normal vpos
    = Ok (cd, cs, mask, sh) ->
  shape (v self) = [1; 3; H; W]%nat ->
  shape normal = [1; 3; H; W]%nat ->
  exists A,
    answered brdf self lm albedo rough metal normal vpos A /\
    shape mask = [1; 1; a_irow A; a_icol A]%nat /\
    let S := lm_spp lm in
    (a_irow A = H -> a_icol A = W ->
     shape (a_woe A) = [1; S; 3; H; W]%nat ->
     shape (a_density A) = [1; S; 1; H; W]%nat ->
     sampled_locally self A S H W /\
     asked_directions self A S H W /\
     shape sh = [1; 3; H; W]%nat /\
     forall c i j, (c < 3)%nat -> (i < H)%nat -> (j < W)%nat ->
       elem sh [0; c; i; j]%nat
       = sum_n (fun s => contribution (a_light A) (a_wo A) (a_density A)
                                      S H W s c i j) S / INR S /\
       ((forall s, (s < S)%nat ->
           0 <= radiance (a_light A) S H W s c i j) ->
        0 <= elem sh [0; c; i; j]%nat)).
Proof.
  intros Hf Sv Sn. apply forward_ok in Hf as (l & Hl & Hout).
  injection Hout as -> -> -> ->.
  destruct (forward_answers _ _ _ _ _ _ _ _ _ _ Hl)
    as (f & valid & dir & vp & Ef & _ & Eld & Hdir & Hig & Hans).
  pose proof (forward_mask_shape _ _ _ _ _ _ _ _ _ _ H W Hl Sv Sn) as Smask.
  eexists. split; [exact Hans|].
  cbn [a_x a_y a_z a_woe a_albedo a_rough a_metal a_wi a_wo a_diff a_spec
       a_valid a_pdf a_irow a_icol a_dir a_vpos a_light a_density].
  split; [exact (proj1 Smask)|].
  cbv zeta. intros Hir Hic Sw Spdf. rewrite Hir, Hic in Hig.
  destruct (to_light_entries _ _ _ _ _ _ _ _ _ Ef Sn Eld Sw) as [Swo Hwo].
  split; [split; [exact Swo | exact Hwo]|].
  split.
  { unfold asked_directions. cbn [a_dir a_woe].
    exact (directions_asked tr self lm f albedo rough metal normal vpos _ dir
             _ _ _ _ _ _ _ _ Eld Sw eq_refl Hdir). }
  destruct (integrate_shading_ok _ _ _ _ _ _ _ _ _ _ _ _ Hig eq_refl Swo Spdf)
    as (_ & Ssh & _ & Hsh).
  split; [exact Ssh|]. intros c i j Hc Hi Hj.
  split; [apply Hsh; assumption|].
  intros Hrad. rewrite Hsh by assumption.
  apply Rmult_le_pos; [|apply Rlt_le, Rinv_0_lt_compat, lt_0_INR].
  - apply sum_n_nonneg. intros s Hs. unfold contribution.
    apply Rmult_le_pos; [apply Rmult_le_pos; [now apply Hrad | apply Rmax_r]|].
    apply Rlt_le, Rinv_0_lt_compat.
    apply Rlt_le_trans with 0.001; [lra | apply Rmax_r].
  - pose proof (forward_samples_pos _ _ _ _ _ _ _ _ _ _ Hl). lia.
Qed.

(** ** The clipping window on [forward] (C2) *)

Lemma clip_ranks {A : Type} w dr dc (t u : tensor A) :
  clip w dr dc t = Ok u -> (dr < rank t)%nat /\ (dc < rank t)%nat.
Proof.
  unfold clip. intros H. step H t1 E1.
  destruct (slice_ok _ _ _ _ _ E1) as (Hr & S1 & _).
  destruct (slice_ok _ _ _ _ _ H) as (Hc & _).
  split; [exact Hr|].
  unfold rank in *. rewrite S1 in Hc. unfold set_at in Hc.
  now rewrite length_update_at in Hc.
Qed.

(** On an image of even height and width a clipped grid is the grid. *)
Lemma clip_even_same {A : Type} h w dr dc (t u : tensor A) :
  clip (clip_window (2 * h) (2 * w)) dr dc t = Ok u -> dr <> dc ->
  dim (shape t) dr = (2 * h)%nat -> dim (shape t) dc = (2 * w)%nat ->
  same_grid u t.
Proof.
  intros Hu Hne Hdr Hdc.
  destruct (clip_ranks _ _ _ _ _ Hu) as [Hr Hc].
  destruct (clip_even h w dr dc t Hr Hc Hne Hdr Hdc) as (u' & Hu' & Su & Eu).
  rewrite Hu in Hu'. injection Hu' as <-. split; assumption.
Qed.

(** C2, amended: in a [forward] call that returned on an image of even
    height and width, square or not, with per-pixel inputs of that size,
    nothing is clipped.  The BRDF kernels receive the albedo, the
    roughness and the metalness of the whole image and a local view
    direction for every pixel, the returned view mask has an entry for
    every pixel, and the clipped frame axes are the frame axes. *)
Theorem forward_keeps_even_image brdf tr self lm albedo rough metal normal
  vpos cd cs mask sh ch h w :
  forward brdf tr self lm albedo rough metal normal vpos
    = Ok (cd, cs, mask, sh) ->
  shape albedo = [1; ch; 2 * h; 2 * w]%nat ->
  shape (v self) = [1; 3; 2 * h; 2 * w]%nat ->
  shape normal = [1; 3; 2 * h; 2 * w]%nat ->
  dim (shape rough) 2 = (2 * h)%nat -> dim (shape rough) 3 = (2 * w)%nat ->
  dim (shape metal) 2 = (2 * h)%nat -> dim (shape metal) 3 = (2 * w)%nat ->
  exists A,
    answered brdf self lm albedo rough metal normal vpos A /\
    same_grid (a_albedo A) albedo /\
    same_grid (a_rough A) rough /\
    same_grid (a_metal A) metal /\
    shape (a_wi A) = [1; 1; 3; 2 * h; 2 * w]%nat /\
    a_irow A = (2 * h)%nat /\ a_icol A = (2 * w)%nat /\
    shape mask = [1; 1; 2 * h; 2 * w]%nat /\
    (forall axis, In axis [a_x A; a_y A; a_z A] ->
       exists g, clip (clip_window (2 * h) (2 * w)) 2 3 axis = Ok g /\
                 same_grid g axis).
Proof.
  intros Hf Sa Sv Sn Hr2 Hr3 Hm2 Hm3.
  apply forward_ok in Hf as (l & Hl & Hout).
  injection Hout as -> -> -> ->.
  destruct (forward_answers _ _ _ _ _ _ _ _ _ _ Hl)
    as (f & valid & dir & vp & Ef & Evd & _ & _ & _ & Hans).
  destruct (forward_mask_shape _ _ _ _ _ _ _ _ _ _ _ _ Hl Sv Sn)
    as (Smask & Swi' & _).
  apply forward_locals_ok in Hl
    as (ch' & f' & Sa' & _ & _ & _ & _ & _ & Ewi & _ & Eac & Emc & Erc & _).
  cbv zeta in *.
  rewrite Sa in Sa'. injection Sa' as _ Hrow Hcol.
  rewrite <- Hrow, <- Hcol in *.
  destruct (to_camera_entries self normal f _ _ _ Ef Sn Sv Evd)
    as (_ & Swi & _).
  assert (Gwi : same_grid (l_wi l) (wi (l_view l))).
  { apply (clip_even_same h w 3 4 _ _ Ewi); [lia | |]; rewrite Swi;
      reflexivity. }
  assert (Ga : same_grid (l_albedo_clip l) albedo).
  { apply (clip_even_same h w 2 3 _ _ Eac); [lia | |]; rewrite Sa;
      reflexivity. }
  assert (Gr : same_grid (l_rough_clip l) rough)
    by (apply (clip_even_same h w 2 3 _ _ Erc); [lia | |]; assumption).
  assert (Gm : same_grid (l_metal_clip l) metal)
    by (apply (clip_even_same h w 2 3 _ _ Emc); [lia | |]; assumption).
  destruct Gwi as [Sw _]. rewrite Swi in Sw. rewrite Sw in Swi'.
  injection Swi' as Hir Hic.
  eexists. split; [exact Hans|].
  cbn [a_albedo a_rough a_metal a_wi a_irow a_icol].
  split; [exact Ga|]. split; [exact Gr|]. split; [exact Gm|].
  split; [exact Sw|]. split; [auto|]. split; [auto|].
  split; [rewrite Smask, <- Hir, <- Hic; reflexivity|].
  destruct (local_frames_returns normal (2 * h)%nat (2 * w)%nat Sn)
    as (f0 & Ef0 & _ & Scx & Scy & Scz & _).
  rewrite Ef in Ef0. injection Ef0 as <-.
  cbn [a_x a_y a_z In]. intros axis Hax.
  assert (Sax : shape axis = [1; 3; 2 * h; 2 * w]%nat)
    by (destruct Hax as [<-|[<-|[<-|[]]]]; assumption).
  destruct (clip_even h w 2 3 axis) as (g & Eg & Sg & Hg);
    try (unfold rank; rewrite Sax; cbn; lia); try lia;
    try (rewrite Sax; reflexivity).
  exists g. split; [exact Eg|]. split; assumption.
Qed.

(** ** Tracing with several samples (C7) *)

(** Line 239, [light.view(1, spp, irow, icol, 3)], raises when the
    lighting model has not answered spp * irow * icol radiances. *)
Lemma integrate_view_raises self lm S H W dir vpos woe wo bD bS lr pr :
  lm_spp lm = S ->
  lm_call lm dir = Ok lr ->
  numel (shape lr) <> numel [1; S; H; W; 3]%nat ->
  (1 <= rank vpos)%nat ->
  (forall v1, pdf_direction lm v1 woe = Ok pr) ->
  shape wo = [1; S; 3; H; W]%nat ->
  integrate self lm H W dir vpos woe wo bD bS = Raise RuntimeError.
Proof.
  intros HS El Hn Hv Ep Swo. unfold integrate.
  rewrite El. cbn [bind].
  rewrite unsqueeze_returns by exact Hv. cbn [bind].
  rewrite Ep. cbn [bind]. rewrite HS.
  unfold torch.slice, torch.reshape, rank. rewrite Swo.
  cbn [length Nat.ltb Nat.leb dim nth shape].
  assert (Hp : pyslice 3 (Some 2%Z) None = (2%nat, 1%nat)) by reflexivity.
  rewrite Hp. cbn [bind set_at update_at].
  destruct (Nat.eqb_spec (numel [1; S; H; W; 3]%nat) (numel (shape lr)))
    as [Heq|_]; [congruence | reflexivity].
Qed.

(** Lines 70-156 of [forward] on an image of even height and width with
    the Lambertian module in the "diffuse" branch: an exception of the
    integration is the exception of the call. *)
Lemma forward_stages_raise tr self lm albedo rough metal normal vpos S h w
  woe :
  imHeight self = Z.of_nat (2 * h) -> imWidth self = Z.of_nat (2 * w) ->
  brdf_type self = "diffuse"%string ->
  shape (v self) = [1; 3; 2 * h; 2 * w]%nat ->
  shape albedo = [1; 3; 2 * h; 2 * w]%nat ->
  shape normal = [1; 3; 2 * h; 2 * w]%nat ->
  rank rough = 4%nat -> rank metal = 4%nat -> (1 <= rank vpos)%nat ->
  lm_spp lm = S -> S <> 0%nat ->
  (forall v1 n1, sample_direction lm v1 n1 = Ok woe) ->
  shape woe = [1; S; 3; 2 * h; 2 * w]%nat ->
  exists ld bt,
    wo_emitter ld = woe /\
    shape (wo ld) = [1; S; 3; 2 * h; 2 * w]%nat /\
    shape (direction ld) = [S; (2 * h * (2 * w))%nat; 3%nat] /\
    forall traced dir vp e,
      (if use_ssrt self then
         sl <- ssrt_block tr self (clip_window (2 * h) (2 * w))
                          (2 * h) (2 * w) (2 * h) (2 * w) (direction ld)
                          albedo rough metal normal vpos ;;
         Ok (Some sl, ssrt_direction_out sl, ssrt_vpos sl)
       else Ok (None, direction ld, vpos)) = Ok (traced, dir, vp) ->
      integrate self lm (2 * h) (2 * w) dir vp (wo_emitter ld) (wo ld)
                (brdfDiffuse bt) (brdfSpec bt) = Raise e ->
      forward lambert tr self lm albedo rough metal normal vpos = Raise e.
Proof.
  intros HH HW Hk Sv Sa Sn Rr Rm Rv HSl HS Hsd Swoe0.
  destruct (local_frames_returns normal (2 * h)%nat (2 * w)%nat Sn)
    as (f & Ef & _ & Scx & Scy & Scz & Sfx & Sfy & Sfz & _).
  destruct (to_camera_returns self f (2 * h)%nat (2 * w)%nat Sv Sfx Sfy Sfz)
    as (vd & Evd & Swi & Sm).
  destruct (clip_even h w 3 4 (wi vd)) as (wi' & Ewi & Swi' & _);
    try (unfold rank; rewrite Swi; cbn; lia); try lia;
    try (rewrite Swi; reflexivity).
  destruct (clip_even h w 2 3 (wi_mask vd)) as (wm' & Ewm & Swm' & _);
    try (unfold rank; rewrite Sm; cbn; lia); try lia;
    try (rewrite Sm; reflexivity).
  destruct (clip_even h w 2 3 (cx f)) as (cx' & Ecx & _);
    try (unfold rank; rewrite Scx; cbn; lia); try lia;
    try (rewrite Scx; reflexivity).
  destruct (clip_even h w 2 3 (cy f)) as (cy' & Ecy & _);
    try (unfold rank; rewrite Scy; cbn; lia); try lia;
    try (rewrite Scy; reflexivity).
  destruct (clip_even h w 2 3 (cz f)) as (cz' & Ecz & _);
    try (unfold rank; rewrite Scz; cbn; lia); try lia;
    try (rewrite Scz; reflexivity).
  destruct (clip_even h w 2 3 albedo) as (ac & Eac & Sac & _);
    try (unfold rank; rewrite Sa; cbn; lia); try lia;
    try (rewrite Sa; reflexivity).
  destruct (clip_returns (clip_window (2 * h)%nat (2 * w)%nat) 2 3 metal)
    as (mc & Emc); try lia.
  destruct (clip_returns (clip_window (2 * h)%nat (2 * w)%nat) 2 3 rough)
    as (rc & Erc); try lia.
  assert (Rn : (1 <= rank normal)%nat) by (unfold rank; rewrite Sn; cbn; lia).
  destruct (to_light_returns self lm f normal vpos
              _ _ woe S (2 * h)%nat (2 * w)%nat Sfx Sfy Sfz
              (unsqueeze_returns 1 vpos Rv) (unsqueeze_returns 1 normal Rn)
              (Hsd _ _) Swoe0 HSl HS)
    as (ld & Eld & Ewoe & Sdir & _).
  assert (Swoe : shape (wo_emitter ld) = [1; S; 3; 2 * h; 2 * w]%nat)
    by (rewrite Ewoe; exact Swoe0).
  destruct (wo_local _ _ _ _ _ _ S (2 * h)%nat (2 * w)%nat Eld Sfx Sfy Sfz
              Swoe) as [Swo _].
  rewrite Sa in Sac.
  destruct (evaluate_brdf_lambert self lm ac rc mc wi'
              (wo ld) S (2 * h)%nat (2 * w)%nat Hk HSl Sac Swo)
    as (bt & Ebt & _).
  exists ld, bt. repeat (split; [assumption|]).
  intros traced dir vp e Et Eig.
  unfold forward, forward_locals. rewrite Sa. unfold assert.
  rewrite HH, HW, !Z.eqb_refl. cbn [Nat.eqb andb bind].
  rewrite Ef. cbn [bind]. rewrite Evd. cbn [bind].
  rewrite Ewi, Ewm, Ecx, Ecy, Ecz, Eac, Emc, Erc. cbn [bind].
  unfold torch.size, rank. rewrite Swi', Swi.
  cbn [length Nat.ltb Nat.leb dim nth bind].
  rewrite Eld. cbn [bind]. rewrite Ebt. cbn [bind].
  rewrite Et. cbn [bind]. rewrite Eig. reflexivity.
Qed.

(** C7, the failing call: a 2 x 2 layer with tracing enabled and a
    lighting model of two samples per pixel that answers one radiance for
    every direction it is asked.  The tracing block keeps one direction
    per pixel, the lighting model answers 4 radiances, and line 239 views
    them as 2 x 2 x 2 of them: the call raises RuntimeError, so nothing is
    shaded. *)
Theorem traced_two_samples_raise :
  exists self,
    __init__ 2 2 85 [0; 0; 0] "diffuse" 2 true true false = Ok self /\
    use_ssrt self = true /\
    lm_spp (constant_light 2 2 2 (0, 0, 1)) = 2%nat /\
    forward lambert flat_tracer self (constant_light 2 2 2 (0, 0, 1))
            (grey 2 2) (rough_half 2 2) (metal_zero 2 2) (normal_up 2 2)
            (vpos_flat 2 2) = Raise RuntimeError.
Proof.
  destruct (init_returns 2 2 85 [0; 0; 0] "diffuse" 2 true true false)
    as (self & E & HW & HH & Hk & Hn & _ & Hs & _ & Sv);
    [lia | lia | reflexivity |].
  exists self. split; [exact E|]. split; [exact Hs|]. split; [reflexivity|].
  set (lm := constant_light 2 2 2 (0, 0, 1)).
  destruct (forward_stages_raise flat_tracer self lm (grey 2 2)
              (rough_half 2 2) (metal_zero 2 2) (normal_up 2 2)
              (vpos_flat 2 2) 2 1 1 _
              HH HW Hk Sv eq_refl eq_refl eq_refl eq_refl
              ltac:(cbn; lia) eq_refl ltac:(lia)
              (fun _ _ => eq_refl) eq_refl)
    as (ld & bt & Ewoe & Swo & Sdir & Hrest).
  destruct (ssrt_block_scene self (direction ld) 2 HW HH Hn Sdir ltac:(lia))
    as (sl & Esl & Sout & Svp).
  apply (Hrest (Some sl) (ssrt_direction_out sl) (ssrt_vpos sl)).
  { rewrite Hs. change (2 * 1)%nat with 2%nat. rewrite Esl. reflexivity. }
  apply (integrate_view_raises self lm 2 2 2 _ _ _ _ _ _
           (mkT [4; 3]%nat (fun _ => 1))
           (mkT [1; 2; 1; 2; 2]%nat (fun _ => 1))).
  - reflexivity.
  - cbn [lm constant_light lm_call]. rewrite Sout. reflexivity.
  - cbn. lia.
  - unfold rank. rewrite Svp. cbn. lia.
  - intros v1. reflexivity.
  - exact Swo.
Qed.

(** The collaborators' answers on the flat 2 x 2 scene, lit from the
    world direction [d] with two samples per pixel. *)
Lemma flat_scene_answers self d A :
  brdf_type self = "diffuse"%string ->
  answered lambert self (constant_light 2 2 2 d) (grey 2 2) (rough_half 2 2)
           (metal_zero 2 2) (normal_up 2 2) (vpos_flat 2 2) A ->
  shape (a_woe A) = [1; 2; 3; 2; 2]%nat /\
  (forall s i j, sample_at (a_woe A) s i j = d) /\
  shape (a_density A) = [1; 2; 1; 2; 2]%nat /\
  (forall idx, elem (a_density A) idx = 1) /\
  (forall idx, elem (a_light A) idx = 1) /\
  (forall i j, vec_at (a_z A) 0 [i; j]%nat = (0, 0, 1)) /\
  (shape (a_wo A) = [1; 2; 3; 2; 2]%nat ->
   shape (a_pdf A) = [1; 2; 1; 2; 2]%nat) /\
  (forall idx, elem (a_diff A) idx = elem (a_albedo A) (remove_at 1 idx) / PI) /\
  (forall idx, elem (a_spec A) idx = 0).
Proof.
  intros Hk (Ecf & Es & _ & _ & Epdf & Eev & _ & Ecall & Eden).
  (* the sampled directions *)
  unfold sample_call in Es.
  rewrite !unsqueeze_returns in Es by (unfold rank; cbn; lia).
  cbn [bind constant_light sample_direction] in Es. injection Es as Es.
  (* the density *)
  unfold density_call in Eden. step Eden v1 Ev1.
  cbn [constant_light pdf_direction] in Eden. injection Eden as Eden.
  (* the radiance *)
  cbn [constant_light lm_call] in Ecall. injection Ecall as Ecall.
  (* the frame *)
  destruct (create_frame_returns (normal_up 2 2) 1e-6 1 [2; 2]%nat eq_refl)
    as (x & y & z & Ecf' & _ & _ & _ & Hz & _).
  rewrite Ecf in Ecf'. injection Ecf' as Hx Hy Hzz.
  (* the kernels *)
  unfold kernel_pdf in Epdf. unfold kernel_eval in Eev. rewrite Hk in Epdf, Eev.
  cbn [String.eqb Ascii.eqb Bool.eqb lambert pdf_diffuse eval_diffuse]
    in Epdf, Eev.
  step Epdf zs Ezs. injection Epdf as Epdf.
  step Eev a1 Ea1. injection Eev as Ed Esp _.
  apply unsqueeze_ok in Ea1 as (_ & _ & Ha1).
  split; [rewrite <- Es; reflexivity|].
  split.
  { intros s i j. rewrite <- Es. unfold sample_at. cbn [elem nth].
    destruct d as [[dx dy] dz]. reflexivity. }
  split; [rewrite <- Eden; reflexivity|].
  split; [intros idx; rewrite <- Eden; reflexivity|].
  split; [intros idx; rewrite <- Ecall; reflexivity|].
  split.
  { intros i j. unfold vec_at. rewrite Hzz, !Hz. cbn [normal_up elem nth].
    replace (0 + 0 * 0 + 0 * 0 + 1 * 1) with 1 by ring.
    rewrite sqrt_1, Rmax_left by lra.
    f_equal; [f_equal|]; lra. }
  split.
  { intros Swo. rewrite <- Epdf. cbn [torch.map shape].
    apply slice_ok in Ezs as (_ & Szs & _). rewrite Szs, Swo.
    cbn [dim nth]. rewrite pyslice_23. reflexivity. }
  split.
  { intros idx. rewrite <- Ed. cbn [torch.map elem]. now rewrite Ha1. }
  intros idx. rewrite <- Esp. reflexivity.
Qed.

Lemma sqrt_le_2 x : 0 <= x <= 4 -> sqrt x <= 2.
Proof.
  intros Hx. replace 2 with (sqrt (2 * 2)) by (apply sqrt_square; lra).
  apply sqrt_le_1_alt. lra.
Qed.

(** The view buffer of the 2 x 2 layer of the scene: every view direction
    points to the camera's side, with z at least 1/2. *)
Lemma scene_view_z n ds us usp :
  exists self,
    __init__ 2 2 85 [0; 0; 0] "diffuse" n ds us usp = Ok self /\
    forall i j, (i < 2)%nat -> (j < 2)%nat ->
      1 / 2 <= elem (v self) [0; 2; i; j]%nat.
Proof.
  destruct (init_buffers 2 2 85 [0; 0; 0] "diffuse" n ds us usp)
    as (self & E & Hx & Hy & _ & _ & xs & ys & Exs & Eys & Hent);
    [lia | lia | reflexivity |].
  exists self. split; [exact E|]. intros i j Hi Hj.
  destruct (Hent i j) as (H0 & H1 & H2 & Hv); [exact Hi | exact Hj |].
  cbv beta in H0, H1, H2, Hv.
  rewrite (Hv 2%nat) by lia. rewrite H0, H1, H2. cbn [nth].
  (* the image plane lies within [-1, 1] x [-1, 1] *)
  assert (Ht : 0 < xRange self < 1).
  { rewrite Hx. rewrite Rmult_1_l.
    assert (HPI := PI_RGT_0). assert (HPI4 := PI4_RGT_0).
    split.
    - apply tan_gt_0; lra.
    - rewrite <- tan_PI4. apply tan_increasing; lra. }
  assert (Hyr : yRange self = xRange self) by (rewrite Hy; field).
  assert (Bx : -1 <= elem xs [j] <= 1).
  { rewrite (linspace_at _ _ 2 xs j ltac:(lia) Exs Hj).
    destruct j as [|[|j]]; [| |lia]; cbn [INR]; lra. }
  assert (By : -1 <= elem ys [(Z.to_nat 2 - 1 - i)%nat] <= 1).
  { rewrite (linspace_at _ _ 2 ys _ ltac:(lia) Eys) by lia.
    rewrite Hyr.
    destruct i as [|[|i]]; [| |lia].
    - change (Z.to_nat 2 - 1 - 0)%nat with 1%nat. cbn [INR]. lra.
    - change (Z.to_nat 2 - 1 - 1)%nat with 0%nat. cbn [INR]. lra. }
  set (a := 0 - elem xs [j]) in *.
  set (b := 0 - elem ys [(Z.to_nat 2 - 1 - i)%nat]) in *.
  set (S := 0 + a * a + b * b + (0 - -1) * (0 - -1)).
  assert (HS : 1 <= S <= 4) by (unfold S, a, b; nra).
  rewrite Rmax_left by lra.
  assert (Hq1 : 1 <= sqrt S).
  { rewrite <- sqrt_1. apply sqrt_le_1_alt. lra. }
  assert (Hq2 : sqrt S <= 2) by (apply sqrt_le_2; lra).
  apply Rmult_le_reg_r with (sqrt S); [lra|].
  replace ((0 - -1) / sqrt S * sqrt S) with 1
    by (field; apply Rgt_not_eq; lra).
  lra.
Qed.

(** An untraced [forward] call on the flat 2 x 2 scene lit from straight
    above, on the layer the constructor builds. *)
Lemma flat_scene_call :
  exists self l,
    __init__ 2 2 85 [0; 0; 0] "diffuse" 2 true false false = Ok self /\
    brdf_type self = "diffuse"%string /\ double_sided self = true /\
    use_specular self = false /\
    shape (v self) = [1; 3; 2; 2]%nat /\
    (forall i j, (i < 2)%nat -> (j < 2)%nat ->
       1 / 2 <= elem (v self) [0; 2; i; j]%nat) /\
    forward lambert flat_tracer self (constant_light 2 2 2 (0, 0, 1))
            (grey 2 2) (rough_half 2 2) (metal_zero 2 2) (normal_up 2 2)
            (vpos_flat 2 2)
    = Ok (colorDiffuse (l_integrals l), colorSpec (l_integrals l),
          l_wi_mask l, shading (l_integrals l)) /\
    shape (l_wi_mask l) = [1; 1; 2; 2]%nat.
Proof.
  destruct flat_scene_returns
    as (self & l & E & _ & Hl & _ & _ & _ & _ & _ & _ & Sm).
  destruct (init_returns 2 2 85 [0; 0; 0] "diffuse" 2 true false false)
    as (self' & E' & _ & _ & Hk & _ & Hds & _ & Hsp & Sv);
    [lia | lia | reflexivity |].
  rewrite E in E'. injection E' as <-.
  destruct (scene_view_z 2 true false false) as (self' & E' & Hvz).
  rewrite E in E'. injection E' as <-.
  exists self, l. split; [exact E|]. split; [exact Hk|]. split; [exact Hds|].
  split; [exact Hsp|]. split; [exact Sv|]. split; [exact Hvz|].
  split; [now apply forward_of_locals | exact Sm].
Qed.

(** On the scene, a surface facing the light it is lit by receives the
    Lambertian estimate albedo / pi. *)
Lemma lambert_estimate (d density lr wo pr : tensor R) :
  (forall idx, elem d idx = 0.5 / PI) ->
  (forall idx, elem density idx = 1) ->
  (forall idx, elem lr idx = 1) ->
  (forall s, (s < 2)%nat -> elem wo [0; s; 2; 0; 0]%nat = 1) ->
  (forall idx, elem pr idx = 1) ->
  estimate d density lr wo pr 2 2 2 0 0 0 = 0.5 / PI.
Proof.
  intros Hd Hden Hl Hwo Hp. unfold estimate, radiance. cbn [sum_n INR].
  rewrite !Hd, !Hden, !Hl, !Hp, !Hwo by lia.
  rewrite Rmax_left by lra. rewrite Rmax_1_milli.
  assert (PI <> 0) by (apply Rgt_not_eq, PI_RGT_0).
  replace 0.5 with (1 / 2) by lra. field. assumption.
Qed.

(** C1 on the scene: two samples per pixel, specular flag off.  The
    diffuse colour of the top left pixel is albedo / pi = 0.5 / pi and the
    specular colour is zero everywhere. *)
Lemma forward_colors_witness :
  exists self cd cs mask sh,
    __init__ 2 2 85 [0; 0; 0] "diffuse" 2 true false false = Ok self /\
    forward lambert flat_tracer self (constant_light 2 2 2 (0, 0, 1))
            (grey 2 2) (rough_half 2 2) (metal_zero 2 2) (normal_up 2 2)
            (vpos_flat 2 2) = Ok (cd, cs, mask, sh) /\
    shape cd = [1; 3; 2; 2]%nat /\
    elem cd [0; 0; 0; 0]%nat = 0.5 / PI /\
    forall idx, elem cs idx = 0.
Proof.
  destruct flat_scene_call
    as (self & l & E & Hk & Hds & Hsp & Sv & _ & Hf & Sm).
  destruct (forward_colors _ _ _ _ _ _ _ _ _ _ _ _ _ 2%nat 2%nat Hf Sv eq_refl)
    as (A & Hans & (Ha & _) & Smask & Hfact).
  rewrite Sm in Smask. injection Smask as Hir Hic.
  destruct (flat_scene_answers self _ A Hk Hans)
    as (Sw & Hs & Sd & Hd & Hl & Hz & Hp & Hdiff & _).
  cbv zeta in Hfact. cbn [constant_light lm_spp] in Hfact.
  destruct (Hfact (eq_sym Hir) (eq_sym Hic) Sw) as ((Swo & Hwo) & _ & Hcol).
  destruct (Hcol Sd (Hp Swo)) as (Scd & _ & Hent & Hzero).
  exists self. do 4 eexists. split; [exact E|]. split; [exact Hf|].
  split; [exact Scd|]. split; [|exact (Hzero Hsp)].
  destruct (Hent 0%nat 0%nat 0%nat) as [-> _]; try lia.
  apply lambert_estimate.
  - intros idx. rewrite Hdiff, Ha. reflexivity.
  - intros idx. cbn [torch.clamp_min torch.ones_like torch.map elem].
    apply Rmax_1_milli.
  - exact Hl.
  - intros s Hs'. rewrite Hwo by lia.
    unfold local_component, fold_z. rewrite Hs, Hz, Hds.
    cbn [andb Nat.eqb dot].
    replace (0 * 0 + 0 * 0 + 1 * 1) with 1 by ring. apply Rabs_R1.
  - exact Hd.
Defined.

(** C3 on the scene lit from straight below: the local direction to the
    light of every sample is the projection on the frame with the fold on
    z, here (0, 0, 1), and the lighting model was asked for it. *)
Lemma light_direction_local_witness :
  exists self out A,
    __init__ 2 2 85 [0; 0; 0] "diffuse" 2 true false false = Ok self /\
    forward lambert flat_tracer self (constant_light 2 2 2 (0, 0, -1))
            (grey 2 2) (rough_half 2 2) (metal_zero 2 2) (normal_up 2 2)
            (vpos_flat 2 2) = Ok out /\
    answered lambert self (constant_light 2 2 2 (0, 0, -1)) (grey 2 2)
             (rough_half 2 2) (metal_zero 2 2) (normal_up 2 2) (vpos_flat 2 2)
             A /\
    shape (a_wo A) = [1; 2; 3; 2; 2]%nat /\
    elem (a_wo A) [0; 1; 2; 0; 1]%nat = 1.
Proof.
  destruct (init_returns 2 2 85 [0; 0; 0] "diffuse" 2 true false false)
    as (self & E & HW & HH & Hk & _ & Hds & Hs & _ & Sv);
    [lia | lia | reflexivity |].
  assert (Rv : (1 <= rank (vpos_flat 2 2))%nat) by (unfold rank; cbn; lia).
  destruct (forward_scene_returns flat_tracer self (grey 2 2) (rough_half 2 2)
              (metal_zero 2 2) (normal_up 2 2) (vpos_flat 2 2) 2 1 1
              (0, 0, -1) HH HW Hk Hs Sv eq_refl eq_refl eq_refl eq_refl Rv
              ltac:(discriminate))
    as (l & Hl & _).
  pose proof (forward_of_locals _ _ _ _ _ _ _ _ _ _ Hl) as Hf.
  destruct (light_direction_local _ _ _ _ _ _ _ _ _ _ 2%nat 2%nat 2%nat Hf
              eq_refl) as (A & Hans & Hloc).
  destruct (flat_scene_answers self _ A Hk Hans)
    as (Sw & Hsam & _ & _ & _ & Hz & _).
  destruct (Hloc Sw) as (Swo & Hwo).
  exists self. do 2 eexists. split; [exact E|]. split; [exact Hf|].
  split; [exact Hans|]. split; [exact Swo|].
  rewrite Hwo by lia.
  unfold local_component, fold_z. rewrite Hsam, Hz, Hds.
  cbn [andb Nat.eqb dot].
  unfold Rabs. destruct (Rcase_abs _); lra.
Defined.

(** C6 on the scene: every pixel of a surface that faces the camera is
    valid, mask 1, and the clamp leaves a local z of at least 1e-3. *)
Lemma view_mask_and_clamp_witness :
  exists self cd cs mask sh,
    __init__ 2 2 85 [0; 0; 0] "diffuse" 2 true false false = Ok self /\
    forward lambert flat_tracer self (constant_light 2 2 2 (0, 0, 1))
            (grey 2 2) (rough_half 2 2) (metal_zero 2 2) (normal_up 2 2)
            (vpos_flat 2 2) = Ok (cd, cs, mask, sh) /\
    shape mask = [1; 1; 2; 2]%nat /\
    forall i j, (i < 2)%nat -> (j < 2)%nat -> elem mask [0; 0; i; j]%nat = 1.
Proof.
  destruct flat_scene_call
    as (self & l & E & Hk & Hds & _ & Sv & Hvz & Hf & Sm).
  destruct (view_mask_and_clamp _ _ _ _ _ _ _ _ _ _ _ _ _ 2%nat 2%nat Hf Sv
              eq_refl) as (A & Hans & Hfact).
  cbv zeta in Hfact. destruct Hfact as (Smask & _ & _ & Hent).
  pose proof Smask as Smask'. rewrite Sm in Smask'.
  injection Smask' as Hir Hic.
  destruct (flat_scene_answers self _ A Hk Hans)
    as (_ & _ & _ & _ & _ & Hz & _).
  exists self. do 4 eexists. split; [exact E|]. split; [exact Hf|].
  split; [exact Sm|]. intros i j Hi Hj.
  destruct (Hent i j) as (-> & _); [lia | lia |].
  unfold local_component, fold_z, vec_at. rewrite Hds.
  fold (vec_at (a_z A) 0 [i; j]%nat). rewrite Hz.
  cbn [andb Nat.eqb dot].
  pose proof (Hvz i j Hi Hj) as Hv.
  set (vz := elem (v self) [0; 2; i; j]%nat) in *.
  replace (elem (v self) [0; 0; i; j]%nat * 0
           + elem (v self) [0; 1; i; j]%nat * 0 + vz * 1) with vz by ring.
  rewrite Rabs_right by lra.
  destruct (Rlt_dec vz 1e-6); [lra | reflexivity].
Defined.

(** X6 on the scene: light of radiance 1 from straight above, with
    density 1, gives the shading 1. *)
Lemma forward_shading_witness :
  exists self cd cs mask sh,
    __init__ 2 2 85 [0; 0; 0] "diffuse" 2 true false false = Ok self /\
    forward lambert flat_tracer self (constant_light 2 2 2 (0, 0, 1))
            (grey 2 2) (rough_half 2 2) (metal_zero 2 2) (normal_up 2 2)
            (vpos_flat 2 2) = Ok (cd, cs, mask, sh) /\
    shape sh = [1; 3; 2; 2]%nat /\
    elem sh [0; 0; 1; 1]%nat = 1.
Proof.
  destruct flat_scene_call
    as (self & l & E & Hk & Hds & _ & Sv & _ & Hf & Sm).
  destruct (forward_shading _ _ _ _ _ _ _ _ _ _ _ _ _ 2%nat 2%nat Hf Sv
              eq_refl) as (A & Hans & Smask & Hfact).
  rewrite Sm in Smask. injection Smask as Hir Hic.
  destruct (flat_scene_answers self _ A Hk Hans)
    as (Sw & Hs & Sd & Hd & Hl & Hz & _).
  cbv zeta in Hfact. cbn [constant_light lm_spp] in Hfact.
  destruct (Hfact (eq_sym Hir) (eq_sym Hic) Sw Sd)
    as ((Swo & Hwo) & _ & Ssh & Hent).
  exists self. do 4 eexists. split; [exact E|]. split; [exact Hf|].
  split; [exact Ssh|].
  destruct (Hent 0%nat 1%nat 1%nat) as [-> _]; try lia.
  unfold contribution, radiance. cbn [sum_n INR].
  rewrite !Hl, !Hd, !Hwo by lia.
  unfold local_component, fold_z. rewrite !Hs, !Hz, Hds.
  cbn [andb Nat.eqb dot].
  replace (0 * 0 + 0 * 0 + 1 * 1) with 1 by ring.
  rewrite Rabs_R1, !Rmax_left by lra. lra.
Defined.

(** C2 on the flat 2 x 2 scene. *)
Lemma forward_keeps_even_image_witness :
  exists self cd cs mask sh A,
    __init__ 2 2 85 [0; 0; 0] "diffuse" 2 true false false = Ok self /\
    forward lambert flat_tracer self (constant_light 2 2 2 (0, 0, 1))
            (grey 2 2) (rough_half 2 2) (metal_zero 2 2) (normal_up 2 2)
            (vpos_flat 2 2) = Ok (cd, cs, mask, sh) /\
    answered lambert self (constant_light 2 2 2 (0, 0, 1)) (grey 2 2)
             (rough_half 2 2) (metal_zero 2 2) (normal_up 2 2) (vpos_flat 2 2)
             A /\
    same_grid (a_albedo A) (grey 2 2) /\
    shape (a_wi A) = [1; 1; 3; 2; 2]%nat /\
    shape mask = [1; 1; 2; 2]%nat.
Proof.
  destruct flat_scene_call
    as (self & l & E & _ & _ & _ & Sv & _ & Hf & _).
  destruct (forward_keeps_even_image _ _ _ _ _ _ _ _ _ _ _ _ _ 3%nat 1%nat
              1%nat Hf eq_refl Sv eq_refl eq_refl eq_refl eq_refl eq_refl)
    as (A & Hans & Ga & _ & _ & Sw & _ & _ & Sm & _).
  exists self. do 4 eexists. exists A. split; [exact E|]. split; [exact Hf|].
  split; [exact Hans|]. split; [exact Ga|]. split; [exact Sw | exact Sm].
Defined.

(** ** More of [create_frame] *)

(** X13: [create_frame] needs a channel axis of at least three entries
    at position 1.  On a tensor with fewer than two axes, or fewer than
    three channels, it raises IndexError; otherwise it returns, the
    normalised normal with the shape of the input and the two tangents
    with exactly three channels. *)
Theorem create_frame_outcome (n : tensor R) (eps : R) :
  match shape n with
  | bn :: C :: rest =>
      if (C <? 3)%nat then create_frame n eps = Raise IndexError
      else exists x y z,
             create_frame n eps = Ok (x, y, z) /\
             shape z = shape n /\
             shape x = bn :: 3%nat :: rest /\ shape y = bn :: 3%nat :: rest
  | _ => create_frame n eps = Raise IndexError
  end.
Proof.
  destruct (shape n) as [|bn [|C rest]] eqn:Hn;
    try (unfold create_frame, functional.normalize, rank; rewrite Hn;
         reflexivity).
  destruct (Nat.ltb_spec C 3) as [HC|HC].
  - unfold create_frame, functional.normalize, torch.select, rank.
    rewrite Hn. cbn [length Nat.ltb Nat.leb bind shape dim nth].
    destruct C as [|[|[|C]]]; [reflexivity | reflexivity | reflexivity | lia].
  - unfold create_frame, functional.normalize, torch.select, rank.
    rewrite Hn. cbn [length Nat.ltb Nat.leb bind shape dim nth].
    change 0%Z with (Z.of_nat 0). change 1%Z with (Z.of_nat 1).
    change 2%Z with (Z.of_nat 2).
    rewrite !pyindex_small by lia. cbn [bind shape remove_at].
    unfold torch.add, torch.mul, torch.binop, torch.stack3, rank.
    repeat (cbn [bind shape torch.map torch.neg length Nat.leb andb insert_at];
            rewrite ?broadcast_shapes_refl, ?shape_eqb_refl).
    do 3 eexists. split; [reflexivity|]. repeat split; reflexivity.
Qed.

(** X14: the frame depends on the direction of the normal only.  Scaling
    the normals by k > 0 leaves tangent_x, tangent_y and normal_z unchanged
    at every pixel whose normal has length at least eps before and after
    the scaling. *)
Theorem create_frame_scale n eps k bn rest x y z x' y' z' b pix :
  shape n = bn :: 3%nat :: rest -> 0 < eps -> 0 < k ->
  create_frame n eps = Ok (x, y, z) ->
  create_frame (torch.map (Rmult k) n) eps = Ok (x', y', z') ->
  in_range (bn :: rest) (b :: pix) ->
  eps <= sqrt (dot (vec_at n b pix) (vec_at n b pix)) ->
  eps <= k * sqrt (dot (vec_at n b pix) (vec_at n b pix)) ->
  vec_at x' b pix = vec_at x b pix /\
  vec_at y' b pix = vec_at y b pix /\
  vec_at z' b pix = vec_at z b pix.
Proof.
  intros Hn Heps Hk E E' Hr Hlen Hlen'.
  destruct (create_frame_returns n eps bn rest Hn)
    as (x0 & y0 & z0 & E0 & _ & _ & _ & Hz & Hxy).
  rewrite E in E0. injection E0 as <- <- <-.
  destruct (create_frame_returns (torch.map (Rmult k) n) eps bn rest Hn)
    as (x0 & y0 & z0 & E0 & _ & _ & _ & Hz' & Hxy').
  rewrite E' in E0. injection E0 as <- <- <-.
  cbn [torch.map elem] in Hz'.
  set (n0 := elem n (b :: 0%nat :: pix)) in *.
  set (n1 := elem n (b :: 1%nat :: pix)) in *.
  set (n2 := elem n (b :: 2%nat :: pix)) in *.
  set (S := 0 + n0 * n0 + n1 * n1 + n2 * n2).
  assert (HS : dot (vec_at n b pix) (vec_at n b pix) = S)
    by (unfold vec_at, dot, S; fold n0 n1 n2; ring).
  rewrite HS in Hlen, Hlen'.
  assert (HS0 : 0 <= S) by (unfold S; nra).
  assert (Hsc : sqrt (0 + k * n0 * (k * n0) + k * n1 * (k * n1)
                      + k * n2 * (k * n2)) = k * sqrt S).
  { replace (0 + k * n0 * (k * n0) + k * n1 * (k * n1) + k * n2 * (k * n2))
      with (k * k * S) by (unfold S; ring).
    rewrite sqrt_mult by nra. rewrite sqrt_square by lra. reflexivity. }
  assert (Hzz : forall c, elem z' (b :: c :: pix) = elem z (b :: c :: pix)).
  { intros c. rewrite Hz', Hz. fold n0 n1 n2. fold S. rewrite Hsc.
    rewrite !Rmax_left by lra. field. split; lra. }
  destruct (Hxy b pix Hr) as [Hx Hy]. destruct (Hxy' b pix Hr) as [Hx' Hy'].
  cbv zeta in Hx, Hy, Hx', Hy'.
  rewrite Hx, Hy, Hx', Hy', !Hzz.
  split; [reflexivity|]. split; [reflexivity|].
  unfold vec_at. now rewrite !Hzz.
Qed.

(** X14 on the pole (0, 0, -1) scaled by 3. *)
Lemma create_frame_scale_witness :
  exists x y z x' y' z',
    create_frame pole_normal 1e-6 = Ok (x, y, z) /\
    create_frame (torch.map (Rmult 3) pole_normal) 1e-6 = Ok (x', y', z') /\
    vec_at x' 0 [0; 0]%nat = vec_at x 0 [0; 0]%nat /\
    vec_at z' 0 [0; 0]%nat = vec_at z 0 [0; 0]%nat.
Proof.
  destruct (create_frame_returns pole_normal 1e-6 1 [1; 1]%nat eq_refl)
    as (x & y & z & E & _).
  destruct (create_frame_returns (torch.map (Rmult 3) pole_normal) 1e-6 1
              [1; 1]%nat eq_refl) as (x' & y' & z' & E' & _).
  exists x, y, z, x', y', z'. split; [exact E|]. split; [exact E'|].
  assert (Hlen : sqrt (dot (vec_at pole_normal 0 [0; 0]%nat)
                           (vec_at pole_normal 0 [0; 0]%nat)) = 1).
  { unfold vec_at, dot, pole_normal. cbn [elem nth].
    replace (0 * 0 + 0 * 0 + -1 * -1) with 1 by ring. apply sqrt_1. }
  destruct (create_frame_scale pole_normal 1e-6 3 1 [1; 1]%nat x y z x' y' z'
              0 [0; 0]%nat eq_refl) as (Hx & _ & Hz);
    try assumption; try lra; try (cbn; lia); try (rewrite Hlen; lra).
  split; assumption.
Defined.

(** ** The sequential sampler *)

Lemma mapM_getitem_suffix {A : Type} (l pre : list A) :
  mapM (getitem (pre ++ l)) (seq (length pre) (length l)) = Ok l.
Proof.
  revert pre. induction l as [|x l IH]; intros pre; [reflexivity|].
  cbn [length seq mapM]. unfold getitem at 1.
  rewrite nth_error_app2 by lia. rewrite Nat.sub_diag. cbn [nth_error bind].
  replace (pre ++ x :: l) with ((pre ++ [x]) ++ l)
    by (rewrite <- app_assoc; reflexivity).
  replace (S (length pre)) with (length (pre ++ [x]))
    by (rewrite length_app; cbn; lia).
  rewrite IH. reflexivity.
Qed.

(** X15: iterating a [SubsetSequentialSampler] to the end never raises
    and yields exactly the indices it was built from, each once and in
    their order; [len] is their number. *)
Theorem sampler_iterates_in_order {A : Type} (l : list A) :
  SubsetSequentialSampler.__iter__ (SubsetSequentialSampler.__init__ l) = Ok l
  /\ SubsetSequentialSampler.__len__ (SubsetSequentialSampler.__init__ l)
     = length l.
Proof.
  split; [|reflexivity].
  unfold SubsetSequentialSampler.__iter__, SubsetSequentialSampler.__init__.
  cbn [SubsetSequentialSampler.indices].
  exact (mapM_getitem_suffix l []).
Qed.

(** ** The lines of the split file: [load_dataset] *)

Lemma lstrip_empty s :
  str.lstrip s = EmptyString <-> string_forall str.isspace s = true.
Proof.
  induction s as [|c s IH]; cbn [str.lstrip string_forall].
  { split; reflexivity. }
  destruct (str.isspace c); cbn [andb]; [exact IH|].
  split; discriminate.
Qed.

Lemma rstrip_empty s :
  str.rstrip s = EmptyString <-> string_forall str.isspace s = true.
Proof.
  induction s as [|c s IH]; cbn [str.rstrip string_forall];
    [split; reflexivity|].
  destruct (str.rstrip s) eqn:E.
  - destruct (str.isspace c); cbn [andb].
    + split; [intros _; now apply IH | reflexivity].
    + split; discriminate.
  - split; [discriminate|]. intros H.
    apply andb_true_iff in H as [_ H]. apply IH in H. discriminate.
Qed.

(** What [lstrip] leaves is empty or starts with a character that is not
    a space. *)
Lemma lstrip_head s :
  match str.lstrip s with
  | EmptyString => True
  | String c _ => str.isspace c = false
  end.
Proof.
  induction s as [|c s IH]; cbn [str.lstrip]; [exact I|].
  destruct (str.isspace c) eqn:E; [exact IH | exact E].
Qed.

Lemma strip_empty s :
  str.strip s = EmptyString <-> string_forall str.isspace s = true.
Proof.
  unfold str.strip. split; intros H.
  - apply rstrip_empty in H. pose proof (lstrip_head s) as Hh.
    destruct (str.lstrip s) as [|c r] eqn:E; [now apply lstrip_empty|].
    cbn [string_forall] in H. rewrite Hh in H. discriminate.
  - apply lstrip_empty in H. now rewrite H.
Qed.

Lemma split_all_space s :
  string_forall str.isspace s = true -> str.split s = [].
Proof.
  induction s as [|c s IH]; cbn [string_forall str.split]; [reflexivity|].
  intros H. apply andb_true_iff in H as [-> H]. now apply IH.
Qed.

Lemma split_lstrip s : str.split (str.lstrip s) = str.split s.
Proof.
  induction s as [|c s IH]; [reflexivity|].
  cbn [str.lstrip]. destruct (str.isspace c) eqn:E; [|reflexivity].
  rewrite IH. cbn [str.split]. now rewrite E.
Qed.

(** [rstrip] keeps the first character of what it does not erase. *)
Lemma rstrip_head s :
  match str.rstrip s, s with
  | String c _, String c' _ => c = c'
  | String _ _, EmptyString => False
  | EmptyString, _ => True
  end.
Proof.
  destruct s as [|c s]; [exact I|]. cbn [str.rstrip].
  destruct (str.rstrip s); [destruct (str.isspace c)|]; auto.
Qed.

Lemma split_cons2 c c' x :
  str.split (String c (String c' x))
  = if str.isspace c then str.split (String c' x)
    else if str.isspace c' then String c EmptyString :: str.split (String c' x)
         else match str.split (String c' x) with
              | t :: r => String c t :: r
              | [] => [String c EmptyString]
              end.
Proof. reflexivity. Qed.

Lemma split_rstrip s : str.split (str.rstrip s) = str.split s.
Proof.
  induction s as [|c s IH]; [reflexivity|].
  cbn [str.rstrip]. pose proof (rstrip_head s) as Hh.
  destruct (str.rstrip s) as [|c1 r] eqn:E.
  - apply rstrip_empty in E. pose proof (split_all_space s E) as Hs.
    destruct (str.isspace c) eqn:Ec.
    + cbn [str.split]. now rewrite Ec.
    + destruct s as [|c' s']; [reflexivity|].
      rewrite split_cons2, Ec, Hs.
      cbn [string_forall] in E. apply andb_true_iff in E as [-> _].
      cbn [str.split]. now rewrite Ec.
  - destruct s as [|c' s']; [contradiction|]. subst c1.
    now rewrite !split_cons2, IH.
Qed.

Lemma split_strip s : str.split (str.strip s) = str.split s.
Proof. unfold str.strip. now rewrite split_rstrip, split_lstrip. Qed.

Lemma split_leading_space ws s :
  string_forall str.isspace ws = true ->
  str.split (String.append ws s) = str.split s.
Proof.
  induction ws as [|c ws IH]; cbn [string_forall String.append];
    [reflexivity|].
  intros H. apply andb_true_iff in H as [Hc H].
  cbn [str.split]. rewrite Hc. now apply IH.
Qed.

(** What follows a path on a line: nothing, or a space and the rest. *)
Lemma split_first_token path tail :
  path <> EmptyString -> no_space path = true ->
  ends_token tail = true ->
  str.split (String.append path tail) = path :: str.split tail.
Proof.
  unfold no_space. induction path as [|c p IH]; [congruence|].
  intros _ Hp Ht. cbn [string_forall] in Hp.
  apply andb_true_iff in Hp as [Hc Hp].
  apply negb_true_iff in Hc.
  destruct p as [|c2 p'].
  - cbn [String.append]. destruct tail as [|c' t].
    + cbn [str.split]. now rewrite Hc.
    + cbn [ends_token] in Ht. rewrite split_cons2, Hc, Ht.
      reflexivity.
  - change (String.append (String c (String c2 p')) tail)
      with (String c (String c2 (String.append p' tail))).
    rewrite split_cons2, Hc.
    pose proof Hp as Hp'. cbn [string_forall] in Hp'.
    apply andb_true_iff in Hp' as [Hc2 _]. apply negb_true_iff in Hc2.
    rewrite Hc2.
    change (String c2 (String.append p' tail))
      with (String.append (String c2 p') tail).
    rewrite IH by (try discriminate; assumption). reflexivity.
Qed.

Lemma split_sep_nonempty sep s :
  exists t r, str.split_sep sep s = t :: r.
Proof.
  destruct s as [|c s]; cbn [str.split_sep]; [eauto|].
  destruct (Ascii.eqb c sep); [eauto|].
  destruct (str.split_sep sep s); eauto.
Qed.

(** [(a + sep + b).split(sep) = a.split(sep) + b.split(sep)]. *)
Lemma split_sep_app sep a b :
  str.split_sep sep (String.append a (String sep b))
  = str.split_sep sep a ++ str.split_sep sep b.
Proof.
  induction a as [|c a IH]; cbn [String.append str.split_sep].
  - now rewrite Ascii.eqb_refl.
  - destruct (Ascii.eqb c sep); [now rewrite IH|].
    rewrite IH. destruct (split_sep_nonempty sep a) as (t & r & ->).
    reflexivity.
Qed.

Lemma split_sep_free sep s :
  free_of sep s = true -> str.split_sep sep s = [s].
Proof.
  unfold free_of. induction s as [|c s IH]; cbn [string_forall str.split_sep];
    [reflexivity|].
  intros H. apply andb_true_iff in H as [Hc H]. apply negb_true_iff in Hc.
  rewrite Hc, IH by exact H. reflexivity.
Qed.

(** [sep.join(s.split(sep)) = s]. *)
Lemma join_split_sep s : str.join "/" (str.split_sep "/" s) = s.
Proof.
  unfold str.join. induction s as [|c s IH]; [reflexivity|].
  cbn [str.split_sep]. destruct (Ascii.eqb_spec c "/") as [->|Hne].
  - destruct (split_sep_nonempty "/" s) as (t & r & E).
    rewrite E in *. cbn [String.concat]. cbn [String.concat] in IH.
    now rewrite IH.
  - destruct (split_sep_nonempty "/" s) as (t & r & E).
    rewrite E in *. destruct r as [|t' r]; cbn [String.concat] in *.
    + now rewrite IH.
    + cbn [String.append] in *. now rewrite IH.
Qed.

Lemma string_forall_app p a b :
  string_forall p (String.append a b)
  = (string_forall p a && string_forall p b)%bool.
Proof.
  induction a as [|c a IH]; cbn [String.append string_forall]; [reflexivity|].
  now rewrite IH, andb_assoc.
Qed.

Lemma string_app_empty a b :
  String.append a b = EmptyString -> a = EmptyString /\ b = EmptyString.
Proof. destruct a; cbn; [auto | discriminate]. Qed.

(** [os.path.join] of a folder that does not end in a slash and a name
    that does not start with one. *)
Lemma path_join_plain folder name :
  str.endswith "/" folder = false -> str.startswith "/" name = false ->
  os_path.join folder name
  = if String.eqb folder "" then name
    else String.append folder (String "/" name).
Proof.
  intros Hf Hn. unfold os_path.join. rewrite Hn, Hf.
  destruct (String.eqb_spec folder ""); [subst; reflexivity | reflexivity].
Qed.

Lemma file_not_absolute view sep rest :
  free_of "/" view = true -> sep <> "/"%char ->
  str.startswith "/" (String.append view (String sep rest)) = false.
Proof.
  intros Hv Hs. destruct view as [|c v]; cbn [String.append str.startswith].
  - now apply Ascii.eqb_neq.
  - unfold free_of in Hv. cbn [string_forall] in Hv.
    apply andb_true_iff in Hv as [Hc _]. now apply negb_true_iff in Hc.
Qed.

Lemma file_free_of_slash view sep rest :
  free_of "/" view = true -> sep <> "/"%char -> free_of "/" rest = true ->
  free_of "/" (String.append view (String sep rest)) = true.
Proof.
  unfold free_of. intros Hv Hs Hr.
  rewrite string_forall_app, Hv. cbn [string_forall andb].
  rewrite Hr, andb_true_r. apply negb_true_iff. now apply Ascii.eqb_neq.
Qed.

(** Lines 32-35 and 38-41 on a path [folder/view<sep>rest]: the file name,
    the folder and the view id are found again. *)
Lemma parse_path folder view sep rest :
  sep <> "/"%char ->
  free_of "/" view = true -> free_of sep view = true ->
  free_of "/" rest = true -> str.endswith "/" folder = false ->
  let file := String.append view (String sep rest) in
  let parts := str.split_sep "/" (os_path.join folder file) in
  last parts EmptyString = file
  /\ str.join "/" (removelast parts) = folder
  /\ hd EmptyString (str.split_sep sep file) = view.
Proof.
  intros Hs Hv Hvs Hr Hf file parts. subst parts.
  assert (Hfile : str.split_sep "/" file = [file])
    by (apply split_sep_free, file_free_of_slash; assumption).
  rewrite path_join_plain by (try apply file_not_absolute; assumption).
  split; [|split].
  - destruct (String.eqb_spec folder "") as [->|Hne].
    + now rewrite Hfile.
    + rewrite split_sep_app, Hfile. apply last_last.
  - destruct (String.eqb_spec folder "") as [->|Hne].
    + now rewrite Hfile.
    + rewrite split_sep_app, Hfile, removelast_last. apply join_split_sep.
  - subst file. rewrite split_sep_app, (split_sep_free sep view Hvs).
    reflexivity.
Qed.

(** Lines 24-29 on a line whose first token is [path]. *)
Lemma first_path_of_line ws path tail :
  path <> EmptyString -> no_space path = true ->
  string_forall str.isspace ws = true -> ends_token tail = true ->
  let line := String.append ws (String.append path tail) in
  String.eqb (str.strip line) "" = false
  /\ hd EmptyString (str.split (str.strip line)) = path.
Proof.
  intros Hne Hp Hws Ht line. subst line. split.
  - apply String.eqb_neq. intros H. apply strip_empty in H.
    rewrite !string_forall_app in H.
    apply andb_true_iff in H as [_ H]. apply andb_true_iff in H as [H _].
    destruct path as [|c p]; [congruence|].
    unfold no_space in Hp. cbn [string_forall] in Hp, H.
    destruct (str.isspace c); discriminate.
  - rewrite split_strip, split_leading_space, split_first_token
      by assumption.
    reflexivity.
Qed.

Lemma joined_path_nonempty folder view sep rest :
  os_path.join folder (String.append view (String sep rest)) <> EmptyString.
Proof.
  unfold os_path.join.
  destruct (str.startswith _ _); [|destruct (_ || _)%bool]; intros H;
    apply string_app_empty in H as [_ H]; try discriminate.
  apply string_app_empty in H as [_ H]. discriminate.
Qed.

(** The sample of a line whose first token is [folder/view<sep>rest]. *)
Lemma sample_of_path_line stage folder view rest ws tail :
  let sep := (if InteriorVerseDataset.is_test stage then "." else "_")%char in
  let path := os_path.join folder (String.append view (String sep rest)) in
  free_of "/" view = true -> free_of sep view = true ->
  free_of "/" rest = true -> str.endswith "/" folder = false ->
  no_space path = true ->
  string_forall str.isspace ws = true -> ends_token tail = true ->
  InteriorVerseDataset.sample_of_line stage
    (String.append ws (String.append path tail))
  = Some {| InteriorVerseDataset.scene_folder := folder;
            InteriorVerseDataset.view_id := view;
            InteriorVerseDataset.sample_id := os_path.join folder view |}.
Proof.
  intros sep path Hv Hvs Hr Hf Hp Hws Ht.
  assert (Hsep : sep <> "/"%char)
    by (subst sep; destruct (InteriorVerseDataset.is_test stage);
        discriminate).
  destruct (first_path_of_line ws path tail) as [E1 E2];
    try assumption; [apply joined_path_nonempty|].
  destruct (parse_path folder view sep rest) as (P1 & P2 & P3);
    try assumption.
  unfold InteriorVerseDataset.sample_of_line.
  rewrite E1, E2. fold sep. fold path in P1, P2.
  rewrite P1, P2, P3. reflexivity.
Qed.

(** Lines 59-65: outside the test stages every feature is assigned and the
    loop never fails. *)
Lemma train_feature_paths stage folder view features bound :
  InteriorVerseDataset.is_test stage = false ->
  exists final,
    InteriorVerseDataset.feature_paths stage folder view features bound
    = Ok (map (fun f =>
                 (f, os_path.join folder
                       (String.append view
                          (String "_"
                             (String.append f
                                (if String.eqb f "mask" then ".png"
                                 else ".exr")))))) features,
          final).
Proof.
  intros Hs. revert bound.
  induction features as [|f fs IH]; intros bound;
    cbn [InteriorVerseDataset.feature_paths map]; [eauto|].
  rewrite Hs.
  destruct (IH (Some (if String.eqb f "mask"
                      then String.append view
                             (String.append "_" (String.append f ".png"))
                      else String.append view
                             (String.append "_" (String.append f ".exr")))))
    as [final E].
  rewrite E. cbn [bind]. exists final.
  destruct (String.eqb f "mask"); reflexivity.
Qed.

(** Lines 48-56 once [feature_filename] is bound: the loop cannot fail. *)
Lemma test_feature_paths_bound stage folder view features b :
  exists assigns final,
    InteriorVerseDataset.feature_paths stage folder view features (Some b)
    = Ok (assigns, final).
Proof.
  revert b. induction features as [|f fs IH]; intros b;
    cbn [InteriorVerseDataset.feature_paths]; [eauto|].
  destruct (InteriorVerseDataset.is_test stage).
  - destruct (String.eqb f "mask"); [apply IH|].
    destruct (String.eqb f "im");
      [|destruct (String.eqb f "albedo")];
      match goal with
      | |- context [InteriorVerseDataset.feature_paths _ _ _ _ (Some ?x)] =>
          destruct (IH x) as (a & fin & ->)
      end; cbn [bind]; eauto.
  - match goal with
    | |- context [InteriorVerseDataset.feature_paths _ _ _ _ (Some ?x)] =>
        destruct (IH x) as (a & fin & ->)
    end; cbn [bind]; eauto.
Qed.

(** Lines 48-56: what a run of the test-stage loop that ends has
    assigned. *)
Lemma test_feature_paths_inv stage folder view features bound assigns final :
  InteriorVerseDataset.is_test stage = true ->
  InteriorVerseDataset.feature_paths stage folder view features bound
  = Ok (assigns, final) ->
  map fst assigns
  = filter (fun f => negb (String.eqb f "mask")) features
  /\ (In "im"%string features ->
      In ("im"%string, os_path.join folder (String.append view ".png"))
         assigns)
  /\ (In "albedo"%string features ->
      In ("albedo"%string, os_path.join folder (String.append view ".exr"))
         assigns).
Proof.
  intros Hs. revert bound assigns final.
  induction features as [|f fs IH]; intros bound assigns final;
    cbn [InteriorVerseDataset.feature_paths filter]; rewrite ?Hs.
  { intros [= <- _]. cbn. tauto. }
  destruct (String.eqb_spec f "mask") as [->|Hm]; cbn [negb].
  { intros E. destruct (IH _ _ _ E) as (I1 & I2 & I3).
    split; [exact I1|]. split; intros [D|D]; try discriminate; auto. }
  destruct (String.eqb_spec f "im") as [->|Hi];
    [|destruct (String.eqb_spec f "albedo") as [->|Ha];
      [|destruct bound as [b|]; [|discriminate]]];
    (destruct (InteriorVerseDataset.feature_paths stage folder view fs _)
       as [[more fin]|e] eqn:E; cbn [bind]; [|discriminate]);
    intros [= <- _]; destruct (IH _ _ _ E) as (I1 & I2 & I3);
    cbn [map fst]; rewrite I1; (split; [reflexivity|]);
    split; intros [D|D]; try discriminate; try congruence;
    try (left; reflexivity); right; auto.
Qed.

(** X16 (load_dataset, lines 24-26): a line of the split file is skipped
    exactly when it consists of white space only; every other line names a
    sample. *)
Theorem blank_line_skipped stage line :
  InteriorVerseDataset.sample_of_line stage line = None
  <-> string_forall str.isspace line = true.
Proof.
  unfold InteriorVerseDataset.sample_of_line.
  destruct (String.eqb_spec (str.strip line) "") as [E|E].
  - split; [intros _; now apply strip_empty | reflexivity].
  - split; [discriminate|]. intros H. now apply strip_empty in H.
Qed.

(** X17 (load_dataset, lines 24-42): a line whose first path is
    [folder/view<sep>rest], with [sep] the dot in the test and validation
    stages and the underscore otherwise, gives back the folder and the view
    id; leading white space and whatever follows the first path are
    ignored, and the sample id joins folder and view id.  The folder may
    be empty and may itself contain slashes, dots and underscores. *)
Theorem line_names_sample stage folder view rest ws tail :
  let sep := (if InteriorVerseDataset.is_test stage then "." else "_")%char in
  let path := os_path.join folder (String.append view (String sep rest)) in
  free_of "/" view = true -> free_of sep view = true ->
  free_of "/" rest = true -> str.endswith "/" folder = false ->
  no_space path = true ->
  string_forall str.isspace ws = true -> ends_token tail = true ->
  exists key,
    InteriorVerseDataset.sample_of_line stage
      (String.append ws (String.append path tail)) = Some key
    /\ InteriorVerseDataset.scene_folder key = folder
    /\ InteriorVerseDataset.view_id key = view
    /\ InteriorVerseDataset.sample_id key = os_path.join folder view
    /\ os_path.join (InteriorVerseDataset.scene_folder key)
         (String.append (InteriorVerseDataset.view_id key) (String sep rest))
       = path.
Proof.
  intros sep path Hv Hvs Hr Hf Hp Hws Ht.
  eexists. split; [now apply sample_of_path_line|].
  cbn. repeat split; reflexivity.
Qed.

(** X18 (load_dataset, lines 24-65, training stage): round trip.  If a
    line's first path is the file [folder/view_feature.exr] (.png for the
    mask) of a feature to include, the loop over the features succeeds,
    assigns every feature in order, and assigns to that feature exactly
    the path read from the line. *)
Theorem train_round_trip stage folder view features f ws tail bound :
  let file :=
    String.append view
      (String "_" (String.append f
                     (if String.eqb f "mask" then ".png" else ".exr"))) in
  let path := os_path.join folder file in
  InteriorVerseDataset.is_test stage = false ->
  In f features ->
  free_of "/" view = true -> free_of "_" view = true ->
  free_of "/" f = true -> str.endswith "/" folder = false ->
  no_space path = true ->
  string_forall str.isspace ws = true -> ends_token tail = true ->
  exists key assigns final,
    InteriorVerseDataset.sample_of_line stage
      (String.append ws (String.append path tail)) = Some key
    /\ InteriorVerseDataset.feature_paths stage
         (InteriorVerseDataset.scene_folder key)
         (InteriorVerseDataset.view_id key) features bound
       = Ok (assigns, final)
    /\ map fst assigns = features
    /\ In (f, path) assigns.
Proof.
  intros file path Hs Hin Hv Hvs Hfeat Hf Hp Hws Ht.
  pose proof (sample_of_path_line stage folder view
                (String.append f (if String.eqb f "mask" then ".png"
                                  else ".exr")) ws tail) as K.
  cbv zeta in K. rewrite Hs in K.
  destruct (train_feature_paths stage folder view features bound Hs)
    as [final E].
  eexists _, _, final. split.
  { apply K; try assumption.
    unfold free_of in *. rewrite string_forall_app, Hfeat.
    now destruct (String.eqb f "mask"). }
  cbn [InteriorVerseDataset.scene_folder InteriorVerseDataset.view_id].
  split; [exact E|]. split.
  - rewrite map_map. cbn [fst]. apply map_id.
  - apply in_map_iff. exists f. split; [reflexivity | exact Hin].
Qed.

(** X19 (load_dataset, lines 47-56, test and validation stages): on a new
    sample the loop fails with an unbound [feature_filename] exactly when
    the first feature other than the mask is neither [im] nor [albedo];
    otherwise it ends normally. *)
Theorem test_features_outcome stage folder view features :
  InteriorVerseDataset.is_test stage = true ->
  match find (fun f => negb (String.eqb f "mask")) features with
  | Some f =>
      if (String.eqb f "im" || String.eqb f "albedo")%bool
      then exists assigns final,
          InteriorVerseDataset.feature_paths stage folder view features None
          = Ok (assigns, final)
      else InteriorVerseDataset.feature_paths stage folder view features None
           = Raise (OtherError "UnboundLocalError")
  | None =>
      InteriorVerseDataset.feature_paths stage folder view features None
      = Ok ([], None)
  end.
Proof.
  intros Hs. induction features as [|f fs IH];
    cbn [find InteriorVerseDataset.feature_paths]; [reflexivity|].
  rewrite Hs. destruct (String.eqb f "mask"); cbn [negb]; [exact IH|].
  destruct (String.eqb f "im"); cbn [orb].
  - destruct (test_feature_paths_bound stage folder view fs
                (String.append view ".png")) as (a & fin & ->).
    cbn [bind]. eauto.
  - destruct (String.eqb f "albedo"); [|reflexivity].
    destruct (test_feature_paths_bound stage folder view fs
                (String.append view ".exr")) as (a & fin & ->).
    cbn [bind]. eauto.
Qed.

(** X20 (load_dataset, lines 47-56, test and validation stages): features
    other than [mask], [im] and [albedo] that follow [im] or [albedo]
    are assigned the path of that image again, the file name of the
    previous turn of the loop being still bound. *)
Theorem test_unknown_feature_reuses_path stage folder view known others bound :
  InteriorVerseDataset.is_test stage = true ->
  known = "im"%string \/ known = "albedo"%string ->
  Forall (fun f => f <> "mask"%string /\ f <> "im"%string
                   /\ f <> "albedo"%string) others ->
  let file :=
    String.append view (if String.eqb known "im" then ".png" else ".exr") in
  InteriorVerseDataset.feature_paths stage folder view (known :: others) bound
  = Ok (map (fun f => (f, os_path.join folder file)) (known :: others),
        Some file).
Proof.
  intros Hs Hk Ho file.
  assert (L : forall b,
             InteriorVerseDataset.feature_paths stage folder view others
               (Some b)
             = Ok (map (fun f => (f, os_path.join folder b)) others, Some b)).
  { intros b. induction Ho as [|f fs (Hm & Hi & Ha) _ IH];
      cbn [InteriorVerseDataset.feature_paths map]; [reflexivity|].
    rewrite Hs. apply String.eqb_neq in Hm, Hi, Ha.
    rewrite Hm, Hi, Ha, IH. reflexivity. }
  cbn [InteriorVerseDataset.feature_paths map]. rewrite Hs.
  destruct Hk as [-> | ->]; subst file; cbn [String.eqb Ascii.eqb Bool.eqb];
    rewrite L; reflexivity.
Qed.

(** X21 (load_dataset, lines 24-56, test and validation stages): round
    trip.  If a line's first path is the image [folder/view.png] and [im]
    is a feature to include (or [folder/view.exr] and [albedo]), every run
    of the loop that ends assigns to that feature exactly the path read
    from the line, and never assigns the mask. *)
Theorem test_round_trip stage folder view features f ws tail bound
    assigns final :
  let file :=
    String.append view (if String.eqb f "im" then ".png" else ".exr") in
  let path := os_path.join folder file in
  InteriorVerseDataset.is_test stage = true ->
  f = "im"%string \/ f = "albedo"%string ->
  In f features ->
  free_of "/" view = true -> free_of "." view = true ->
  str.endswith "/" folder = false ->
  no_space path = true ->
  string_forall str.isspace ws = true -> ends_token tail = true ->
  exists key,
    InteriorVerseDataset.sample_of_line stage
      (String.append ws (String.append path tail)) = Some key
    /\ (InteriorVerseDataset.feature_paths stage
          (InteriorVerseDataset.scene_folder key)
          (InteriorVerseDataset.view_id key) features bound
        = Ok (assigns, final) ->
        In (f, path) assigns
        /\ ~ In "mask"%string (map fst assigns)).
Proof.
  intros file path Hs Hk Hin Hv Hvs Hf Hp Hws Ht.
  pose proof (sample_of_path_line stage folder view
                (if String.eqb f "im" then "png" else "exr") ws tail) as K.
  cbv zeta in K. rewrite Hs in K.
  assert (Hfile : String.append view
                    (String "." (if String.eqb f "im" then "png" else "exr"))
                  = file)
    by (subst file; destruct (String.eqb f "im"); reflexivity).
  rewrite Hfile in K.
  eexists. split.
  - apply K; try assumption. now destruct (String.eqb f "im").
  - cbn [InteriorVerseDataset.scene_folder InteriorVerseDataset.view_id].
    intros E.
    destruct (test_feature_paths_inv _ _ _ _ _ _ _ Hs E) as (I1 & I2 & I3).
    split.
    + subst path file. destruct Hk as [-> | ->]; cbn; auto.
    + rewrite I1. intros D. apply filter_In in D as [_ D]. discriminate.
Qed.

(** X17 on a line of a training split file: indented, with a second
    path. *)
Lemma line_names_sample_witness :
  exists key,
    InteriorVerseDataset.sample_of_line "Train"
      "  L3D124S8ENDIDQ4AQYUI5NYALUF3P3XC888/007_im.exr second" = Some key
    /\ InteriorVerseDataset.scene_folder key
       = "L3D124S8ENDIDQ4AQYUI5NYALUF3P3XC888"%string
    /\ InteriorVerseDataset.view_id key = "007"%string
    /\ InteriorVerseDataset.sample_id key
       = "L3D124S8ENDIDQ4AQYUI5NYALUF3P3XC888/007"%string
    /\ os_path.join (InteriorVerseDataset.scene_folder key)
         (String.append (InteriorVerseDataset.view_id key) "_im.exr")
       = "L3D124S8ENDIDQ4AQYUI5NYALUF3P3XC888/007_im.exr"%string.
Proof.
  exact (line_names_sample "Train" "L3D124S8ENDIDQ4AQYUI5NYALUF3P3XC888"
           "007" "im.exr" "  " " second"
           eq_refl eq_refl eq_refl eq_refl eq_refl eq_refl eq_refl).
Defined.

(** X18 on the albedo of view 007 with three features to include. *)
Lemma train_round_trip_witness :
  exists key assigns final,
    InteriorVerseDataset.sample_of_line "Train"
      "scenes/a/007_albedo.exr scenes/a/007_im.exr" = Some key
    /\ InteriorVerseDataset.feature_paths "Train"
         (InteriorVerseDataset.scene_folder key)
         (InteriorVerseDataset.view_id key)
         ["im"; "albedo"; "mask"]%string None
       = Ok (assigns, final)
    /\ map fst assigns = ["im"; "albedo"; "mask"]%string
    /\ In ("albedo"%string, "scenes/a/007_albedo.exr"%string) assigns.
Proof.
  exact (train_round_trip "Train" "scenes/a" "007"
           ["im"; "albedo"; "mask"]%string "albedo" "" " scenes/a/007_im.exr"
           None eq_refl (or_intror (or_introl eq_refl))
           eq_refl eq_refl eq_refl eq_refl eq_refl eq_refl eq_refl).
Defined.

(** X19 in the test stage with the features of a training run: the
    normal is the first feature after the mask. *)
Lemma test_features_outcome_witness :
  InteriorVerseDataset.feature_paths "Test" "scenes/a" "007"
    ["mask"; "normal"; "im"]%string None
  = Raise (OtherError "UnboundLocalError").
Proof.
  exact (test_features_outcome "Test" "scenes/a" "007"
           ["mask"; "normal"; "im"]%string eq_refl).
Defined.

(** X20 in the validation stage: the normal and the depth after the
    image. *)
Lemma test_unknown_feature_reuses_path_witness :
  InteriorVerseDataset.feature_paths "Validation" "scenes/a" "007"
    ["im"; "normal"; "depth"]%string None
  = Ok ([("im", "scenes/a/007.png"); ("normal", "scenes/a/007.png");
         ("depth", "scenes/a/007.png")]%string,
        Some "007.png"%string).
Proof.
  refine (test_unknown_feature_reuses_path "Validation" "scenes/a" "007"
            "im" ["normal"; "depth"]%string None eq_refl
            (or_introl eq_refl) _).
  repeat constructor; discriminate.
Defined.

(** X21 on the image of view 007 in the test stage: the loop ends, and
    the image gets the path of the line. *)
Lemma test_round_trip_witness :
  exists key,
    InteriorVerseDataset.sample_of_line "Test" "scenes/a/007.png" = Some key
    /\ InteriorVerseDataset.feature_paths "Test"
         (InteriorVerseDataset.scene_folder key)
         (InteriorVerseDataset.view_id key)
         ["mask"; "im"; "albedo"]%string None
       = Ok ([("im", "scenes/a/007.png"); ("albedo", "scenes/a/007.exr")]
               %string, Some "007.exr"%string)
    /\ In ("im"%string, "scenes/a/007.png"%string)
          [("im", "scenes/a/007.png"); ("albedo", "scenes/a/007.exr")]%string
    /\ ~ In "mask"%string
           (map fst [("im", "scenes/a/007.png");
                     ("albedo", "scenes/a/007.exr")]%string).
Proof.
  destruct (test_round_trip "Test" "scenes/a" "007"
              ["mask"; "im"; "albedo"]%string "im" "" "" None
              [("im", "scenes/a/007.png"); ("albedo", "scenes/a/007.exr")]
                %string
              (Some "007.exr"%string)
              eq_refl (or_introl eq_refl) (or_intror (or_introl eq_refl))
              eq_refl eq_refl eq_refl eq_refl eq_refl eq_refl)
    as (key & E & H).
  exists key. split; [exact E|].
  assert (Hk : key = {| InteriorVerseDataset.scene_folder := "scenes/a";
                        InteriorVerseDataset.view_id := "007";
                        InteriorVerseDataset.sample_id := "scenes/a/007" |})
    by (vm_compute in E; congruence).
  assert (R : InteriorVerseDataset.feature_paths "Test"
                (InteriorVerseDataset.scene_folder key)
                (InteriorVerseDataset.view_id key)
                ["mask"; "im"; "albedo"]%string None
              = Ok ([("im", "scenes/a/007.png");
                     ("albedo", "scenes/a/007.exr")]%string,
                    Some "007.exr"%string))
    by (rewrite Hk; reflexivity).
  split; [exact R | exact (H R)].
Defined.
